(** * HanziWriter.js: the controller of a character view

    A shallow embedding of [src/HanziWriter.js]: option preparation, the
    quiz reference, the pointer handlers, and the promise plumbing that
    defers quiz and animation actions until character data is there.

    JavaScript objects used as option bags are [gmap string jsval]; objects
    that are passed around and mutated live in a heap.  The controller itself
    is a record of its fields; calls to collaborators are recorded, in order,
    in a trace of events.  Promise reactions are made explicit: a microtask
    queue, the reactions waiting on each data promise, and the completions
    the environment still owes.  An execution is a list of labels: the
    reactions, run one by one, and what comes from outside between them
    (host code, DOM events, answers of the data provider, finished renders
    and timers).

    [Animator], [Quiz], [LoadingManager], the renderers and [utils] are not
    among the sources.  What the controller needs of them is modelled from
    the specification, or left to the environment [Env]; each such
    definition says so. *)

From Stdlib Require Import QArith Qminmax.
From stdpp Require Import base option list gmap strings.

Open Scope string_scope.

(** ** JavaScript values *)

(** Numbers: rationals stand for the finite doubles, with the two infinities
    and NaN.  The sign of zero is not modelled; what a division rounds to is
    left to the environment. *)
Inductive num := Fin (q : Q) | PInf | NInf | NaN.

Inductive jsval :=
| VUndef
| VNull
| VBool (b : bool)
| VNum (n : num)
| VStr (s : string)
| VFun (name : string).

Abbreviation obj := (gmap string jsval).
Abbreviation loc := positive.
Abbreviation heap := (gmap loc obj).

(** What the program cannot see from its own file: the browser and the
    collaborators' answers. *)
Record Env := {
  rect_width : Q;                 (* getBoundingClientRect().width *)
  rect_height : Q;
  rect_left : Q;
  rect_top : Q;
  isMSBrowser : bool;
  str_to_num : string -> num;     (* ToNumber on strings *)
  quotient : Q -> Q -> option Q;  (* the double x / y rounds to, y not 0; None: overflow *)
  sync_fail : nat -> bool;        (* does the provider refuse request k at once? *)
  render_promise : nat -> bool    (* renderer.animate, called after n events: a promise? *)
}.

(** JavaScript truthiness, as tested by [if (x)], [!x], [x && y]. *)
Definition truthy (v : jsval) : bool :=
  match v with
  | VUndef | VNull => false
  | VBool b => b
  | VNum (Fin q) => negb (Qeq_bool q 0)
  | VNum NaN => false
  | VNum _ => true
  | VStr s => negb (String.eqb s "")
  | VFun _ => true
  end.

Definition to_number (E : Env) (v : jsval) : num :=
  match v with
  | VUndef => NaN
  | VNull => Fin 0
  | VBool b => if b then Fin 1 else Fin 0
  | VNum n => n
  | VStr s => str_to_num E s
  | VFun _ => NaN
  end.

(** Division of doubles.  Two finite numbers, the divisor not zero, give the
    double their quotient rounds to, or on overflow the infinity of the
    quotient's sign; the other cases are exact. *)
Definition num_div (E : Env) (a b : num) : num :=
  match a, b with
  | NaN, _ | _, NaN => NaN
  | Fin x, Fin y =>
      if Qeq_bool y 0
      then (if Qeq_bool x 0 then NaN else if Qle_bool 0 x then PInf else NInf)
      else match quotient E x y with
           | Some q => Fin q
           | None => if Qle_bool 0 (x / y) then PInf else NInf
           end
  | Fin _, _ => Fin 0
  | PInf, Fin y => if Qle_bool 0 y then PInf else NInf
  | NInf, Fin y => if Qle_bool 0 y then NInf else PInf
  | _, _ => NaN
  end.

(** The JavaScript [a / b]. *)
Definition js_div (E : Env) (a b : jsval) : jsval :=
  VNum (num_div E (to_number E a) (to_number E b)).

(** Property read [o.k]: an absent property reads as [undefined]. *)
Definition prop (o : obj) (k : string) : jsval := default VUndef (o !! k).

(** ** Option preparation *)

Module Options.

(** Modelled from the spec: [utils.assign] is not among the sources; it is
    taken to copy the own properties of each source onto the target, a later
    source winning, as [Object.assign] does. *)
Definition assign_obj (target : obj) (sources : list obj) : obj :=
  foldl (fun acc src => src ∪ acc) target sources.

Definition get (l : loc) (k : string) (h : heap) : jsval :=
  prop (default ∅ (h !! l)) k.

Definition set (l : loc) (k : string) (v : jsval) (h : heap) : heap :=
  match h !! l with
  | Some o => <[l := <[k := v]> o]> h
  | None => h
  end.

(** [assign({}, ...sources)]: a fresh object receives the merge. *)
Definition assign_new (sources : list obj) (h : heap) : loc * heap :=
  let l := fresh (dom h) in
  (l, <[l := assign_obj ∅ sources]> h).

Definition defaultOptions (E : Env) : obj :=
  list_to_map
    [ ("charDataLoader", VFun "defaultCharDataLoader");
      ("onLoadCharDataError", VNull);
      ("onLoadCharDataSuccess", VNull);
      ("showOutline", VBool true);
      ("showCharacter", VBool true);
      ("width", VNull);
      ("height", VNull);
      ("padding", VNum (Fin 20));
      ("strokeAnimationSpeed", VNum (Fin 1));
      ("strokeFadeDuration", VNum (Fin 400));
      ("strokeHighlightDuration", VNum (Fin 200));
      ("strokeHighlightSpeed", VNum (Fin 2));
      ("delayBetweenStrokes", VNum (Fin 1000));
      ("delayBetweenLoops", VNum (Fin 2000));
      ("strokeColor", VStr "#555");
      ("radicalColor", VNull);
      ("highlightColor", VStr "#AAF");
      ("outlineColor", VStr "#DDD");
      ("drawingColor", VStr "#333");
      ("showHintAfterMisses", VNum (Fin 3));
      ("highlightOnComplete", VBool true);
      ("drawingFadeDuration", VNum (Fin 300));
      ("drawingWidth", VNum (Fin 4));
      ("strokeWidth", VNum (Fin 2));
      ("outlineWidth", VNum (Fin 2));
      ("usePolygonMasks", VBool (isMSBrowser E)) ].

(** [HanziWriter.prototype._fillWidthAndHeight] *)
Definition _fillWidthAndHeight (E : Env) (options : loc) (h : heap) : loc * heap :=
  let '(filledOpts, h) := assign_new [default ∅ (h !! options)] h in
  let w := get filledOpts "width" h in
  let ht := get filledOpts "height" h in
  if truthy w && negb (truthy ht) then
    (filledOpts, set filledOpts "height" w h)
  else if truthy ht && negb (truthy w) then
    (filledOpts, set filledOpts "width" ht h)
  else if negb (truthy w) && negb (truthy ht) then
    let minDim := VNum (Fin (Qmin (rect_width E) (rect_height E))) in
    let h := set filledOpts "width" minDim h in
    (filledOpts, set filledOpts "height" minDim h)
  else (filledOpts, h).

(** [HanziWriter.prototype._assignOptions] *)
Definition _assignOptions (E : Env) (options : loc) (h : heap) : loc * heap :=
  let o := default ∅ (h !! options) in
  let '(mergedOptions, h) := assign_new [defaultOptions E; o] h in
  let h :=
    if truthy (prop o "strokeAnimationDuration")
       && negb (truthy (prop o "strokeAnimationSpeed"))
    then set mergedOptions "strokeAnimationSpeed"
           (js_div E (VNum (Fin 500)) (get mergedOptions "strokeAnimationDuration" h)) h
    else h in
  let h :=
    if truthy (prop o "strokeHighlightDuration")
       && negb (truthy (prop o "strokeHighlightSpeed"))
    then set mergedOptions "strokeHighlightSpeed"
           (js_div E (VNum (Fin 500)) (get mergedOptions "strokeHighlightDuration" h)) h
    else h in
  _fillWidthAndHeight E mergedOptions h.

End Options.

(** ** The controller and its collaborators *)

Definition data := list string.     (* raw stroke path descriptions *)
Definition point := (Q * Q)%type.

(** [this._characterRenderer], [this._outlineRenderer] and their methods. *)
Inductive renderer_field := CharacterRenderer | OutlineRenderer.
Inductive render_method := RShow | RHide | RAnimate.

(** The quiz methods pointer input is forwarded to. *)
Inductive quiz_method := startUserStroke | continueUserStroke | endUserStroke.

(** The function handed to [_animateWithData]. *)
Inductive anim_func :=
| FRender (f : renderer_field) (m : render_method)  (* animation => this.f.m(animation) *)
| FLoop (options : obj).                            (* animateForever *)

(** The function handed to [_withData]. *)
Inductive action :=
| AQuiz (quizOptions : obj)                       (* the body of quiz() *)
| AAnimate (func : anim_func) (options : obj).    (* () => this._animate(func, options) *)

(** Promise reactions, one constructor per callback of the file. *)
Inductive microtask :=
| MLoaded (k : nat) (c : string) (r : option data)       (* the loading manager learns the answer *)
| MSetCharThen (k : nat) (c : string) (r : option data)  (* setCharacter's [then] callback *)
| MRetry (id : nat) (a : action)                         (* _withData, after a reload *)
| MRun (id : nat) (a : action)                           (* _withData, data promise fulfilled *)
| MLoopDelay (g : nat) (options : obj) (d : jsval)       (* () => timeout(delayBetweenLoops) *)
| MLoopNext (g : nat) (options : obj).                   (* () => animateForever(animation) *)

(** What the controller asks of its collaborators, as recorded in the trace:
    [quiz.cancel()], [new Quiz(...)], a forwarded quiz method,
    [evt.preventDefault()], [renderer.destroy()], a request for data, the
    host's error callback, the constructions and the mount and render of
    [setCharacter]'s callback, a renderer call with a generation, a timer. *)
Inductive event :=
| EQuizCancel (q : nat)
| EQuizNew (q : nat) (quizOptions : obj)
| EQuizCall (q : nat) (m : quiz_method) (arg : option point)
| EPreventDefault
| ERendererDestroy (r : nat)
| ELoadCharData (c : string) (k : nat)
| ELoadError (k : nat)
| EGenerateCharacter (c : string) (r : option data)
| ENewPositioner (k : nat)
| ENewRenderer (k : nat)
| ENewStateManager (k : nat)
| EMount (k : nat)
| ERender (k : nat)
| EInvoke (id : nat)                                     (* ghost: the action of call [id] runs *)
| EEffect (f : renderer_field) (m : render_method) (g : nat)
| ETimeout (g : nat) (d : jsval).

(** Modelled from the spec: [Animator] is not among the sources.  Section 4.2:
    every animation runs against a fresh generation, starting one cancels the
    stream's previous generation, and [cancel] invalidates the current one.
    Each generation is a token with a validity flag of its own; [anims] holds
    the flags of all tokens handed out, [lastAnimation] the latest token. *)
Record Animator := {
  anims : list bool;
  lastAnimation : option nat
}.

(** Modelled from the spec: [LoadingManager] is not among the sources.
    Sections 6 and 7(a): a request to the data provider may fail; the failure
    is kept in [loadingFailed] until a retry.  Requests are numbered; the
    latest, while it is not answered, is [outstanding]. *)
Record LoadingManager := {
  loadingFailed : bool;
  loadCounter : nat;
  outstanding : list (nat * string)
}.

(** The controller: the fields of [this], the objects it refers to (quizzes,
    the loading manager, the animator), the promise machinery, and the trace. *)
Record HW := {
  _quiz : option nat;   (* the live Quiz, or null *)
  _char : string;
  _animator : Animator;
  _hanziWriterRenderer : option nat;
  _character : option nat;
  _positioner : option nat;
  _stateManager : option nat;
  _options : obj;
  _withDataPromise : nat;
  _characterRenderer : option nat;   (* read, never assigned, by this file *)
  _outlineRenderer : option nat;   (* read, never assigned, by this file *)
  isLoadingCharData : bool;   (* read, never assigned, by this file *)
  _loadingManager : LoadingManager;
  quizzes : list bool;   (* every Quiz constructed so far: is it still active? *)
  fulfilled : list nat;   (* data promises already fulfilled *)
  waiters : list (nat * (nat * action));   (* reactions waiting on a data promise *)
  micro : list microtask;   (* the microtask queue *)
  awaiting : list microtask;   (* reactions waiting on a render or a timer *)
  nextCall : nat;   (* ghost: numbers the calls that go through _withData *)
  log : list event   (* the collaborator calls made so far, oldest first *)
}.

(** Field updates [s.f = v]. *)
Definition set__quiz (v : option nat) (s : HW) : HW :=
  {| _quiz := v; _char := _char s; _animator := _animator s; _hanziWriterRenderer :=
  _hanziWriterRenderer s; _character := _character s; _positioner := _positioner s;
  _stateManager := _stateManager s; _options := _options s; _withDataPromise :=
  _withDataPromise s; _characterRenderer := _characterRenderer s; _outlineRenderer :=
  _outlineRenderer s; isLoadingCharData := isLoadingCharData s; _loadingManager :=
  _loadingManager s; quizzes := quizzes s; fulfilled := fulfilled s; waiters := waiters s;
  micro := micro s; awaiting := awaiting s; nextCall := nextCall s; log := log s |}.
Definition set__char (v : string) (s : HW) : HW :=
  {| _quiz := _quiz s; _char := v; _animator := _animator s; _hanziWriterRenderer :=
  _hanziWriterRenderer s; _character := _character s; _positioner := _positioner s;
  _stateManager := _stateManager s; _options := _options s; _withDataPromise :=
  _withDataPromise s; _characterRenderer := _characterRenderer s; _outlineRenderer :=
  _outlineRenderer s; isLoadingCharData := isLoadingCharData s; _loadingManager :=
  _loadingManager s; quizzes := quizzes s; fulfilled := fulfilled s; waiters := waiters s;
  micro := micro s; awaiting := awaiting s; nextCall := nextCall s; log := log s |}.
Definition set__animator (v : Animator) (s : HW) : HW :=
  {| _quiz := _quiz s; _char := _char s; _animator := v; _hanziWriterRenderer :=
  _hanziWriterRenderer s; _character := _character s; _positioner := _positioner s;
  _stateManager := _stateManager s; _options := _options s; _withDataPromise :=
  _withDataPromise s; _characterRenderer := _characterRenderer s; _outlineRenderer :=
  _outlineRenderer s; isLoadingCharData := isLoadingCharData s; _loadingManager :=
  _loadingManager s; quizzes := quizzes s; fulfilled := fulfilled s; waiters := waiters s;
  micro := micro s; awaiting := awaiting s; nextCall := nextCall s; log := log s |}.
Definition set__hanziWriterRenderer (v : option nat) (s : HW) : HW :=
  {| _quiz := _quiz s; _char := _char s; _animator := _animator s; _hanziWriterRenderer := v;
  _character := _character s; _positioner := _positioner s; _stateManager := _stateManager s;
  _options := _options s; _withDataPromise := _withDataPromise s; _characterRenderer :=
  _characterRenderer s; _outlineRenderer := _outlineRenderer s; isLoadingCharData :=
  isLoadingCharData s; _loadingManager := _loadingManager s; quizzes := quizzes s; fulfilled
  := fulfilled s; waiters := waiters s; micro := micro s; awaiting := awaiting s; nextCall :=
  nextCall s; log := log s |}.
Definition set__character (v : option nat) (s : HW) : HW :=
  {| _quiz := _quiz s; _char := _char s; _animator := _animator s; _hanziWriterRenderer :=
  _hanziWriterRenderer s; _character := v; _positioner := _positioner s; _stateManager :=
  _stateManager s; _options := _options s; _withDataPromise := _withDataPromise s;
  _characterRenderer := _characterRenderer s; _outlineRenderer := _outlineRenderer s;
  isLoadingCharData := isLoadingCharData s; _loadingManager := _loadingManager s; quizzes :=
  quizzes s; fulfilled := fulfilled s; waiters := waiters s; micro := micro s; awaiting :=
  awaiting s; nextCall := nextCall s; log := log s |}.
Definition set__positioner (v : option nat) (s : HW) : HW :=
  {| _quiz := _quiz s; _char := _char s; _animator := _animator s; _hanziWriterRenderer :=
  _hanziWriterRenderer s; _character := _character s; _positioner := v; _stateManager :=
  _stateManager s; _options := _options s; _withDataPromise := _withDataPromise s;
  _characterRenderer := _characterRenderer s; _outlineRenderer := _outlineRenderer s;
  isLoadingCharData := isLoadingCharData s; _loadingManager := _loadingManager s; quizzes :=
  quizzes s; fulfilled := fulfilled s; waiters := waiters s; micro := micro s; awaiting :=
  awaiting s; nextCall := nextCall s; log := log s |}.
Definition set__stateManager (v : option nat) (s : HW) : HW :=
  {| _quiz := _quiz s; _char := _char s; _animator := _animator s; _hanziWriterRenderer :=
  _hanziWriterRenderer s; _character := _character s; _positioner := _positioner s;
  _stateManager := v; _options := _options s; _withDataPromise := _withDataPromise s;
  _characterRenderer := _characterRenderer s; _outlineRenderer := _outlineRenderer s;
  isLoadingCharData := isLoadingCharData s; _loadingManager := _loadingManager s; quizzes :=
  quizzes s; fulfilled := fulfilled s; waiters := waiters s; micro := micro s; awaiting :=
  awaiting s; nextCall := nextCall s; log := log s |}.
Definition set__withDataPromise (v : nat) (s : HW) : HW :=
  {| _quiz := _quiz s; _char := _char s; _animator := _animator s; _hanziWriterRenderer :=
  _hanziWriterRenderer s; _character := _character s; _positioner := _positioner s;
  _stateManager := _stateManager s; _options := _options s; _withDataPromise := v;
  _characterRenderer := _characterRenderer s; _outlineRenderer := _outlineRenderer s;
  isLoadingCharData := isLoadingCharData s; _loadingManager := _loadingManager s; quizzes :=
  quizzes s; fulfilled := fulfilled s; waiters := waiters s; micro := micro s; awaiting :=
  awaiting s; nextCall := nextCall s; log := log s |}.
Definition set__loadingManager (v : LoadingManager) (s : HW) : HW :=
  {| _quiz := _quiz s; _char := _char s; _animator := _animator s; _hanziWriterRenderer :=
  _hanziWriterRenderer s; _character := _character s; _positioner := _positioner s;
  _stateManager := _stateManager s; _options := _options s; _withDataPromise :=
  _withDataPromise s; _characterRenderer := _characterRenderer s; _outlineRenderer :=
  _outlineRenderer s; isLoadingCharData := isLoadingCharData s; _loadingManager := v; quizzes
  := quizzes s; fulfilled := fulfilled s; waiters := waiters s; micro := micro s; awaiting :=
  awaiting s; nextCall := nextCall s; log := log s |}.
Definition set_quizzes (v : list bool) (s : HW) : HW :=
  {| _quiz := _quiz s; _char := _char s; _animator := _animator s; _hanziWriterRenderer :=
  _hanziWriterRenderer s; _character := _character s; _positioner := _positioner s;
  _stateManager := _stateManager s; _options := _options s; _withDataPromise :=
  _withDataPromise s; _characterRenderer := _characterRenderer s; _outlineRenderer :=
  _outlineRenderer s; isLoadingCharData := isLoadingCharData s; _loadingManager :=
  _loadingManager s; quizzes := v; fulfilled := fulfilled s; waiters := waiters s; micro :=
  micro s; awaiting := awaiting s; nextCall := nextCall s; log := log s |}.
Definition set_fulfilled (v : list nat) (s : HW) : HW :=
  {| _quiz := _quiz s; _char := _char s; _animator := _animator s; _hanziWriterRenderer :=
  _hanziWriterRenderer s; _character := _character s; _positioner := _positioner s;
  _stateManager := _stateManager s; _options := _options s; _withDataPromise :=
  _withDataPromise s; _characterRenderer := _characterRenderer s; _outlineRenderer :=
  _outlineRenderer s; isLoadingCharData := isLoadingCharData s; _loadingManager :=
  _loadingManager s; quizzes := quizzes s; fulfilled := v; waiters := waiters s; micro :=
  micro s; awaiting := awaiting s; nextCall := nextCall s; log := log s |}.
Definition set_waiters (v : list (nat * (nat * action))) (s : HW) : HW :=
  {| _quiz := _quiz s; _char := _char s; _animator := _animator s; _hanziWriterRenderer :=
  _hanziWriterRenderer s; _character := _character s; _positioner := _positioner s;
  _stateManager := _stateManager s; _options := _options s; _withDataPromise :=
  _withDataPromise s; _characterRenderer := _characterRenderer s; _outlineRenderer :=
  _outlineRenderer s; isLoadingCharData := isLoadingCharData s; _loadingManager :=
  _loadingManager s; quizzes := quizzes s; fulfilled := fulfilled s; waiters := v; micro :=
  micro s; awaiting := awaiting s; nextCall := nextCall s; log := log s |}.
Definition set_micro (v : list microtask) (s : HW) : HW :=
  {| _quiz := _quiz s; _char := _char s; _animator := _animator s; _hanziWriterRenderer :=
  _hanziWriterRenderer s; _character := _character s; _positioner := _positioner s;
  _stateManager := _stateManager s; _options := _options s; _withDataPromise :=
  _withDataPromise s; _characterRenderer := _characterRenderer s; _outlineRenderer :=
  _outlineRenderer s; isLoadingCharData := isLoadingCharData s; _loadingManager :=
  _loadingManager s; quizzes := quizzes s; fulfilled := fulfilled s; waiters := waiters s;
  micro := v; awaiting := awaiting s; nextCall := nextCall s; log := log s |}.
Definition set_awaiting (v : list microtask) (s : HW) : HW :=
  {| _quiz := _quiz s; _char := _char s; _animator := _animator s; _hanziWriterRenderer :=
  _hanziWriterRenderer s; _character := _character s; _positioner := _positioner s;
  _stateManager := _stateManager s; _options := _options s; _withDataPromise :=
  _withDataPromise s; _characterRenderer := _characterRenderer s; _outlineRenderer :=
  _outlineRenderer s; isLoadingCharData := isLoadingCharData s; _loadingManager :=
  _loadingManager s; quizzes := quizzes s; fulfilled := fulfilled s; waiters := waiters s;
  micro := micro s; awaiting := v; nextCall := nextCall s; log := log s |}.
Definition set_nextCall (v : nat) (s : HW) : HW :=
  {| _quiz := _quiz s; _char := _char s; _animator := _animator s; _hanziWriterRenderer :=
  _hanziWriterRenderer s; _character := _character s; _positioner := _positioner s;
  _stateManager := _stateManager s; _options := _options s; _withDataPromise :=
  _withDataPromise s; _characterRenderer := _characterRenderer s; _outlineRenderer :=
  _outlineRenderer s; isLoadingCharData := isLoadingCharData s; _loadingManager :=
  _loadingManager s; quizzes := quizzes s; fulfilled := fulfilled s; waiters := waiters s;
  micro := micro s; awaiting := awaiting s; nextCall := v; log := log s |}.
Definition set_log (v : list event) (s : HW) : HW :=
  {| _quiz := _quiz s; _char := _char s; _animator := _animator s; _hanziWriterRenderer :=
  _hanziWriterRenderer s; _character := _character s; _positioner := _positioner s;
  _stateManager := _stateManager s; _options := _options s; _withDataPromise :=
  _withDataPromise s; _characterRenderer := _characterRenderer s; _outlineRenderer :=
  _outlineRenderer s; isLoadingCharData := isLoadingCharData s; _loadingManager :=
  _loadingManager s; quizzes := quizzes s; fulfilled := fulfilled s; waiters := waiters s;
  micro := micro s; awaiting := awaiting s; nextCall := nextCall s; log := v |}.

Definition set_loadingFailed (b : bool) (L : LoadingManager) : LoadingManager :=
  {| loadingFailed := b; loadCounter := loadCounter L; outstanding := outstanding L |}.

(** A call to a collaborator, recorded. *)
Definition emit (e : event) (s : HW) : HW := set_log (log s ++ [e]) s.

(** A reaction whose promise is already settled runs in a later microtask. *)
Definition enqueue (m : microtask) (s : HW) : HW := set_micro (micro s ++ [m]) s.

(** A reaction on a promise the environment will settle (a render, a timer). *)
Definition await (m : microtask) (s : HW) : HW := set_awaiting (awaiting s ++ [m]) s.

(** *** Animator *)

(** Modelled from the spec: [animation.isActive()], the validity of a
    generation token. *)
Definition Animation_isActive (g : nat) (A : Animator) : bool :=
  default false (anims A !! g).

(** Modelled from the spec: [Animator.cancel] invalidates the current
    generation. *)
Definition Animator_cancel (A : Animator) : Animator :=
  match lastAnimation A with
  | Some g => {| anims := <[g := false]> (anims A); lastAnimation := lastAnimation A |}
  | None => A
  end.

(** Modelled from the spec: the fresh generation of [Animator.animate]; the
    previous one is cancelled first. *)
Definition Animator_setup (A : Animator) : nat * Animator :=
  let A' := Animator_cancel A in
  let g := length (anims A') in
  (g, {| anims := anims A' ++ [true]; lastAnimation := Some g |}).

(** *** Quiz *)

(** Modelled from the spec: [Quiz] is not among the sources.  Section 4.3,
    [cancel()]: the quiz becomes inert and the current generation of its
    animation stream (the animator it was constructed with, the controller's)
    is invalidated.  The trace in progress is internal to the quiz. *)
Definition Quiz_cancel (q : nat) (s : HW) : HW :=
  let s := emit (EQuizCancel q) s in
  let s := set_quizzes (<[q := false]> (quizzes s)) s in
  set__animator (Animator_cancel (_animator s)) s.

(** [HanziWriter.prototype.cancelQuiz] *)
Definition cancelQuiz (s : HW) : HW :=
  let s := match _quiz s with Some q => Quiz_cancel q s | None => s end in
  set__quiz None s.

Section Controller.
Variable E : Env.

(** *** Loading *)

(** Modelled from the spec: [LoadingManager.loadCharData].  A new request
    clears the failure of the previous one ("until retried"); the provider
    either refuses at once, which the promise reports in a microtask, or owes
    an answer.  Of the answer to a request that a later one has superseded
    the specification says nothing, and the model has none: the manager
    hears the answer to its latest request only. *)
Definition loadCharData (c : string) (s : HW) : nat * HW :=
  let L := _loadingManager s in
  let k := loadCounter L in
  let s := emit (ELoadCharData c k) s in
  if sync_fail E k then
    (k, enqueue (MLoaded k c None)
          (set__loadingManager
             {| loadingFailed := false; loadCounter := S k; outstanding := [] |} s))
  else
    (k, set__loadingManager
          {| loadingFailed := false; loadCounter := S k; outstanding := [(k, c)] |} s).

(** Modelled from the spec: the loading manager's own reaction to the
    provider's answer.  A failure sets [loadingFailed] and tells the host
    (section 7(a)); the promise of [loadCharData] is fulfilled either way. *)
Definition loaded (k : nat) (c : string) (r : option data) (s : HW) : HW :=
  let s := match r with
           | Some _ => s
           | None => emit (ELoadError k)
                       (set__loadingManager (set_loadingFailed true (_loadingManager s)) s)
           end in
  enqueue (MSetCharThen k c r) s.

(** [HanziWriter.prototype.setCharacter], up to the promise it stores. *)
Definition setCharacter (char : string) (s : HW) : HW :=
  let s := cancelQuiz s in
  let s := set__char char s in
  let s := set__animator (Animator_cancel (_animator s)) s in
  let s := match _hanziWriterRenderer s with
           | Some r => emit (ERendererDestroy r) s
           | None => s
           end in
  let s := set__hanziWriterRenderer None s in
  let '(k, s) := loadCharData char s in
  set__withDataPromise k s.

(** The [then] callback of [setCharacter] (lines 130-140). *)
Definition setCharacter_then (k : nat) (char : string) (pathStrings : option data)
    (s : HW) : HW :=
  if loadingFailed (_loadingManager s) then s
  else
    let s := emit (EGenerateCharacter char pathStrings) (set__character (Some k) s) in
    let s := emit (ENewPositioner k) (set__positioner (Some k) s) in
    let s := emit (ENewRenderer k) (set__hanziWriterRenderer (Some k) s) in
    let s := emit (ENewStateManager k) (set__stateManager (Some k) s) in
    let s := emit (EMount k) s in
    emit (ERender k) s.

(** Data promise [p] is fulfilled: its reactions become microtasks. *)
Definition fulfil (p : nat) (s : HW) : HW :=
  let ready := filter (λ w, w.1 = p) (waiters s) in
  let rest := filter (λ w, w.1 ≠ p) (waiters s) in
  set_micro (micro s ++ ((λ w, MRun w.2.1 w.2.2) <$> ready))
    (set_waiters rest (set_fulfilled (p :: fulfilled s) s)).

(** [this._withDataPromise.then(...)] of line 188. *)
Definition then_withData (id : nat) (a : action) (s : HW) : HW :=
  let p := _withDataPromise s in
  if bool_decide (p ∈ fulfilled s) then enqueue (MRun id a) s
  else set_waiters (waiters s ++ [(p, (id, a))]) s.

(** [HanziWriter.prototype._withData] *)
Definition _withData (id : nat) (func : action) (s : HW) : HW :=
  if loadingFailed (_loadingManager s) then
    let s := setCharacter (_char s) s in
    enqueue (MRetry id func) s
  else then_withData id func s.

(** *** Animations *)

Definition renderer_of (f : renderer_field) (s : HW) : option nat :=
  match f with
  | CharacterRenderer => _characterRenderer s
  | OutlineRenderer => _outlineRenderer s
  end.

(** [this.f.m(animation)]; reading [m] off an unset field throws. *)
Definition call_renderer (f : renderer_field) (m : render_method) (g : nat) (s : HW) : HW :=
  match renderer_of f s with
  | Some _ => emit (EEffect f m g) s
  | None => s
  end.

Inductive loop_result := LNull | LPromise | LThrow.

(** [animateForever] of [loopCharacterAnimation] (lines 82-91). *)
Definition animateForever (options : obj) (animation : nat) (s : HW) : loop_result * HW :=
  if negb (Animation_isActive animation (_animator s)) then (LNull, s)
  else
    let cascadedOpts := Options.assign_obj ∅ [_options s; options] in
    let delayBetweenLoops := prop cascadedOpts "delayBetweenLoops" in
    match _characterRenderer s with
    | None => (LThrow, s)
    | Some _ =>
        let s' := emit (EEffect CharacterRenderer RAnimate animation) s in
        if render_promise E (length (log s))
        then (LPromise, await (MLoopDelay animation options delayBetweenLoops) s')
        else (LNull, s')
    end.

(** Modelled from the spec: [Animator.animate] runs the effect function at
    once against a fresh generation. *)
Definition Animator_animate (func : anim_func) (options : obj) (s : HW) : HW :=
  let '(g, A) := Animator_setup (_animator s) in
  let s := set__animator A s in
  match func with
  | FRender f m => call_renderer f m g s
  | FLoop o => (animateForever o g s).2
  end.

(** [HanziWriter.prototype._animate] *)
Definition _animate (func : anim_func) (options : obj) (s : HW) : HW :=
  Animator_animate func options s.

(** The body of [quiz()] (lines 106-115). *)
Definition quiz_action (quizOptions : obj) (s : HW) : HW :=
  let s := cancelQuiz s in
  let q := length (quizzes s) in
  let s := emit (EQuizNew q (Options.assign_obj ∅ [_options s; quizOptions]))
             (set_quizzes (quizzes s ++ [true]) s) in
  set__quiz (Some q) s.

Definition run_action (a : action) (s : HW) : HW :=
  match a with
  | AQuiz o => quiz_action o s
  | AAnimate func o => _animate func o s
  end.

(** One promise reaction. *)
Definition run_micro (m : microtask) (s : HW) : HW :=
  match m with
  | MLoaded k c r => loaded k c r s
  | MSetCharThen k c r => fulfil k (setCharacter_then k c r s)
  | MRetry id a =>
      if negb (loadingFailed (_loadingManager s)) then _withData id a s else s
  | MRun id a =>
      if negb (loadingFailed (_loadingManager s))
      then run_action a (emit (EInvoke id) s) else s
  | MLoopDelay g o d => await (MLoopNext g o) (emit (ETimeout g d) s)
  | MLoopNext g o => (animateForever o g s).2
  end.

(** *** Public API *)

Definition call_withData (a : action) (s : HW) : HW :=
  _withData (nextCall s) a (set_nextCall (S (nextCall s)) s).

(** [HanziWriter.prototype._animateWithData] *)
Definition _animateWithData (func : anim_func) (options : obj) (s : HW) : HW :=
  call_withData (AAnimate func options) s.

Definition showCharacter (options : obj) := _animateWithData (FRender CharacterRenderer RShow) options.
Definition hideCharacter (options : obj) := _animateWithData (FRender CharacterRenderer RHide) options.
Definition animateCharacter (options : obj) (s : HW) : HW :=
  _animateWithData (FRender CharacterRenderer RAnimate) options (cancelQuiz s).
Definition loopCharacterAnimation (options : obj) (s : HW) : HW :=
  _animateWithData (FLoop options) options (cancelQuiz s).
Definition showOutline (options : obj) := _animateWithData (FRender OutlineRenderer RShow) options.
Definition hideOutline (options : obj) := _animateWithData (FRender OutlineRenderer RHide) options.
Definition quiz (quizOptions : obj) (s : HW) : HW := call_withData (AQuiz quizOptions) s.

(** *** Pointer input *)

Inductive outcome := Returned | Threw.

(** [HanziWriter.prototype._forwardToQuiz] *)
Definition _forwardToQuiz (method : quiz_method) (arg : option point) (s : HW)
    : outcome * HW :=
  match _quiz s with
  | None => (Returned, s)
  | Some q => (Returned, emit (EQuizCall q method arg) s)
  end.

(** [_getMousePoint]: throws when there is no positioner yet. *)
Definition _getMousePoint (client : point) (s : HW) : option point :=
  match _positioner s with
  | None => None
  | Some _ => Some (client.1 - rect_left E, client.2 - rect_top E)%Q
  end.

(** [_getTouchPoint]: throws on an empty touch list, or without positioner. *)
Definition _getTouchPoint (touches : list point) (s : HW) : option point :=
  match touches with
  | [] => None
  | t :: _ =>
      match _positioner s with
      | None => None
      | Some _ => Some (t.1 - rect_left E, t.2 - rect_top E)%Q
      end
  end.

Inductive dom_event :=
| mousedown (client : point)
| touchstart (touches : list point)
| mousemove (client : point)
| touchmove (touches : list point)
| mouseup
| touchend.

(** The four listeners on the canvas share this shape (lines 196-215). *)
Definition canvas_listener (method : quiz_method) (getPoint : HW -> option point)
    (s : HW) : outcome * HW :=
  if isLoadingCharData s || negb (bool_decide (is_Some (_quiz s))) then (Returned, s)
  else
    let s := emit EPreventDefault s in
    match getPoint s with
    | None => (Threw, s)
    | Some p => _forwardToQuiz method (Some p) s
    end.

(** The listeners installed by [_setupListeners]. *)
Definition dispatch (ev : dom_event) (s : HW) : outcome * HW :=
  match ev with
  | mousedown c => canvas_listener startUserStroke (_getMousePoint c) s
  | touchstart ts => canvas_listener startUserStroke (_getTouchPoint ts) s
  | mousemove c => canvas_listener continueUserStroke (_getMousePoint c) s
  | touchmove ts => canvas_listener continueUserStroke (_getTouchPoint ts) s
  | mouseup => _forwardToQuiz endUserStroke None s
  | touchend => _forwardToQuiz endUserStroke None s
  end.

(** *** The constructor *)

(** [this._options = this._assignOptions(options)] *)
Definition prepared_options (options : obj) : obj :=
  let '(l, h) := Options._assignOptions E 1%positive {[ 1%positive := options ]} in
  default ∅ (h !! l).

Definition HanziWriter (character : string) (options : obj) : HW :=
  let s := {| _quiz := None; _char := ""; _animator := {| anims := []; lastAnimation := None |};
              _hanziWriterRenderer := None; _character := None; _positioner := None;
              _stateManager := None; _options := prepared_options options;
              _withDataPromise := 0;
              _characterRenderer := None; _outlineRenderer := None;
              isLoadingCharData := false;
              _loadingManager := {| loadingFailed := false; loadCounter := 0;
                                    outstanding := [] |};
              quizzes := []; fulfilled := []; waiters := []; micro := []; awaiting := [];
              nextCall := 0; log := [] |} in
  let s := setCharacter character s in
  set__quiz None s.

(** *** The event loop *)

(** The calls the host can make. *)
Inductive call :=
| ShowCharacter (o : obj)
| HideCharacter (o : obj)
| AnimateCharacter (o : obj)
| LoopCharacterAnimation (o : obj)
| ShowOutline (o : obj)
| HideOutline (o : obj)
| StartQuiz (o : obj)
| CancelQuiz
| SetCharacter (c : string).

(** The synchronous part of a call. *)
Definition do_call (c : call) (s : HW) : HW :=
  match c with
  | ShowCharacter o => showCharacter o s
  | HideCharacter o => hideCharacter o s
  | AnimateCharacter o => animateCharacter o s
  | LoopCharacterAnimation o => loopCharacterAnimation o s
  | ShowOutline o => showOutline o s
  | HideOutline o => hideOutline o s
  | StartQuiz o => quiz o s
  | CancelQuiz => cancelQuiz s
  | SetCharacter c => setCharacter c s
  end.

(** What can happen next.  [LTick] runs the oldest reaction in the queue.
    Everything else comes from outside and may come at any time between two
    reactions: calls of the host (made as a task, from a reaction of the
    host's own on a promise the controller returned, or from the error
    callback), DOM events, the provider's answer, the end of a render or of a
    timer. *)
Inductive label :=
| LHost (cs : list call)
| LEvent (ev : dom_event)
| LSettle (k : nat) (r : option data)
| LDone (i : nat)
| LTick.

(** The provider answers request [k], with data or with a failure. *)
Definition settle (k : nat) (r : option data) (s : HW) : option HW :=
  let L := _loadingManager s in
  match list_find (λ x, x.1 = k) (outstanding L) with
  | Some (i, (_, c)) =>
      Some (enqueue (MLoaded k c r)
              (set__loadingManager
                 {| loadingFailed := loadingFailed L; loadCounter := loadCounter L;
                    outstanding := delete i (outstanding L) |} s))
  | None => None
  end.

(** The [i]-th awaited render or timer is finished. *)
Definition complete (i : nat) (s : HW) : option HW :=
  match awaiting s !! i with
  | Some m => Some (enqueue m (set_awaiting (delete i (awaiting s)) s))
  | None => None
  end.

(** One step; [None] when the label cannot happen in [s]. *)
Definition step (l : label) (s : HW) : option HW :=
  match l with
  | LTick =>
      match micro s with
      | m :: rest => Some (run_micro m (set_micro rest s))
      | [] => None
      end
  | LHost cs => Some (foldl (λ s c, do_call c s) s cs)
  | LEvent ev => Some (dispatch ev s).2
  | LSettle k r => settle k r s
  | LDone i => complete i s
  end.

(** An execution. *)
Fixpoint exec (ls : list label) (s : HW) : option HW :=
  match ls with
  | [] => Some s
  | l :: ls => match step l s with Some s' => exec ls s' | None => None end
  end.

(** A step of an execution in which the host calls the controller as a task
    only: a call is made when no reaction is left in the queue, never from
    inside a reaction or between two of them. *)
Definition task_step (l : label) (s : HW) : option HW :=
  match l, micro s with
  | LHost _, _ :: _ => None
  | _, _ => step l s
  end.

(** Such an execution. *)
Fixpoint task_exec (ls : list label) (s : HW) : option HW :=
  match ls with
  | [] => Some s
  | l :: ls => match task_step l s with Some s' => task_exec ls s' | None => None end
  end.

End Controller.

(** ** Setting up the module *)

(** The global object as the file's last lines see it: [global.window] and
    [module], each an object or undefined. *)
Record Global := {
  window : option obj;
  module : option obj
}.

(** The constructor, as a value. *)
Definition HanziWriter_fun : jsval := VFun "HanziWriter".

(** The top-level code of lines 247-264: what it leaves in the global
    object, and the [previousHanziWriter] that [noConflict] closes over.
    Without a window nothing is stored and no [noConflict] is defined. *)
Definition load_module (g : Global) : Global * option jsval :=
  let w' := match window g with
            | Some w => Some (<["HanziWriter" := HanziWriter_fun]> w)
            | None => None
            end in
  let previousHanziWriter :=
    match window g with
    | Some w => Some (prop w "HanziWriter")
    | None => None
    end in
  let m' := match module g with
            | Some m => Some (<["exports" := HanziWriter_fun]> m)
            | None => None
            end in
  ({| window := w'; module := m' |}, previousHanziWriter).

(** [HanziWriter.noConflict]; without [global.window] the assignment
    throws. *)
Definition noConflict (previousHanziWriter : jsval) (g : Global) : option (Global * jsval) :=
  match window g with
  | Some w =>
      Some ({| window := Some (<["HanziWriter" := previousHanziWriter]> w);
               module := module g |}, HanziWriter_fun)
  | None => None
  end.

(** * Properties *)

Open Scope list_scope.
Open Scope nat_scope.

(** ** Option preparation *)

(** The speed in the merged object of [_assignOptions]. *)
Definition merged_speed (E : Env) (o : obj) (dur speed : string) : jsval :=
  if truthy (prop o dur) && negb (truthy (prop o speed))
  then js_div E (VNum (Fin 500)) (prop o dur)
  else prop (o ∪ Options.defaultOptions E) speed.

(** ** Sample inputs *)

(** A browser and a provider that answer.  The quotients taken below are
    doubles themselves (500 / 250 is 2), so its division does not round. *)
Definition demo_env : Env :=
  {| rect_width := 300; rect_height := 200; rect_left := 10; rect_top := 20;
     isMSBrowser := false; str_to_num := λ _, NaN; quotient := λ x y, Some (x / y)%Q;
     sync_fail := λ _, false; render_promise := λ _, true |}.

(** A heap holding one options object, at location 1. *)
Definition demo_heap (o : obj) : heap := {[ 1%positive := o ]}.

(** ** Generations *)

(** At most one generation is valid, and it is the animator's latest. *)
Definition animator_ok (A : Animator) : Prop :=
  ∀ g, Animation_isActive g A = true → lastAnimation A = Some g.

(** How a piece of code may change the animator. *)
Inductive Animator_moves : Animator → Animator → Prop :=
| moves_refl A : Animator_moves A A
| moves_cancel A B : Animator_moves A B → Animator_moves A (Animator_cancel B)
| moves_setup A B : Animator_moves A B → Animator_moves A (Animator_setup B).2.

(** Whether an execution can happen. *)
Definition runs (x : option HW) : bool :=
  match x with Some _ => true | None => false end.

(** Generation [g] has been handed out and is no longer valid. *)
Definition dead (g : nat) (A : Animator) : Prop :=
  g < length (anims A) ∧ Animation_isActive g A = false.

(** From [s] to [s'] the log only grew, by events satisfying [P]. *)
Definition log_grows (P : event → Prop) (s s' : HW) : Prop :=
  ∃ evs, log s' = log s ++ evs ∧ Forall P evs.

(** An event that is no renderer call with generation [g]. *)
Definition not_effect_of (g : nat) (e : event) : Prop :=
  ∀ f m, e ≠ EEffect f m g.

(** A dead generation stays dead and shows nothing. *)
Definition silent (g : nat) (s s' : HW) : Prop :=
  dead g (_animator s) → dead g (_animator s') ∧ log_grows (not_effect_of g) s s'.

(** ** The quiz reference *)

(** Is quiz [q] still active? *)
Definition quiz_active (q : nat) (s : HW) : bool := default false (quizzes s !! q).

(** Every quiz that is still active is the one the controller holds. *)
Definition quiz_ok (s : HW) : Prop :=
  ∀ q, quiz_active q s = true → _quiz s = Some q.

(** How a piece of code may change the quizzes and the reference to them. *)
Inductive Quiz_moves : list bool * option nat → list bool * option nat → Prop :=
| qmoves_refl x : Quiz_moves x x
| qmoves_cancel x qs q : Quiz_moves x (qs, Some q) → Quiz_moves x (<[q := false]> qs, None)
| qmoves_new x qs : Quiz_moves x (qs, None) → Quiz_moves x (qs ++ [true], Some (length qs)).

(** The quizzes and the reference the controller holds. *)
Definition quiz_view (s : HW) : list bool * option nat := (quizzes s, _quiz s).

(** [quiz_ok], on that pair. *)
Definition quiz_view_ok (x : list bool * option nat) : Prop :=
  ∀ q, default false (x.1 !! q) = true → x.2 = Some q.

(** A view as the constructor leaves it, with the two renderer fields, which
    this file never assigns, filled in. *)
Definition demo_view : HW :=
  {| _quiz := None; _char := "A"; _animator := {| anims := []; lastAnimation := None |};
     _hanziWriterRenderer := None; _character := None; _positioner := None;
     _stateManager := None; _options := ∅; _withDataPromise := 0;
     _characterRenderer := Some 0; _outlineRenderer := Some 1;
     isLoadingCharData := false;
     _loadingManager := {| loadingFailed := false; loadCounter := 1;
                           outstanding := [(0, "A")] |};
     quizzes := []; fulfilled := []; waiters := []; micro := []; awaiting := [];
     nextCall := 0; log := [ELoadCharData "A" 0] |}.

(** A view in full swing: the data of "A" has arrived and is rendered, quiz
    0 is held, and generation 0 of the animator is valid. *)
Definition busy_view : HW :=
  {| _quiz := Some 0; _char := "A"; _animator := {| anims := [true]; lastAnimation := Some 0 |};
     _hanziWriterRenderer := Some 0; _character := Some 0; _positioner := Some 0;
     _stateManager := Some 0; _options := ∅; _withDataPromise := 0;
     _characterRenderer := Some 0; _outlineRenderer := Some 1;
     isLoadingCharData := false;
     _loadingManager := {| loadingFailed := false; loadCounter := 1; outstanding := [] |};
     quizzes := [true]; fulfilled := [0]; waiters := []; micro := []; awaiting := [];
     nextCall := 2;
     log := [ELoadCharData "A" 0; EGenerateCharacter "A" (Some ["M 0 0 L 10 10"]);
             ENewPositioner 0; ENewRenderer 0; ENewStateManager 0; EMount 0; ERender 0;
             EInvoke 0; EQuizNew 0 ∅; EInvoke 1; EEffect OutlineRenderer RShow 0] |}.

(** The data of "A" arrives and is rendered; the host calls [quiz()] and
    then [setCharacter("B")] in one task, so the quiz starts in the next
    reaction, on the new request; then the request for "B", the latest one,
    fails. *)
Definition quiz_demo_trace : list label :=
  [ LSettle 0 (Some ["M 0 0 L 10 10"]); LTick; LTick;
    LHost [StartQuiz ∅; SetCharacter "B"]; LTick;
    LSettle 1 None; LTick; LTick ].

(** [busy_view] after its request has failed. *)
Definition failed_busy_view : HW :=
  set__loadingManager {| loadingFailed := true; loadCounter := 1; outstanding := [] |}
    busy_view.

(** ** The perpetual loop *)

(** The generation whose loop a reaction continues. *)
Definition loop_gen (m : microtask) : option nat :=
  match m with
  | MLoopDelay g _ _ | MLoopNext g _ => Some g
  | _ => None
  end.

(** How many reactions in [ms] continue the loop of generation [g]. *)
Definition loop_count (g : nat) (ms : list microtask) : nat :=
  length (filter (λ m, loop_gen m = Some g) ms).

(** The reactions of the loop of generation [g], queued or waiting. *)
Definition pending_loop (g : nat) (s : HW) : nat :=
  loop_count g (micro s) + loop_count g (awaiting s).

(** What an iteration of the loop of generation [g] shows: a render, a delay. *)
Definition loop_event (g : nat) (e : event) : Prop :=
  e = EEffect CharacterRenderer RAnimate g ∨ ∃ d, e = ETimeout g d.

(** Any other event. *)
Definition not_loop_event (g : nat) (e : event) : Prop := ¬ loop_event g e.

(** The loop of generation [g] is over: no reaction of it is left. *)
Definition stopped (g : nat) (s : HW) : Prop :=
  g < length (anims (_animator s)) ∧ pending_loop g s = 0.

(** Each loop has at most one reaction, and only generations handed out have one. *)
Definition loops_ok (s : HW) : Prop :=
  ∀ g, pending_loop g s ≤ 1 ∧ (0 < pending_loop g s → g < length (anims (_animator s))).

(** A stopped loop stays stopped and shows nothing. *)
Definition loop_quiet (g : nat) (s s' : HW) : Prop :=
  stopped g s → stopped g s' ∧ log_grows (not_loop_event g) s s'.

(** ** The delay after a cancelled render *)

(** Whether a reaction is the delay callback of the loop of generation [g]. *)
Definition delay_of (g : nat) (m : microtask) : nat :=
  match m with
  | MLoopDelay g' _ _ => if decide (g' = g) then 1 else 0
  | _ => 0
  end.

(** The delay callbacks of the loop of generation [g], queued or waiting for
    their render. *)
Definition pending_delay (g : nat) (s : HW) : nat :=
  sum_list_with (delay_of g) (micro s) + sum_list_with (delay_of g) (awaiting s).

(** Whether an event is a timer started by the loop of generation [g]. *)
Definition timeout_of (g : nat) (e : event) : nat :=
  match e with
  | ETimeout g' _ => if decide (g' = g) then 1 else 0
  | _ => 0
  end.

(** The timers the loop of generation [g] starts in [evs]. *)
Definition timeouts (g : nat) (evs : list event) : nat := sum_list_with (timeout_of g) evs.

(** The loop of a dead generation fades: it gets no new reaction, and starts
    a timer only for a delay callback that was already waiting. *)
Definition loop_fades (g : nat) (s s' : HW) : Prop :=
  dead g (_animator s) →
  dead g (_animator s')
  ∧ pending_loop g s' ≤ pending_loop g s
  ∧ ∃ evs, log s' = log s ++ evs
           ∧ timeouts g evs + pending_delay g s' ≤ pending_delay g s.

(** A view whose loop of generation 0 was cancelled while its render was
    under way: the delay callback still waits for the render. *)
Definition cancelled_render_view : HW :=
  {| _quiz := None; _char := "A"; _animator := {| anims := [false]; lastAnimation := Some 0 |};
     _hanziWriterRenderer := Some 0; _character := Some 0; _positioner := Some 0;
     _stateManager := Some 0; _options := ∅; _withDataPromise := 0;
     _characterRenderer := Some 0; _outlineRenderer := Some 1;
     isLoadingCharData := false;
     _loadingManager := {| loadingFailed := false; loadCounter := 1; outstanding := [] |};
     quizzes := []; fulfilled := [0]; waiters := []; micro := [];
     awaiting := [MLoopDelay 0 ∅ VUndef]; nextCall := 1;
     log := [EEffect CharacterRenderer RAnimate 0] |}.

(** A view whose loop of generation 0 was cancelled while its timer ran; the
    timer has fired and the continuation is next in the queue. *)
Definition cancelled_loop_view : HW :=
  {| _quiz := None; _char := "A"; _animator := {| anims := [false]; lastAnimation := Some 0 |};
     _hanziWriterRenderer := Some 0; _character := Some 0; _positioner := Some 0;
     _stateManager := Some 0; _options := ∅; _withDataPromise := 0;
     _characterRenderer := Some 0; _outlineRenderer := Some 1;
     isLoadingCharData := false;
     _loadingManager := {| loadingFailed := false; loadCounter := 1; outstanding := [] |};
     quizzes := []; fulfilled := [0]; waiters := []; micro := [MLoopNext 0 ∅];
     awaiting := []; nextCall := 1; log := [] |}.

(** ** Failed loads *)

(** [this._loadingManager.loadingFailed] *)
Definition failed (s : HW) : bool := loadingFailed (_loadingManager s).

(** The number of requests made so far; the next request gets this id. *)
Definition requests (s : HW) : nat := loadCounter (_loadingManager s).

(** Only reactions of loops wait for renders and timers. *)
Definition awaiting_ok (s : HW) : Prop :=
  ∀ m, m ∈ awaiting s → is_Some (loop_gen m).

(** When the [then] callback of a failed request is queued, the failure is on
    record. *)
Definition failure_on_record (s : HW) : Prop :=
  (∀ k c, MSetCharThen k c None ∈ micro s → failed s = true) ∧ awaiting_ok s.

(** Between the calls of one host task no [then] callback is queued. *)
Definition no_then_queued (s : HW) : Prop :=
  (∀ k c r, MSetCharThen k c r ∉ micro s) ∧ awaiting_ok s.

(** ** An action requested while loading had failed *)

(** Call [a] went through [_withData] while loading had failed, and the
    reload it started is request [k0].  What is kept true from then on, as
    long as no request from [k0] on has been answered with data. *)
Definition guard_core (a k0 : nat) (s : HW) : Prop :=
  a < nextCall s
  ∧ k0 ≤ _withDataPromise s ∧ _withDataPromise s < requests s
  ∧ (∀ p, p ∈ fulfilled s → p < requests s)
  ∧ (∀ x, x ∈ outstanding (_loadingManager s) → x.1 < requests s)
  ∧ (∀ p act, (p, (a, act)) ∈ waiters s → k0 ≤ p)
  ∧ (_withDataPromise s ∈ fulfilled s → failed s = true)
  ∧ awaiting_ok s.

(** While reactions run. *)
Definition call_guard (a k0 : nat) (s : HW) : Prop :=
  guard_core a k0 s
  ∧ (∀ k c r, MLoaded k c r ∈ micro s → k < requests s ∧ (k0 ≤ k → r = None))
  ∧ (∀ k c r, MSetCharThen k c r ∈ micro s →
       k < requests s ∧ (k0 ≤ k → r = None) ∧ (r = None → failed s = true))
  ∧ (∀ act, MRun a act ∈ micro s → failed s = true).

(** Between the calls of one host task. *)
Definition host_guard (a k0 : nat) (s : HW) : Prop :=
  guard_core a k0 s
  ∧ (∀ k c r, MLoaded k c r ∈ micro s → k < requests s ∧ r = None)
  ∧ (∀ k c r, MSetCharThen k c r ∉ micro s)
  ∧ (∀ act, MRun a act ∉ micro s).

(** What the state must satisfy when the call is made: ids are fresh. *)
Definition ids_fresh (s : HW) : Prop :=
  (∀ p, p ∈ fulfilled s → p < requests s)
  ∧ (∀ x, x ∈ outstanding (_loadingManager s) → x.1 < requests s)
  ∧ (∀ p id act, (p, (id, act)) ∈ waiters s → id < nextCall s)
  ∧ awaiting_ok s.

(** Any event but the invocation of the action of call [a]. *)
Definition not_invoke (a : nat) (e : event) : Prop := e ≠ EInvoke a.

(** The calls that go through [_withData]. *)
Definition with_data_call (c : call) : Prop :=
  match c with
  | CancelQuiz | SetCharacter _ => False
  | _ => True
  end.

(** No request from [k0] on is answered with data in [ls]. *)
Definition no_reload_succeeds (k0 : nat) (ls : list label) : Prop :=
  ∀ k d, LSettle k (Some d) ∈ ls → k < k0.

(** The part of the state the guard speaks of. *)
Definition guard_view (s : HW) :=
  (nextCall s, _withDataPromise s, _loadingManager s, fulfilled s, waiters s, micro s,
   awaiting s).

(** A view whose only request has failed. *)
Definition failed_view : HW :=
  {| _quiz := None; _char := "A"; _animator := {| anims := []; lastAnimation := None |};
     _hanziWriterRenderer := None; _character := None; _positioner := None;
     _stateManager := None; _options := ∅; _withDataPromise := 0;
     _characterRenderer := Some 0; _outlineRenderer := Some 1;
     isLoadingCharData := false;
     _loadingManager := {| loadingFailed := true; loadCounter := 1; outstanding := [] |};
     quizzes := []; fulfilled := [0]; waiters := []; micro := []; awaiting := [];
     nextCall := 0; log := [ELoadCharData "A" 0; ELoadError 0] |}.

(** [showCharacter()] on it, the retry, and a reload that fails again. *)
Definition failed_demo_trace : list label :=
  [ LHost [ShowCharacter ∅]; LTick; LSettle 1 None; LTick; LTick; LTick ].

(** The same with a reload that succeeds. *)
Definition reload_demo_trace : list label :=
  [ LHost [ShowCharacter ∅]; LTick; LSettle 1 (Some ["M 0 0 L 10 10"]); LTick; LTick; LTick ].

(** The ids in the queue are fresh too. *)
Definition ids_fresh_all (s : HW) : Prop :=
  ids_fresh s
  ∧ (∀ id act, MRetry id act ∈ micro s → id < nextCall s)
  ∧ (∀ id act, MRun id act ∈ micro s → id < nextCall s)
  ∧ (∀ k c r, MLoaded k c r ∈ micro s → k < requests s)
  ∧ (∀ k c r, MSetCharThen k c r ∈ micro s → k < requests s).



(** ** What a call does at once *)

(** The collaborator calls a public method makes before it returns. *)
Definition sync_event (e : event) : Prop :=
  match e with
  | EQuizCancel _ | ERendererDestroy _ | ELoadCharData _ _ => True
  | _ => False
  end.

(** A view with a quiz in progress: data is there, quiz 0 is held. *)
Definition quiz_view_demo : HW :=
  {| _quiz := Some 0; _char := "A"; _animator := {| anims := []; lastAnimation := None |};
     _hanziWriterRenderer := Some 0; _character := Some 0; _positioner := Some 0;
     _stateManager := Some 0; _options := ∅; _withDataPromise := 0;
     _characterRenderer := Some 0; _outlineRenderer := Some 1;
     isLoadingCharData := false;
     _loadingManager := {| loadingFailed := false; loadCounter := 1; outstanding := [] |};
     quizzes := [true]; fulfilled := [0]; waiters := []; micro := []; awaiting := [];
     nextCall := 1; log := [] |}.

(** A view configured with a delay of two seconds between loops: the data
    is there and rendered, and generation 0 of the animator is valid. *)
Definition configured_view : HW :=
  {| _quiz := None; _char := "A"; _animator := {| anims := [true]; lastAnimation := Some 0 |};
     _hanziWriterRenderer := Some 0; _character := Some 0; _positioner := Some 0;
     _stateManager := Some 0; _options := {[ "delayBetweenLoops" := VNum (Fin 2000) ]};
     _withDataPromise := 0;
     _characterRenderer := Some 0; _outlineRenderer := Some 1;
     isLoadingCharData := false;
     _loadingManager := {| loadingFailed := false; loadCounter := 1; outstanding := [] |};
     quizzes := []; fulfilled := [0]; waiters := []; micro := []; awaiting := [];
     nextCall := 1; log := [] |}.

(** ** The life of a quiz *)

(** The quizzes [cancel()] was called on, in order. *)
Fixpoint cancels (l : list event) : list nat :=
  match l with
  | [] => []
  | EQuizCancel q :: l => q :: cancels l
  | _ :: l => cancels l
  end.

(** The quizzes constructed, in order. *)
Fixpoint news (l : list event) : list nat :=
  match l with
  | [] => []
  | EQuizNew q _ :: l => q :: news l
  | _ :: l => news l
  end.

(** How many quizzes there are, the one held, the ones cancelled and the
    ones constructed. *)
Definition life_view (s : HW) : nat * option nat * list nat * list nat :=
  (length (quizzes s), _quiz s, cancels (log s), news (log s)).

(** How a piece of code may change them. *)
Inductive Life_moves :
  nat * option nat * list nat * list nat → nat * option nat * list nat * list nat → Prop :=
| lmoves_refl x : Life_moves x x
| lmoves_cancel x n q cs ns :
    Life_moves x (n, Some q, cs, ns) → Life_moves x (n, None, cs ++ [q], ns)
| lmoves_new x n cs ns :
    Life_moves x (n, None, cs, ns) → Life_moves x (S n, Some n, cs, ns ++ [n]).

(** No quiz is cancelled twice, only constructed quizzes are cancelled, and
    the quiz held is constructed and not cancelled. *)
Definition life_ok (x : nat * option nat * list nat * list nat) : Prop :=
  NoDup (x.1.2)
  ∧ (∀ q, q ∈ x.1.2 → q < (x.1.1.1) ∧ q ∈ x.2)
  ∧ (∀ q, x.1.1.2 = Some q → q < (x.1.1.1) ∧ (q ∉ x.1.2) ∧ q ∈ x.2).

(** ** A quiz has a positioner *)

(** While reactions run: a quiz is held only when there is a positioner, and
    so is an action about to run, and data that has arrived. *)
Definition ready_ok (s : HW) : Prop :=
  (is_Some (_quiz s) → is_Some (_positioner s))
  ∧ (failed s = false → _withDataPromise s ∈ fulfilled s → is_Some (_positioner s))
  ∧ (∀ id a, MRun id a ∈ micro s → failed s = false → is_Some (_positioner s)).

(** Between the calls of one host task. *)
Definition host_ready (s : HW) : Prop :=
  (is_Some (_quiz s) → is_Some (_positioner s))
  ∧ (failed s = false → _withDataPromise s ∈ fulfilled s → is_Some (_positioner s))
  ∧ (∀ id a, MRun id a ∈ micro s → is_Some (_positioner s)).

(** A touch event carries at least one touch point. *)
Definition has_point (ev : dom_event) : Prop :=
  match ev with
  | touchstart [] | touchmove [] => False
  | _ => True
  end.

(** ** When the data arrives *)

(** The calls whose action was invoked, in order. *)
Fixpoint invoked (l : list event) : list nat :=
  match l with
  | [] => []
  | EInvoke id :: l => id :: invoked l
  | _ :: l => invoked l
  end.

(** The requests for data made, in order: the character and the number of
    the request. *)
Fixpoint loads (l : list event) : list (string * nat) :=
  match l with
  | [] => []
  | ELoadCharData c k :: l => (c, k) :: loads l
  | _ :: l => loads l
  end.

(** What [setCharacter]'s callback asks of its collaborators for request [k]. *)
Definition built (k : nat) (c : string) (d : data) : list event :=
  [EGenerateCharacter c (Some d); ENewPositioner k; ENewRenderer k; ENewStateManager k;
   EMount k; ERender k].

(** The action a call hands to [_withData]. *)
Definition action_of (c : call) : option action :=
  match c with
  | ShowCharacter o => Some (AAnimate (FRender CharacterRenderer RShow) o)
  | HideCharacter o => Some (AAnimate (FRender CharacterRenderer RHide) o)
  | AnimateCharacter o => Some (AAnimate (FRender CharacterRenderer RAnimate) o)
  | LoopCharacterAnimation o => Some (AAnimate (FLoop o) o)
  | ShowOutline o => Some (AAnimate (FRender OutlineRenderer RShow) o)
  | HideOutline o => Some (AAnimate (FRender OutlineRenderer RHide) o)
  | StartQuiz o => Some (AQuiz o)
  | CancelQuiz | SetCharacter _ => None
  end.

(** Calls numbered from [n] on. *)
Fixpoint tagged (n : nat) (acts : list action) : list (nat * action) :=
  match acts with
  | [] => []
  | a :: acts => (n, a) :: tagged (S n) acts
  end.

(** ** The loop goes on *)

(** The tasks of one round of the loop: the rendering ends, its reaction
    starts the timer; the timer fires, its reaction renders again. *)
Definition loop_round : list label := [LDone 0; LTick; LDone 0; LTick].

(** ** What pointer input can do *)

(** What a listener asks of its collaborators. *)
Definition listener_event (e : event) : Prop :=
  match e with
  | EPreventDefault | EQuizCall _ _ _ => True
  | _ => False
  end.

(** ** The data the controller waits for *)

(** The requests made, the current character, the data promise held and
    the number of the next request. *)
Definition request_view (s : HW) : list (string * nat) * string * nat * nat :=
  (loads (log s), _char s, _withDataPromise s, requests s).

(** How a piece of code may change them: by asking for the data of a
    character, which becomes the current one. *)
Inductive Request_moves :
  list (string * nat) * string * nat * nat → list (string * nat) * string * nat * nat → Prop :=
| rmoves_refl x : Request_moves x x
| rmoves_load x l ch p n c :
    Request_moves x (l, ch, p, n) → Request_moves x (l ++ [(c, n)], c, n, S n).

(** The requests are numbered in order, and the promise held is that of the
    latest request, which is for the current character. *)
Definition request_ok (x : list (string * nat) * string * nat * nat) : Prop :=
  x.1.1.1.*2 = seq 0 (x.2)
  ∧ ∃ l, x.1.1.1 = l ++ [(x.1.1.2, x.1.2)] ∧ x.2 = S (x.1.2).

(** * Proofs *)

#[local] Set Warnings "-clear-no-such-hyp".

(** ** Option preparation *)

Section OptionFacts.

Import Options.

Lemma assign_obj_one (o : obj) : assign_obj ∅ [o] = o.
Proof. unfold assign_obj. simpl. apply (right_id_L ∅ (∪)). Qed.

Lemma assign_obj_two (d o : obj) : assign_obj ∅ [d; o] = o ∪ d.
Proof. unfold assign_obj. simpl. by rewrite (right_id_L ∅ (∪)). Qed.

Lemma fresh_loc_unused (h : heap) : h !! fresh (dom h) = None.
Proof. apply not_elem_of_dom, is_fresh. Qed.

Lemma get_insert_same (l : loc) (o : obj) (h : heap) k :
  get l k (<[l := o]> h) = prop o k.
Proof. unfold get. by rewrite lookup_insert_eq. Qed.

Lemma get_set_same l k v (h : heap) :
  is_Some (h !! l) → get l k (set l k v h) = v.
Proof.
  intros [o Ho]. unfold set. rewrite Ho, get_insert_same.
  unfold prop. by rewrite lookup_insert_eq.
Qed.

Lemma get_set_other l k k' v (h : heap) :
  k ≠ k' → get l k' (set l k v h) = get l k' h.
Proof.
  intros Hk. unfold set. destruct (h !! l) as [o|] eqn:Ho; [|done].
  rewrite get_insert_same. unfold get, prop. rewrite Ho. simpl.
  by rewrite lookup_insert_ne.
Qed.

Lemma lookup_set_other l l' k v (h : heap) :
  l ≠ l' → set l k v h !! l' = h !! l'.
Proof.
  intros Hl. unfold set. destruct (h !! l); [|done]. by rewrite lookup_insert_ne.
Qed.

Lemma set_is_Some l l' k v (h : heap) :
  is_Some (h !! l') → is_Some (set l k v h !! l').
Proof.
  intros Hs. unfold set. destruct (h !! l) eqn:Ho; [|done].
  destruct (decide (l = l')) as [->|]; [rewrite lookup_insert_eq; eauto|].
  by rewrite lookup_insert_ne.
Qed.

(** What [_fillWidthAndHeight] returns, whatever heap it starts from. *)
Lemma fillWidthAndHeight_shape E (options : loc) (h : heap) (o : obj) :
  h !! options = Some o →
  ∃ h', _fillWidthAndHeight E options h = (fresh (dom h), h')
    ∧ (∀ l, l ≠ fresh (dom h) → h' !! l = h !! l)
    ∧ (∀ k, k ≠ "width" → k ≠ "height" → get (fresh (dom h)) k h' = prop o k)
    ∧ get (fresh (dom h)) "width" h' =
        (if truthy (prop o "width") then prop o "width"
         else if truthy (prop o "height") then prop o "height"
         else VNum (Fin (Qmin (rect_width E) (rect_height E))))
    ∧ get (fresh (dom h)) "height" h' =
        (if truthy (prop o "height") then prop o "height"
         else if truthy (prop o "width") then prop o "width"
         else VNum (Fin (Qmin (rect_width E) (rect_height E)))).
Proof.
  intros Ho. unfold _fillWidthAndHeight, assign_new.
  rewrite Ho. change (default ∅ (Some o)) with o. rewrite assign_obj_one.
  set (l := fresh (dom h)). set (h1 := <[l := o]> h).
  assert (Hl : is_Some (h1 !! l)) by (unfold h1; rewrite lookup_insert_eq; eauto).
  assert (Hg : ∀ k, get l k h1 = prop o k) by (intros; apply get_insert_same).
  assert (Hh : ∀ l', l' ≠ l → h1 !! l' = h !! l').
  { intros l' Hne. unfold h1. by rewrite lookup_insert_ne. }
  rewrite !Hg.
  destruct (truthy (prop o "width")) eqn:Hw, (truthy (prop o "height")) eqn:Hht; simpl;
    eexists; (split; [reflexivity|]).
  - repeat split; auto.
  - repeat split.
    + intros l' Hne. rewrite lookup_set_other by done. auto.
    + intros k Hk1 Hk2. rewrite get_set_other by done. auto.
    + rewrite get_set_other by done. auto.
    + by rewrite get_set_same.
  - repeat split.
    + intros l' Hne. rewrite lookup_set_other by done. auto.
    + intros k Hk1 Hk2. rewrite get_set_other by done. auto.
    + by rewrite get_set_same.
    + rewrite get_set_other by done. auto.
  - repeat split.
    + intros l' Hne. rewrite !lookup_set_other by done. auto.
    + intros k Hk1 Hk2. rewrite !get_set_other by done. auto.
    + rewrite get_set_other by done. by rewrite get_set_same.
    + rewrite get_set_same; [done|]. by apply set_is_Some.
Qed.

End OptionFacts.

Section OptionTheorems.

Import Options.

Lemma prop_union_truthy (o d : obj) k :
  truthy (prop o k) = true → prop (o ∪ d) k = prop o k.
Proof.
  unfold prop. destruct (o !! k) as [v|] eqn:Hk; [|done].
  intros _. by rewrite (lookup_union_Some_l _ _ _ _ Hk).
Qed.

Lemma get_unfold l k (h : heap) (o : obj) : h !! l = Some o → get l k h = prop o k.
Proof. intros Ho. unfold get. by rewrite Ho. Qed.

Lemma assignOptions_shape E (options : loc) (h : heap) (o : obj) :
  h !! options = Some o →
  ∃ l' h', _assignOptions E options h = (l', h')
    ∧ get l' "strokeAnimationSpeed" h'
        = merged_speed E o "strokeAnimationDuration" "strokeAnimationSpeed"
    ∧ get l' "strokeHighlightSpeed" h'
        = merged_speed E o "strokeHighlightDuration" "strokeHighlightSpeed".
Proof.
  intros Ho. unfold _assignOptions, assign_new. rewrite Ho.
  change (default ∅ (Some o)) with o. rewrite assign_obj_two.
  set (l := fresh (dom h)). set (h1 := <[l := o ∪ defaultOptions E]> h).
  assert (H1 : ∀ k, get l k h1 = prop (o ∪ defaultOptions E) k)
    by (intros; apply get_insert_same).
  assert (Hs1 : is_Some (h1 !! l)) by (unfold h1; rewrite lookup_insert_eq; eauto).
  set (c1 := truthy (prop o "strokeAnimationDuration")
             && negb (truthy (prop o "strokeAnimationSpeed"))).
  set (c2 := truthy (prop o "strokeHighlightDuration")
             && negb (truthy (prop o "strokeHighlightSpeed"))).
  set (h2 := if c1 then _ else h1).
  set (h3 := if c2 then _ else h2).
  assert (Hs2 : is_Some (h2 !! l)).
  { unfold h2. destruct c1; [by apply set_is_Some | done]. }
  assert (Hs3 : is_Some (h3 !! l)).
  { unfold h3. destruct c2; [by apply set_is_Some | done]. }
  assert (Ha : get l "strokeAnimationSpeed" h3
               = merged_speed E o "strokeAnimationDuration" "strokeAnimationSpeed").
  { assert (get l "strokeAnimationSpeed" h3 = get l "strokeAnimationSpeed" h2) as ->.
    { unfold h3. destruct c2; [by rewrite get_set_other | done]. }
    unfold h2, merged_speed. fold c1. destruct c1 eqn:Hc1.
    - rewrite get_set_same by done. rewrite H1. f_equal.
      apply prop_union_truthy. unfold c1 in Hc1. by apply andb_true_iff in Hc1 as [? _].
    - apply H1. }
  assert (Hb : get l "strokeHighlightSpeed" h3
               = merged_speed E o "strokeHighlightDuration" "strokeHighlightSpeed").
  { unfold h3, merged_speed. fold c2. destruct c2 eqn:Hc2.
    - rewrite get_set_same by done. f_equal.
      assert (get l "strokeHighlightDuration" h2 = get l "strokeHighlightDuration" h1) as ->.
      { unfold h2. destruct c1; [by rewrite get_set_other | done]. }
      rewrite H1. apply prop_union_truthy.
      unfold c2 in Hc2. by apply andb_true_iff in Hc2 as [? _].
    - assert (get l "strokeHighlightSpeed" h2 = get l "strokeHighlightSpeed" h1) as ->.
      { unfold h2. destruct c1; [by rewrite get_set_other | done]. }
      apply H1. }
  destruct Hs3 as [o3 Ho3].
  destruct (fillWidthAndHeight_shape E l h3 o3 Ho3) as (h' & Heq & _ & Hk & _).
  exists (fresh (dom h3)), h'. split; [done|].
  rewrite !Hk by done. rewrite <- !(get_unfold l _ h3 o3 Ho3). done.
Qed.

(** C8, as the code has it.  [_fillWidthAndHeight] counts a width or height
    as supplied when it is truthy (0, like null and undefined, counts as
    missing).  A missing one is set to the supplied one, both are set to the
    smaller side of the canvas rectangle when neither is supplied, both are
    kept when both are supplied; the result is a fresh object and every
    object of the input heap, the argument included, is as before. *)
Theorem fillWidthAndHeight_fills E (options : loc) (h : heap) (o : obj) :
  h !! options = Some o →
  let r := _fillWidthAndHeight E options h in
  let width := get r.1 "width" r.2 in
  let height := get r.1 "height" r.2 in
  let supplied k := truthy (prop o k) in
  let minDim := VNum (Fin (Qmin (rect_width E) (rect_height E))) in
  h !! r.1 = None
  ∧ (∀ l, is_Some (h !! l) → r.2 !! l = h !! l)
  ∧ (∀ k, k ≠ "width" → k ≠ "height" → get r.1 k r.2 = prop o k)
  ∧ (supplied "width" = true → supplied "height" = false →
       width = prop o "width" ∧ height = prop o "width")
  ∧ (supplied "height" = true → supplied "width" = false →
       width = prop o "height" ∧ height = prop o "height")
  ∧ (supplied "width" = false → supplied "height" = false →
       width = minDim ∧ height = minDim)
  ∧ (supplied "width" = true → supplied "height" = true →
       width = prop o "width" ∧ height = prop o "height").
Proof.
  intros Ho. destruct (fillWidthAndHeight_shape E options h o Ho)
    as (h' & Heq & Hother & Hk & Hw & Hh).
  rewrite Heq. simpl. split; [apply fresh_loc_unused|].
  split.
  { intros l [x Hx]. apply Hother. intros ->. by rewrite fresh_loc_unused in Hx. }
  split; [done|].
  rewrite Hw, Hh.
  split_and!; intros H1 H2; rewrite ?H1, ?H2; done.
Qed.

(** C9, as the code has it.  [_assignOptions] counts a duration or speed as
    supplied when it is truthy (0, like null and undefined, counts as not
    supplied).  A supplied [strokeAnimationDuration] without a supplied
    [strokeAnimationSpeed] makes the speed [500 / strokeAnimationDuration],
    and likewise for the highlight pair; a supplied speed is kept, whatever
    the duration. *)
Theorem assignOptions_speed_from_duration E (options : loc) (h : heap) (o : obj) :
  h !! options = Some o →
  let r := _assignOptions E options h in
  let effective k := get r.1 k r.2 in
  let supplied k := truthy (prop o k) in
  (supplied "strokeAnimationDuration" = true → supplied "strokeAnimationSpeed" = false →
     effective "strokeAnimationSpeed"
     = js_div E (VNum (Fin 500)) (prop o "strokeAnimationDuration"))
  ∧ (supplied "strokeHighlightDuration" = true → supplied "strokeHighlightSpeed" = false →
     effective "strokeHighlightSpeed"
     = js_div E (VNum (Fin 500)) (prop o "strokeHighlightDuration"))
  ∧ (supplied "strokeAnimationSpeed" = true →
     effective "strokeAnimationSpeed" = prop o "strokeAnimationSpeed")
  ∧ (supplied "strokeHighlightSpeed" = true →
     effective "strokeHighlightSpeed" = prop o "strokeHighlightSpeed").
Proof.
  intros Ho. destruct (assignOptions_shape E options h o Ho) as (l' & h' & Heq & Ha & Hb).
  rewrite Heq. simpl. rewrite Ha, Hb. unfold merged_speed.
  split_and!.
  - by intros -> ->.
  - by intros -> ->.
  - intros Hs. rewrite Hs, andb_false_r. by apply prop_union_truthy.
  - intros Hs. rewrite Hs, andb_false_r. by apply prop_union_truthy.
Qed.

End OptionTheorems.

Lemma fillWidthAndHeight_fills_witness :
  let o : obj := {[ "width" := VNum (Fin 120) ]} in
  demo_heap o !! 1%positive = Some o
  ∧ let r := Options._fillWidthAndHeight demo_env 1 (demo_heap o) in
    Options.get r.1 "height" r.2 = VNum (Fin 120)
    ∧ demo_heap o !! r.1 = None.
Proof.
  intros o. split; [reflexivity|].
  destruct (fillWidthAndHeight_fills demo_env 1 (demo_heap o) o eq_refl)
    as (Hnew & _ & _ & Hw & _).
  split; [|exact Hnew].
  apply Hw; reflexivity.
Defined.

Lemma assignOptions_speed_from_duration_witness :
  let o : obj := {[ "strokeAnimationDuration" := VNum (Fin 250) ]} in
  demo_heap o !! 1%positive = Some o
  ∧ let r := Options._assignOptions demo_env 1 (demo_heap o) in
    Options.get r.1 "strokeAnimationSpeed" r.2 = VNum (Fin (500 / 250)).
Proof.
  intros o. split; [reflexivity|].
  destruct (assignOptions_speed_from_duration demo_env 1 (demo_heap o) o eq_refl)
    as (Hd & _).
  apply Hd; reflexivity.
Defined.

(** C8 as stated fails: a width of 0 is supplied together with a height, and
    is replaced by the height. *)
Lemma fillWidthAndHeight_zero_width_replaced :
  let o : obj := <[ "width" := VNum (Fin 0) ]> {[ "height" := VNum (Fin 100) ]} in
  let r := Options._fillWidthAndHeight demo_env 1 (demo_heap o) in
  prop o "width" = VNum (Fin 0) ∧ prop o "height" = VNum (Fin 100)
  ∧ Options.get r.1 "width" r.2 = VNum (Fin 100)
  ∧ Options.get r.1 "width" r.2 ≠ prop o "width".
Proof. vm_compute. split_and!; done. Qed.

(** C9 as stated fails: a speed of 0 is supplied together with a duration,
    and the speed derived from the duration replaces it. *)
Lemma assignOptions_zero_speed_overridden :
  let o : obj := <[ "strokeAnimationDuration" := VNum (Fin 250) ]>
                   {[ "strokeAnimationSpeed" := VNum (Fin 0) ]} in
  let r := Options._assignOptions demo_env 1 (demo_heap o) in
  prop o "strokeAnimationSpeed" = VNum (Fin 0)
  ∧ Options.get r.1 "strokeAnimationSpeed" r.2 = VNum (Fin (500 / 250))
  ∧ Options.get r.1 "strokeAnimationSpeed" r.2 ≠ prop o "strokeAnimationSpeed".
Proof. vm_compute. split_and!; done. Qed.

(** ** Generations *)

Lemma isActive_cancel g A :
  Animation_isActive g (Animator_cancel A) = true →
  Animation_isActive g A = true ∧ lastAnimation A ≠ Some g.
Proof.
  unfold Animator_cancel, Animation_isActive.
  destruct (lastAnimation A) as [g0|] eqn:Hl; simpl; [|done].
  destruct (decide (g0 = g)) as [->|Hne].
  - destruct (decide (g < length (anims A))).
    + by rewrite list_lookup_insert_eq.
    + rewrite list_insert_ge by lia. rewrite lookup_ge_None_2 by lia. done.
  - rewrite list_lookup_insert_ne by done. intros; split; congruence.
Qed.

Lemma cancel_length A : length (anims (Animator_cancel A)) = length (anims A).
Proof. unfold Animator_cancel. destruct (lastAnimation A); simpl; by rewrite ?length_insert. Qed.

Lemma cancel_all_inactive A g :
  animator_ok A → Animation_isActive g (Animator_cancel A) = false.
Proof.
  intros Hok. destruct (Animation_isActive g (Animator_cancel A)) eqn:Hg; [|done].
  apply isActive_cancel in Hg as [Hg Hne]. by apply Hok in Hg.
Qed.

Lemma cancel_ok A : animator_ok A → animator_ok (Animator_cancel A).
Proof. intros Hok g Hg. by rewrite cancel_all_inactive in Hg. Qed.

Lemma setup_active g A :
  Animation_isActive g (Animator_setup A).2 = true →
  g = (Animator_setup A).1 ∨ Animation_isActive g (Animator_cancel A) = true.
Proof.
  unfold Animator_setup, Animation_isActive. simpl.
  destruct (decide (g < length (anims (Animator_cancel A)))).
  - rewrite lookup_app_l by done. auto.
  - intros Hg. left. destruct (decide (g = length (anims (Animator_cancel A)))); [done|].
    rewrite lookup_ge_None_2 in Hg; [done|]. rewrite length_app. simpl. lia.
Qed.

Lemma setup_ok A : animator_ok A → animator_ok (Animator_setup A).2.
Proof.
  intros Hok g Hg. apply setup_active in Hg as [->|Hg]; [done|].
  by rewrite cancel_all_inactive in Hg.
Qed.

Lemma setup_fresh_active A :
  Animation_isActive (Animator_setup A).1 (Animator_setup A).2 = true.
Proof.
  unfold Animator_setup, Animation_isActive. simpl.
  by rewrite lookup_app_r, Nat.sub_diag by lia.
Qed.

Lemma moves_ok A B : Animator_moves A B → animator_ok A → animator_ok B.
Proof. induction 1; auto using cancel_ok, setup_ok. Qed.

Lemma moves_trans A B C : Animator_moves A B → Animator_moves B C → Animator_moves A C.
Proof. intros HAB HBC. induction HBC; auto using Animator_moves. Qed.

(** Unfolding the operations down to field updates. *)
Ltac unfold_ops :=
  unfold do_call, showCharacter, hideCharacter, animateCharacter, loopCharacterAnimation,
    showOutline, hideOutline, quiz, _animateWithData, call_withData, run_micro, run_action,
    _animate, Animator_animate, quiz_action, _withData, then_withData, fulfil,
    setCharacter_then, setCharacter, loaded, loadCharData, animateForever, call_renderer,
    cancelQuiz, Quiz_cancel, dispatch, canvas_listener, _forwardToQuiz, settle, complete,
    await, enqueue, emit in *.

(** Reading a field off a tower of field updates. *)
Ltac fields :=
  cbn [_quiz _char _animator _hanziWriterRenderer _character _positioner _stateManager
       _options _withDataPromise _characterRenderer _outlineRenderer isLoadingCharData
       _loadingManager quizzes fulfilled waiters micro awaiting nextCall log
       set__quiz set__char set__animator set__hanziWriterRenderer set__character
       set__positioner set__stateManager set__withDataPromise set__loadingManager
       set_quizzes set_fulfilled set_waiters set_micro set_awaiting set_nextCall set_log
       set_loadingFailed loadingFailed loadCounter outstanding anims lastAnimation
       fst snd negb] in *.

Lemma setup_pair A g B :
  Animator_setup A = (g, B) → g = (Animator_setup A).1 ∧ B = (Animator_setup A).2.
Proof. by intros ->. Qed.

Ltac crush_ops :=
  unfold_ops; repeat (fields; case_match); simplify_eq;
  repeat match goal with
         | H : Animator_setup _ = (_, _) |- _ => apply setup_pair in H as [-> ->]
         end;
  fields.

Create HintDb hw.

Global Hint Constructors Animator_moves : hw.

(** ** Executions *)

Lemma step_inv E l s s' :
  step E l s = Some s' →
  (∃ m rest, l = LTick ∧ micro s = m :: rest ∧ s' = run_micro E m (set_micro rest s))
  ∨ (∃ cs, l = LHost cs ∧ s' = foldl (λ s c, do_call E c s) s cs)
  ∨ (∃ ev, l = LEvent ev ∧ s' = (dispatch E ev s).2)
  ∨ (∃ k r, l = LSettle k r ∧ settle k r s = Some s')
  ∨ (∃ i, l = LDone i ∧ complete i s = Some s').
Proof.
  unfold step. destruct l; [..|destruct (micro s) eqn:Hm]; intros; simplify_eq; eauto 10.
Qed.

Section Executions.

Variable E : Env.

Variable R : HW → HW → Prop.

Hypothesis R_refl : ∀ s, R s s.

Hypothesis R_trans : ∀ s1 s2 s3, R s1 s2 → R s2 s3 → R s1 s3.

Lemma foldl_rel (cs : list call) s :
  (∀ c s, R s (do_call E c s)) → R s (foldl (λ s c, do_call E c s) s cs).
Proof.
  intros Hc. revert s. induction cs as [|c cs IH]; intros s; simpl; [done|].
  eapply R_trans; [apply Hc | apply IH].
Qed.

Lemma exec_rel ls s s' :
  (∀ l s s', step E l s = Some s' → R s s') → exec E ls s = Some s' → R s s'.
Proof.
  intros Hstep. revert s. induction ls as [|l ls IH]; intros s; simpl.
  - by intros [= ->].
  - destruct (step E l s) as [s1|] eqn:Hl; [|done].
    intros Hx. eapply R_trans; [by eapply Hstep | by apply IH].
Qed.

End Executions.

(** ** How the operations move the animator *)

Lemma do_call_moves E c s : Animator_moves (_animator s) (_animator (do_call E c s)).
Proof. destruct c; crush_ops; eauto 6 with hw. Qed.

Lemma run_micro_moves E m s : Animator_moves (_animator s) (_animator (run_micro E m s)).
Proof. destruct m; crush_ops; eauto 6 with hw. Qed.

Lemma step_moves E l s s' :
  step E l s = Some s' → Animator_moves (_animator s) (_animator s').
Proof.
  intros Hs. apply step_inv in Hs
    as [(m & rest & -> & Hm & ->)|[(cs & -> & ->)|[(ev & -> & ->)|[(k & r & -> & Hs)|(i & -> & Hs)]]]].
  - apply (run_micro_moves E m (set_micro rest s)).
  - apply (foldl_rel E (λ s s', Animator_moves (_animator s) (_animator s'))).
    + constructor.
    + intros; eapply moves_trans; eauto.
    + apply do_call_moves.
  - destruct ev; crush_ops; eauto with hw.
  - crush_ops; eauto with hw.
  - crush_ops; eauto with hw.
Qed.

Lemma exec_moves E ls s s' :
  exec E ls s = Some s' → Animator_moves (_animator s) (_animator s').
Proof.
  apply (exec_rel E (λ s s', Animator_moves (_animator s) (_animator s'))).
  - constructor.
  - intros; eapply moves_trans; eauto.
  - apply step_moves.
Qed.

Lemma runs_Some x : runs x = true → ∃ s, x = Some s.
Proof. destruct x as [s|]; [by exists s | discriminate]. Defined.

(** ** A dead generation is silent *)

Lemma dead_cancel g A : dead g A → dead g (Animator_cancel A).
Proof.
  intros [Hlt Hd]. split; [by rewrite cancel_length|].
  destruct (Animation_isActive g (Animator_cancel A)) eqn:Hg; [|done].
  apply isActive_cancel in Hg as [Hg _]. congruence.
Qed.

Lemma dead_setup g A : dead g (Animator_cancel A) → dead g (Animator_setup A).2.
Proof.
  intros [Hlt Hd].
  unfold Animator_setup, dead, Animation_isActive in *. simpl.
  rewrite length_app, lookup_app_l by done. split; [lia|done].
Qed.

Lemma cancel_kills g A : animator_ok A → g < length (anims A) → dead g (Animator_cancel A).
Proof.
  intros Hok Hg. split; [by rewrite cancel_length | by apply cancel_all_inactive].
Qed.

Lemma setup_kills g A : animator_ok A → g < length (anims A) → dead g (Animator_setup A).2.
Proof. intros Hok Hg. by apply dead_setup, cancel_kills. Qed.

Lemma setup_fresh A : (Animator_setup A).1 = length (anims A).
Proof. unfold Animator_setup. simpl. apply cancel_length. Qed.

Lemma moves_length A B : Animator_moves A B → length (anims A) ≤ length (anims B).
Proof.
  induction 1; [done|..].
  - by rewrite cancel_length.
  - unfold Animator_setup. simpl. rewrite length_app, cancel_length. lia.
Qed.

Lemma moves_dead g A B : Animator_moves A B → dead g A → dead g B.
Proof. induction 1; auto using dead_cancel, dead_setup. Qed.

(** Turning [exec_silent]-style facts into the form of the statements. *)
Lemma log_grows_not_in g f m s s' :
  log_grows (not_effect_of g) s s' → ∃ evs, log s' = log s ++ evs ∧ EEffect f m g ∉ evs.
Proof.
  intros (evs & Hl & Hall). exists evs. split; [done|]. intros Hin.
  rewrite Forall_forall in Hall. by eapply Hall.
Qed.

Lemma dead_not_fresh g A : dead g A → g ≠ (Animator_setup A).1.
Proof. intros [Hlt _]. unfold Animator_setup. simpl. rewrite cancel_length. lia. Qed.

Lemma log_grows_refl P s : log_grows P s s.
Proof. exists []. by rewrite app_nil_r. Qed.

Lemma log_grows_trans P s1 s2 s3 :
  log_grows P s1 s2 → log_grows P s2 s3 → log_grows P s1 s3.
Proof.
  intros (e1 & H1 & F1) (e2 & H2 & F2). exists (e1 ++ e2).
  rewrite H2, H1, app_assoc. split; [done|]. by apply Forall_app.
Qed.

Lemma silent_refl g s : silent g s s.
Proof. intros Hd. split; [done | apply log_grows_refl]. Qed.

Lemma silent_trans g s1 s2 s3 : silent g s1 s2 → silent g s2 s3 → silent g s1 s3.
Proof.
  intros H12 H23 Hd. destruct (H12 Hd) as [Hd2 Hl2]. destruct (H23 Hd2) as [Hd3 Hl3].
  split; [done|]. by eapply log_grows_trans.
Qed.

(** Closing a goal [log_grows P s s'] once the log of [s'] is explicit. *)
Ltac log_grows_tac :=
  unfold log_grows; fields; rewrite <- ?app_assoc;
  first [ by (exists []; rewrite app_nil_r)
        | eexists; split; [reflexivity|]; repeat apply Forall_cons_2; try apply Forall_nil_2 ].

Lemma do_call_silent E g c s : silent g s (do_call E c s).
Proof.
  intros Hd. split; [eapply moves_dead; eauto using do_call_moves|].
  destruct c; crush_ops; log_grows_tac; try (intros ??; discriminate).
Qed.

Lemma not_effect_fresh g A f m :
  dead g A → not_effect_of g (EEffect f m (Animator_setup A).1).
Proof. intros Hd f' m' [= _ _ Hg]. by eapply dead_not_fresh. Qed.

Lemma not_effect_active g g' A f m :
  dead g A → negb (Animation_isActive g' A) = false → not_effect_of g (EEffect f m g').
Proof.
  intros [_ Hd] Ha f' m' [= _ _ ->]. rewrite Hd in Ha. done.
Qed.

Lemma run_micro_silent E g m s : silent g s (run_micro E m s).
Proof.
  intros Hd. split; [eapply moves_dead; eauto using run_micro_moves|].
  destruct m; crush_ops; log_grows_tac; try (intros ??; discriminate);
    eauto using not_effect_fresh, not_effect_active.
Qed.

Lemma step_silent E g l s s' : step E l s = Some s' → silent g s s'.
Proof.
  intros Hs. apply step_inv in Hs
    as [(m & rest & -> & Hm & ->)|[(cs & -> & ->)|[(ev & -> & ->)|[(k & r & -> & Hs)|(i & -> & Hs)]]]].
  - apply (run_micro_silent E g m (set_micro rest s)).
  - apply (foldl_rel E (silent g)); auto using silent_refl, do_call_silent.
    intros; by eapply silent_trans.
  - intros Hd. split; [eapply moves_dead; [|done]|].
    + destruct ev; crush_ops; eauto with hw.
    + destruct ev; crush_ops; log_grows_tac; intros ??; discriminate.
  - intros Hd. crush_ops. split; [done | log_grows_tac].
  - intros Hd. crush_ops. split; [done | log_grows_tac].
Qed.

(** A dead generation never shows anything again. *)
Lemma exec_silent E g ls s s' : exec E ls s = Some s' → silent g s s'.
Proof.
  apply (exec_rel E (silent g)); auto using silent_refl.
  - intros; by eapply silent_trans.
  - apply step_silent.
Qed.

Global Hint Constructors Quiz_moves : hw.

(** ** The quiz reference *)

Lemma qmoves_trans x y z : Quiz_moves x y → Quiz_moves y z → Quiz_moves x z.
Proof. intros Hxy Hyz. induction Hyz; eauto with hw. Qed.

Lemma qmoves_ok x y : Quiz_moves x y → quiz_view_ok x → quiz_view_ok y.
Proof.
  induction 1 as [|x qs q _ IH|x qs _ IH]; [done|..]; intros Hx; specialize (IH Hx);
    intros q'; unfold quiz_view_ok in *; simpl in *.
  - destruct (decide (q = q')) as [->|Hne].
    + destruct (decide (q' < length qs)).
      * by rewrite list_lookup_insert_eq.
      * by rewrite list_insert_ge, lookup_ge_None_2 by lia.
    + rewrite list_lookup_insert_ne by done. intros Hq. apply IH in Hq. congruence.
  - destruct (decide (q' < length qs)).
    + rewrite lookup_app_l by done. intros Hq. by apply IH in Hq.
    + intros Hq. f_equal. destruct (decide (q' = length qs)); [done|].
      rewrite lookup_ge_None_2 in Hq; [done|]. rewrite length_app. simpl. lia.
Qed.

Ltac quiz_moves_tac :=
  unfold quiz_view; crush_ops;
  repeat match goal with H : _quiz _ = _ |- _ => rewrite H end;
  eauto 6 with hw.

Lemma do_call_qmoves E c s : Quiz_moves (quiz_view s) (quiz_view (do_call E c s)).
Proof. destruct c; quiz_moves_tac. Qed.

Lemma run_micro_qmoves E m s : Quiz_moves (quiz_view s) (quiz_view (run_micro E m s)).
Proof. destruct m; quiz_moves_tac. Qed.

Lemma step_qmoves E l s s' :
  step E l s = Some s' → Quiz_moves (quiz_view s) (quiz_view s').
Proof.
  intros Hs. apply step_inv in Hs
    as [(m & rest & -> & Hm & ->)|[(cs & -> & ->)|[(ev & -> & ->)|[(k & r & -> & Hs)|(i & -> & Hs)]]]].
  - apply (run_micro_qmoves E m (set_micro rest s)).
  - apply (foldl_rel E (λ s s', Quiz_moves (quiz_view s) (quiz_view s')));
      eauto using do_call_qmoves, qmoves_trans with hw.
  - destruct ev; quiz_moves_tac.
  - quiz_moves_tac.
  - quiz_moves_tac.
Qed.

Lemma exec_qmoves E ls s s' :
  exec E ls s = Some s' → Quiz_moves (quiz_view s) (quiz_view s').
Proof.
  apply (exec_rel E (λ s s', Quiz_moves (quiz_view s) (quiz_view s')));
    eauto using step_qmoves, qmoves_trans with hw.
Qed.

Lemma HanziWriter_quiz_ok E c o : quiz_ok (HanziWriter E c o).
Proof.
  unfold HanziWriter.
  intros q. unfold quiz_active. crush_ops; by rewrite lookup_nil.
Qed.

Lemma HanziWriter_animator_ok E c o : animator_ok (_animator (HanziWriter E c o)).
Proof.
  unfold HanziWriter.
  crush_ops; apply cancel_ok; intros g; unfold Animation_isActive; cbn [anims];
    by rewrite lookup_nil.
Qed.

(** ** Starting an animation, setting a character, starting a quiz *)

Lemma busy_view_animator_ok : animator_ok (_animator busy_view).
Proof. intros [|g]; [done|]. unfold Animation_isActive. simpl. by destruct g. Qed.

Lemma demo_view_animator_ok : animator_ok (_animator demo_view).
Proof.
  intros g. unfold Animation_isActive. cbn [demo_view _animator anims].
  by rewrite lookup_nil.
Qed.

Lemma insert_false_inactive (qs : list bool) q : default false (<[q := false]> qs !! q) = false.
Proof.
  destruct (decide (q < length qs)).
  - by rewrite list_lookup_insert_eq.
  - by rewrite list_insert_ge, lookup_ge_None_2 by lia.
Qed.

Lemma setCharacter_log E char s :
  log (setCharacter E char s) = log s
           ++ match _quiz s with Some q => [EQuizCancel q] | None => [] end
           ++ match _hanziWriterRenderer s with Some r => [ERendererDestroy r] | None => [] end
           ++ [ELoadCharData char (loadCounter (_loadingManager s))].
Proof. crush_ops; by rewrite <- ?app_assoc. Qed.

Lemma setCharacter_quiz E char s : _quiz (setCharacter E char s) = None.
Proof. crush_ops; done. Qed.

Lemma setCharacter_renderer E char s : _hanziWriterRenderer (setCharacter E char s) = None.
Proof. crush_ops; done. Qed.

Lemma setCharacter_quiz_inactive E char s q :
  _quiz s = Some q → quiz_active q (setCharacter E char s) = false.
Proof. intros Hq. unfold quiz_active. crush_ops; apply insert_false_inactive. Qed.

Lemma setCharacter_all_inactive E char s g :
  animator_ok (_animator s) → Animation_isActive g (_animator (setCharacter E char s)) = false.
Proof. intros Hok. crush_ops; rewrite ?cancel_all_inactive; auto using cancel_ok. Qed.

Lemma quiz_action_log o s :
  log (quiz_action o s) = log s
    ++ match _quiz s with Some q => [EQuizCancel q] | None => [] end
    ++ [EQuizNew (length (quizzes s)) (Options.assign_obj ∅ [_options s; o])].
Proof. crush_ops; by rewrite <- ?app_assoc, ?length_insert. Qed.

Lemma quiz_action_quiz o s : _quiz (quiz_action o s) = Some (length (quizzes s)).
Proof. crush_ops; by rewrite ?length_insert. Qed.

Lemma quiz_action_new_active o s : quiz_active (length (quizzes s)) (quiz_action o s) = true.
Proof.
  unfold quiz_active. crush_ops;
    by rewrite lookup_app_r, ?length_insert, Nat.sub_diag by (rewrite ?length_insert; lia).
Qed.

Lemma quiz_action_old_inactive o s q :
  _quiz s = Some q → q < length (quizzes s) → quiz_active q (quiz_action o s) = false.
Proof.
  intros Hq Hlt. unfold quiz_active. crush_ops.
  by rewrite lookup_app_l, list_lookup_insert_eq by (rewrite ?length_insert; lia).
Qed.

Lemma animate_animator E func options s :
  _animator (_animate E func options s) = (Animator_setup (_animator s)).2.
Proof. destruct func; crush_ops; done. Qed.

(** C1.  [_animate] hands the effect to the animator, which runs it against
    a fresh generation: every generation handed out before is invalid from
    then on and never reaches a renderer again, whatever happens next, and at
    no time are two generations valid.  The side condition, that at most one
    generation is valid to begin with, holds in every state reached from the
    constructor. *)
Theorem animate_supersedes E :
  (∀ func options s,
     animator_ok (_animator s) →
     let s1 := _animate E func options s in
     Animation_isActive (length (anims (_animator s))) (_animator s1) = true
     ∧ (∀ g, g < length (anims (_animator s)) → Animation_isActive g (_animator s1) = false)
     ∧ (∀ g f m ls s2, g < length (anims (_animator s)) → exec E ls s1 = Some s2 →
          ∃ evs, log s2 = log s1 ++ evs ∧ EEffect f m g ∉ evs)
     ∧ (∀ ls s2 g1 g2, exec E ls s = Some s2 →
          Animation_isActive g1 (_animator s2) = true →
          Animation_isActive g2 (_animator s2) = true → g1 = g2))
  ∧ (∀ c o ls s, exec E ls (HanziWriter E c o) = Some s → animator_ok (_animator s)).
Proof.
  split.
  - intros func options s Hok s1.
    assert (HA : _animator s1 = (Animator_setup (_animator s)).2)
      by apply animate_animator.
    assert (Hdead : ∀ g, g < length (anims (_animator s)) → dead g (_animator s1)).
    { intros g Hg. rewrite HA. by apply setup_kills. }
    split_and!.
    + rewrite HA, <- setup_fresh. apply setup_fresh_active.
    + intros g Hg. by apply Hdead.
    + intros g f m ls s2 Hg Hx.
      apply log_grows_not_in, (exec_silent E g ls s1 s2 Hx (Hdead g Hg)).
    + intros ls s2 g1 g2 Hx H1 H2.
      pose proof (moves_ok _ _ (exec_moves E ls s s2 Hx) Hok) as Hok2.
      apply Hok2 in H1, H2. congruence.
  - intros c o ls s Hx.
    apply (moves_ok _ _ (exec_moves E ls _ s Hx)), HanziWriter_animator_ok.
Qed.

Lemma animate_supersedes_witness :
  animator_ok (_animator busy_view)
  ∧ Animation_isActive 0 (_animator busy_view) = true
  ∧ (let s1 := _animate demo_env (FRender CharacterRenderer RShow) ∅ busy_view in
     Animation_isActive 1 (_animator s1) = true
     ∧ Animation_isActive 0 (_animator s1) = false
     ∧ ∃ s2 evs,
         exec demo_env [LHost [HideOutline ∅]; LTick; LEvent mouseup] s1 = Some s2
         ∧ log s2 = log s1 ++ evs
         ∧ (EEffect OutlineRenderer RHide 0 ∉ evs))
  ∧ (∃ s2, exec demo_env [LHost [ShowOutline ∅]; LTick] busy_view = Some s2
       ∧ Animation_isActive 1 (_animator s2) = true
       ∧ ∀ g, Animation_isActive g (_animator s2) = true → g = 1)
  ∧ ∃ s, exec demo_env [LSettle 0 (Some ["M 0 0 L 10 10"]); LTick; LTick;
                        LHost [ShowOutline ∅]; LTick] (HanziWriter demo_env "A" ∅) = Some s
      ∧ animator_ok (_animator s).
Proof.
  split; [exact busy_view_animator_ok|]. split; [reflexivity|].
  destruct (animate_supersedes demo_env) as [Hnow Hreach].
  destruct (Hnow (FRender CharacterRenderer RShow) ∅ busy_view busy_view_animator_ok)
    as (Hnew & Hold & Hquiet & Hone).
  split_and!.
  - split; [exact Hnew|]. split; [exact (Hold 0 (le_n 1))|].
    destruct (exec demo_env [LHost [HideOutline ∅]; LTick; LEvent mouseup]
                (_animate demo_env (FRender CharacterRenderer RShow) ∅ busy_view))
      as [s2|] eqn:Hx; [|vm_compute in Hx; discriminate Hx].
    exists s2. destruct (Hquiet 0 OutlineRenderer RHide _ s2 (le_n 1) Hx) as (evs & H1 & H2).
    by exists evs.
  - destruct (runs_Some (exec demo_env [LHost [ShowOutline ∅]; LTick] busy_view))
      as [s2 Hx]; [vm_compute; reflexivity|].
    assert (Ha : (s ← exec demo_env [LHost [ShowOutline ∅]; LTick] busy_view;
                  Some (Animation_isActive 1 (_animator s))) = Some true)
      by (vm_compute; reflexivity).
    rewrite Hx in Ha. injection Ha as Ha.
    exists s2. split; [exact Hx|]. split; [exact Ha|].
    intros g Hg. exact (Hone _ s2 g 1 Hx Hg Ha).
  - destruct (runs_Some (exec demo_env [LSettle 0 (Some ["M 0 0 L 10 10"]); LTick; LTick;
                                        LHost [ShowOutline ∅]; LTick]
                           (HanziWriter demo_env "A" ∅))) as [s Hx];
      [vm_compute; reflexivity|].
    exists s. split; [exact Hx | exact (Hreach "A" ∅ _ s Hx)].
Defined.

(** C3.  [setCharacter] first cancels the quiz, then the animator's current
    generation, then destroys the renderer it holds, and only then asks for
    the new data; nothing is built or rendered in the call.  Afterwards no
    generation is valid, and none of the old ones reaches a renderer again.
    The side condition holds in every state reached from the constructor. *)
Theorem setCharacter_cancels_first E :
  (∀ char s,
     animator_ok (_animator s) →
     let s' := setCharacter E char s in
     log s' = log s
              ++ match _quiz s with Some q => [EQuizCancel q] | None => [] end
              ++ match _hanziWriterRenderer s with
                 | Some r => [ERendererDestroy r]
                 | None => []
                 end
              ++ [ELoadCharData char (loadCounter (_loadingManager s))]
     ∧ _quiz s' = None
     ∧ (∀ q, _quiz s = Some q → quiz_active q s' = false)
     ∧ (∀ g, Animation_isActive g (_animator s') = false)
     ∧ _hanziWriterRenderer s' = None
     ∧ (∀ g f m ls s2, g < length (anims (_animator s)) → exec E ls s' = Some s2 →
          ∃ evs, log s2 = log s' ++ evs ∧ EEffect f m g ∉ evs))
  ∧ (∀ c o ls s, exec E ls (HanziWriter E c o) = Some s → animator_ok (_animator s)).
Proof.
  split.
  - intros char s Hok s'.
    assert (HA : Animator_moves (_animator s) (_animator s'))
      by apply (do_call_moves E (SetCharacter char) s).
    split_and!.
    + apply setCharacter_log.
    + apply setCharacter_quiz.
    + intros q. apply setCharacter_quiz_inactive.
    + intros g. by apply setCharacter_all_inactive.
    + apply setCharacter_renderer.
    + intros g f m ls s2 Hg Hx.
      assert (Hd : dead g (_animator s')).
      { split; [|by apply setCharacter_all_inactive]. apply moves_length in HA. lia. }
      apply log_grows_not_in, (exec_silent E g ls s' s2 Hx Hd).
  - intros c o ls s Hx.
    apply (moves_ok _ _ (exec_moves E ls _ s Hx)), HanziWriter_animator_ok.
Qed.

Lemma setCharacter_cancels_first_witness :
  animator_ok (_animator busy_view)
  ∧ _quiz busy_view = Some 0
  ∧ Animation_isActive 0 (_animator busy_view) = true
  ∧ let s' := setCharacter demo_env "B" busy_view in
    log s' = log busy_view ++ [EQuizCancel 0; ERendererDestroy 0; ELoadCharData "B" 1]
    ∧ _quiz s' = None
    ∧ quiz_active 0 s' = false
    ∧ Animation_isActive 0 (_animator s') = false
    ∧ _hanziWriterRenderer s' = None
    ∧ (∃ s2 evs,
         exec demo_env [LSettle 1 (Some ["M 5 5"]); LTick; LTick;
                        LHost [ShowCharacter ∅]; LTick] s' = Some s2
         ∧ log s2 = log s' ++ evs
         ∧ (EEffect OutlineRenderer RShow 0 ∉ evs))
    ∧ ∃ s, exec demo_env [LHost [SetCharacter "B"]; LSettle 1 (Some ["M 5 5"]); LTick; LTick]
             (HanziWriter demo_env "A" ∅) = Some s
        ∧ animator_ok (_animator s).
Proof.
  split; [exact busy_view_animator_ok|]. split; [reflexivity|]. split; [reflexivity|].
  destruct (setCharacter_cancels_first demo_env) as [Hnow Hreach].
  destruct (Hnow "B" busy_view busy_view_animator_ok)
    as (Hlog & Hq & Hqa & Hg & Hr & Hquiet).
  split_and!; [exact Hlog | exact Hq | exact (Hqa 0 eq_refl) | exact (Hg 0) | exact Hr | |].
  2:{ destruct (runs_Some (exec demo_env [LHost [SetCharacter "B"];
                                          LSettle 1 (Some ["M 5 5"]); LTick; LTick]
                             (HanziWriter demo_env "A" ∅))) as [s Hx];
        [vm_compute; reflexivity|].
      exists s. split; [exact Hx | exact (Hreach "A" ∅ _ s Hx)]. }
  destruct (exec demo_env [LSettle 1 (Some ["M 5 5"]); LTick; LTick;
                           LHost [ShowCharacter ∅]; LTick]
              (setCharacter demo_env "B" busy_view)) as [s2|] eqn:Hx; [|vm_compute in Hx; discriminate Hx].
  exists s2. destruct (Hquiet 0 OutlineRenderer RShow _ s2 (le_n 1) Hx) as (evs & H1 & H2).
  by exists evs.
Defined.

(** C5.  The body of [quiz()] cancels the quiz the controller holds, if any,
    before it builds the new one and stores it; a call of [quiz()] with the
    data there runs this body in the next reaction; and from the constructor
    on, whatever happens, a quiz that is still active is the one the
    controller holds: there is never more than one. *)
Theorem quiz_single_instance E :
  (∀ o s,
     let s' := quiz_action o s in
     log s' = log s
              ++ match _quiz s with Some q => [EQuizCancel q] | None => [] end
              ++ [EQuizNew (length (quizzes s)) (Options.assign_obj ∅ [_options s; o])]
     ∧ _quiz s' = Some (length (quizzes s))
     ∧ quiz_active (length (quizzes s)) s' = true
     ∧ (∀ q, _quiz s = Some q → q < length (quizzes s) → quiz_active q s' = false))
  ∧ (∀ o s, micro s = [] → loadingFailed (_loadingManager s) = false →
       _withDataPromise s ∈ fulfilled s →
       exec E [LHost [StartQuiz o]; LTick] s
       = Some (quiz_action o
                 (emit (EInvoke (nextCall s))
                    (set_micro [] (set_nextCall (S (nextCall s)) s)))))
  ∧ (∀ c o, quiz_ok (HanziWriter E c o))
  ∧ (∀ ls s s', quiz_ok s → exec E ls s = Some s' →
       ∀ q1 q2, quiz_active q1 s' = true → quiz_active q2 s' = true →
                q1 = q2 ∧ _quiz s' = Some q1).
Proof.
  split_and!.
  - intros o s s'. split_and!.
    + apply quiz_action_log.
    + apply quiz_action_quiz.
    + apply quiz_action_new_active.
    + intros q. apply quiz_action_old_inactive.
  - intros o s Hm Hf Hp. cbn [exec]. unfold step at 1. cbn [foldl].
    unfold step, do_call, quiz, call_withData, _withData, then_withData, enqueue.
    fields. rewrite Hf, Hm. rewrite bool_decide_eq_true_2 by done. fields.
    unfold run_micro. fields. rewrite Hf. reflexivity.
  - apply HanziWriter_quiz_ok.
  - intros ls s s' Hok Hx q1 q2 H1 H2.
    pose proof (qmoves_ok _ _ (exec_qmoves E ls s s' Hx) Hok) as Hok'.
    apply Hok' in H1 as H1', H2. simpl in *. split; congruence.
Qed.

Lemma busy_view_quiz_ok : quiz_ok busy_view.
Proof. intros [|q]; [done|]. unfold quiz_active. simpl. by destruct q. Qed.

Lemma quiz_single_instance_witness :
  quiz_ok busy_view ∧ quiz_active 0 busy_view = true
  ∧ micro busy_view = [] ∧ loadingFailed (_loadingManager busy_view) = false
  ∧ _withDataPromise busy_view ∈ fulfilled busy_view
  ∧ ∃ s', exec demo_env [LHost [StartQuiz ∅]; LTick] busy_view = Some s'
      ∧ log s' = log busy_view ++ [EInvoke 2; EQuizCancel 0; EQuizNew 1 ∅]
      ∧ quiz_active 1 s' = true ∧ quiz_active 0 s' = false
      ∧ _quiz s' = Some 1.
Proof.
  assert (Hp : _withDataPromise busy_view ∈ fulfilled busy_view)
    by (by apply list_elem_of_singleton).
  split_and!; [exact busy_view_quiz_ok | reflexivity | reflexivity | reflexivity | exact Hp |].
  destruct (quiz_single_instance demo_env) as (Hbody & Hcall & _ & Hone).
  eexists. split; [exact (Hcall ∅ busy_view eq_refl eq_refl Hp)|].
  set (s0 := emit (EInvoke 2) (set_micro [] (set_nextCall 3 busy_view))).
  destruct (Hbody ∅ s0) as (Hlog & Hq & Hnew & Hold).
  split_and!; [exact Hlog | exact Hnew | exact (Hold 0 eq_refl (le_n 1)) |].
  exact (proj2 (Hone _ busy_view _ busy_view_quiz_ok (Hcall ∅ busy_view eq_refl eq_refl Hp)
                  1 1 Hnew Hnew)).
Defined.

(** ** Pointer input *)

Lemma canvas_listener_no_quiz m getPoint s :
  _quiz s = None → canvas_listener m getPoint s = (Returned, s).
Proof.
  intros Hq. unfold canvas_listener. rewrite Hq.
  rewrite bool_decide_eq_false_2 by (by intros [? ?]). simpl.
  by rewrite orb_true_r.
Qed.

Lemma forwardToQuiz_no_quiz m arg s : _quiz s = None → _forwardToQuiz m arg s = (Returned, s).
Proof. intros Hq. unfold _forwardToQuiz. by rewrite Hq. Qed.

(** C6.  With no quiz, every listener installed by [_setupListeners] and
    every call of [_forwardToQuiz] returns normally and leaves the controller,
    the trace of collaborator calls included, exactly as it was. *)
Theorem pointer_input_without_quiz E s :
  _quiz s = None →
  (∀ ev, dispatch E ev s = (Returned, s))
  ∧ (∀ method arg, _forwardToQuiz method arg s = (Returned, s))
  ∧ (∀ ev, micro s = [] → step E (LEvent ev) s = Some s).
Proof.
  intros Hq.
  assert (Hd : ∀ ev, dispatch E ev s = (Returned, s)).
  { intros []; simpl; auto using canvas_listener_no_quiz, forwardToQuiz_no_quiz. }
  split_and!; [done | by intros; apply forwardToQuiz_no_quiz |].
  intros ev Hm. unfold step. by rewrite Hd.
Qed.

Lemma pointer_input_without_quiz_witness :
  _quiz demo_view = None
  ∧ dispatch demo_env (touchmove []) demo_view = (Returned, demo_view).
Proof.
  split; [reflexivity|].
  exact (proj1 (pointer_input_without_quiz demo_env demo_view eq_refl) (touchmove [])).
Defined.

(** ** cancelQuiz *)

Lemma cancelQuiz_log s :
  log (cancelQuiz s) = log s ++ match _quiz s with Some q => [EQuizCancel q] | None => [] end.
Proof. unfold cancelQuiz, Quiz_cancel, emit. destruct (_quiz s); fields; by rewrite ?app_nil_r. Qed.

Lemma cancelQuiz_quizzes s :
  quizzes (cancelQuiz s)
  = match _quiz s with Some q => <[q := false]> (quizzes s) | None => quizzes s end.
Proof. unfold cancelQuiz, Quiz_cancel, emit. destruct (_quiz s); fields; done. Qed.

Lemma cancelQuiz_twice s : cancelQuiz (cancelQuiz s) = cancelQuiz s.
Proof. unfold cancelQuiz at 1. cbn [_quiz cancelQuiz set__quiz]. reflexivity. Qed.

(** C7.  [cancelQuiz] twice is [cancelQuiz] once: the first call cancels the
    quiz the controller holds, if any, and clears the reference; a call with
    a cleared reference changes nothing. *)
Theorem cancelQuiz_idempotent s :
  cancelQuiz (cancelQuiz s) = cancelQuiz s
  ∧ _quiz (cancelQuiz s) = None
  ∧ log (cancelQuiz s)
    = log s ++ match _quiz s with Some q => [EQuizCancel q] | None => [] end
  ∧ quizzes (cancelQuiz s)
    = match _quiz s with Some q => <[q := false]> (quizzes s) | None => quizzes s end.
Proof.
  split_and!; [apply cancelQuiz_twice | reflexivity | apply cancelQuiz_log
              | apply cancelQuiz_quizzes].
Qed.

(** ** Which calls touch the quiz *)

Lemma animate_quiz_view E func o s : quiz_view (_animate E func o s) = quiz_view s.
Proof. unfold quiz_view. destruct func; crush_ops; done. Qed.

Lemma animateWithData_quiz_view E func o s :
  loadingFailed (_loadingManager s) = false →
  quiz_view (_animateWithData E func o s) = quiz_view s.
Proof. intros Hf. unfold quiz_view. crush_ops; done. Qed.

Lemma animateWithData_quiz_none E func o s :
  _quiz s = None → quiz_view (_animateWithData E func o s) = (quizzes s, None).
Proof. intros Hq. unfold quiz_view. crush_ops; congruence. Qed.

Lemma animateWithData_log E func o s :
  ∃ evs, log (_animateWithData E func o s) = log s ++ evs.
Proof.
  crush_ops; rewrite <- ?app_assoc; eauto; by exists []; rewrite app_nil_r.
Qed.

Lemma cancel_then_animate E func o s :
  let s' := _animateWithData E func o (cancelQuiz s) in
  _quiz s' = None
  ∧ ∀ q, _quiz s = Some q →
      quiz_active q s' = false ∧ ∃ evs, log s' = log s ++ EQuizCancel q :: evs.
Proof.
  intros s'.
  assert (Hv : quiz_view s' = (quizzes (cancelQuiz s), None))
    by (apply animateWithData_quiz_none; reflexivity).
  pose proof (f_equal fst Hv) as Hqs. pose proof (f_equal snd Hv) as Hq.
  cbn [fst snd quiz_view] in Hqs, Hq.
  split; [done|]. intros q Hs. split.
  - unfold quiz_active. rewrite Hqs, cancelQuiz_quizzes, Hs. apply insert_false_inactive.
  - destruct (animateWithData_log E func o (cancelQuiz s)) as [evs Hl].
    exists evs. fold s' in Hl. rewrite Hl, cancelQuiz_log, Hs, <- app_assoc. done.
Qed.

Lemma failed_then_reload E func o s :
  loadingFailed (_loadingManager s) = true →
  let s' := _animateWithData E func o s in
  _quiz s' = None
  ∧ ∀ q, _quiz s = Some q →
      quiz_active q s' = false ∧ ∃ evs, log s' = log s ++ EQuizCancel q :: evs.
Proof.
  intros Hf s'. subst s'.
  unfold _animateWithData, call_withData, _withData. fields. rewrite Hf.
  unfold setCharacter, loadCharData, enqueue, emit. fields.
  split.
  - repeat case_match; simplify_eq; fields; done.
  - intros q Hq. unfold quiz_active. split.
    + repeat case_match; simplify_eq; fields; rewrite cancelQuiz_quizzes; fields;
        rewrite Hq; apply insert_false_inactive.
    + repeat case_match; simplify_eq; fields; rewrite cancelQuiz_log; fields;
        rewrite Hq, <- ?app_assoc; simpl; eauto.
Qed.

(** C10, as the code has it.  [animateCharacter] and [loopCharacterAnimation]
    cancel the quiz at once and leave the reference null.  [showCharacter],
    [hideCharacter], [showOutline] and [hideOutline] leave the quiz and the
    reference as they are provided loading has not failed; when it has, they
    go through [setCharacter], which cancels the quiz and clears the
    reference; and the animation itself, when it runs, does not touch them. *)
Theorem animation_calls_and_quiz E o s :
  (_quiz (animateCharacter E o s) = None ∧ _quiz (loopCharacterAnimation E o s) = None)
  ∧ (∀ q, _quiz s = Some q →
       (quiz_active q (animateCharacter E o s) = false
        ∧ ∃ evs, log (animateCharacter E o s) = log s ++ EQuizCancel q :: evs)
       ∧ (quiz_active q (loopCharacterAnimation E o s) = false
        ∧ ∃ evs, log (loopCharacterAnimation E o s) = log s ++ EQuizCancel q :: evs))
  ∧ (loadingFailed (_loadingManager s) = false →
       quiz_view (showCharacter E o s) = quiz_view s
       ∧ quiz_view (hideCharacter E o s) = quiz_view s
       ∧ quiz_view (showOutline E o s) = quiz_view s
       ∧ quiz_view (hideOutline E o s) = quiz_view s)
  ∧ (loadingFailed (_loadingManager s) = true →
       ∀ call, call ∈ [showCharacter E o; hideCharacter E o; showOutline E o; hideOutline E o] →
         _quiz (call s) = None
         ∧ ∀ q, _quiz s = Some q →
             quiz_active q (call s) = false
             ∧ ∃ evs, log (call s) = log s ++ EQuizCancel q :: evs)
  ∧ (∀ func, quiz_view (_animate E func o s) = quiz_view s).
Proof.
  split_and!.
  - apply (cancel_then_animate E (FRender CharacterRenderer RAnimate) o s).
  - apply (cancel_then_animate E (FLoop o) o s).
  - intros q Hq. split.
    + by apply (cancel_then_animate E (FRender CharacterRenderer RAnimate) o s).
    + by apply (cancel_then_animate E (FLoop o) o s).
  - intros Hf. split_and!; by apply animateWithData_quiz_view.
  - intros Hf call Hc.
    repeat (apply elem_of_cons in Hc as [->|Hc]); [..|by apply elem_of_nil in Hc];
      by apply failed_then_reload.
  - intros func. apply animate_quiz_view.
Qed.

(** C10 as stated fails: a quiz is held and active when the request for "B",
    the latest one, fails; [showCharacter] then reloads through
    [setCharacter] and cancels that quiz. *)
Lemma showCharacter_may_cancel_quiz :
  (s ← exec demo_env quiz_demo_trace (HanziWriter demo_env "A" ∅);
   Some (_quiz s, quiz_active 0 s, loadingFailed (_loadingManager s),
         loadCounter (_loadingManager s), micro s,
         _quiz (showCharacter demo_env ∅ s), quiz_active 0 (showCharacter demo_env ∅ s)))
  = Some (Some 0, true, true, 2, [], None, false).
Proof. vm_compute. reflexivity. Qed.

Lemma animation_calls_and_quiz_witness :
  _quiz busy_view = Some 0 ∧ quiz_active 0 busy_view = true
  ∧ loadingFailed (_loadingManager busy_view) = false
  ∧ quiz_view (showCharacter demo_env ∅ busy_view) = quiz_view busy_view
  ∧ quiz_active 0 (animateCharacter demo_env ∅ busy_view) = false
  ∧ _quiz failed_busy_view = Some 0 ∧ quiz_active 0 failed_busy_view = true
  ∧ loadingFailed (_loadingManager failed_busy_view) = true
  ∧ _quiz (hideOutline demo_env ∅ failed_busy_view) = None
  ∧ quiz_active 0 (hideOutline demo_env ∅ failed_busy_view) = false.
Proof.
  destruct (animation_calls_and_quiz demo_env ∅ busy_view) as (_ & Hc & Hk & _).
  destruct (animation_calls_and_quiz demo_env ∅ failed_busy_view) as (_ & _ & _ & Hf & _).
  assert (Hin : hideOutline demo_env ∅
                ∈ [showCharacter demo_env ∅; hideCharacter demo_env ∅;
                   showOutline demo_env ∅; hideOutline demo_env ∅])
    by (do 3 apply list_elem_of_further; apply list_elem_of_here).
  split_and!.
  - reflexivity.
  - reflexivity.
  - reflexivity.
  - exact (proj1 (Hk eq_refl)).
  - exact (proj1 (proj1 (Hc 0 eq_refl))).
  - reflexivity.
  - reflexivity.
  - reflexivity.
  - exact (proj1 (Hf eq_refl _ Hin)).
  - exact (proj1 (proj2 (Hf eq_refl _ Hin) 0 eq_refl)).
Defined.

(** ** The perpetual loop *)

Lemma loop_count_nil g : loop_count g [] = 0.
Proof. done. Qed.

Lemma loop_count_app g ms1 ms2 :
  loop_count g (ms1 ++ ms2) = loop_count g ms1 + loop_count g ms2.
Proof. unfold loop_count. by rewrite filter_app, length_app. Qed.

Lemma loop_count_cons g m ms :
  loop_count g (m :: ms)
  = (if decide (loop_gen m = Some g) then 1 else 0) + loop_count g ms.
Proof. unfold loop_count. rewrite filter_cons. by destruct (decide _). Qed.

Lemma loop_count_delete g i m ms :
  ms !! i = Some m →
  loop_count g ms = (if decide (loop_gen m = Some g) then 1 else 0) + loop_count g (delete i ms).
Proof.
  revert i. induction ms as [|m' ms IH]; intros [|i] Hi; simplify_eq/=.
  - by rewrite loop_count_cons.
  - rewrite !loop_count_cons, (IH i Hi). lia.
Qed.

Lemma loop_count_MRun g (ws : list (nat * (nat * action))) :
  loop_count g ((λ w, MRun w.2.1 w.2.2) <$> ws) = 0.
Proof.
  induction ws as [|w ws IH]; [done|]. rewrite fmap_cons, loop_count_cons, IH.
  by destruct (decide _).
Qed.

(** Normalising the counts in a goal produced by [crush_ops]. *)
Ltac loop_counts :=
  unfold pending_loop in *; fields;
  repeat match goal with
         | H : micro _ = _ |- _ => rewrite H in *
         end;
  rewrite ?loop_count_app, ?loop_count_cons, ?loop_count_MRun, ?loop_count_nil in *;
  cbn [loop_gen] in *;
  repeat match goal with
         | |- context [decide (?a = ?b)] => destruct (decide (a = b)); simplify_eq
         | H : context [decide (?a = ?b)] |- _ => destruct (decide (a = b)); simplify_eq
         end.

Lemma do_call_pending E g c s : pending_loop g (do_call E c s) = pending_loop g s.
Proof. destruct c; crush_ops; loop_counts; lia. Qed.

Lemma dispatch_pending E g ev s : pending_loop g (dispatch E ev s).2 = pending_loop g s.
Proof. destruct ev; crush_ops; loop_counts; lia. Qed.

Lemma settle_pending g k r s s' : settle k r s = Some s' → pending_loop g s' = pending_loop g s.
Proof. intros Hs. crush_ops; loop_counts; lia. Qed.

Lemma complete_pending g i s s' : complete i s = Some s' → pending_loop g s' = pending_loop g s.
Proof.
  intros Hs. unfold complete in Hs. destruct (awaiting s !! i) as [m|] eqn:Hi; [|done].
  simplify_eq. unfold pending_loop, enqueue. fields.
  rewrite loop_count_app, loop_count_cons, loop_count_nil, (loop_count_delete g i m _ Hi).
  lia.
Qed.

Lemma loop_quiet_refl g s : loop_quiet g s s.
Proof. intros Hs. split; [done | apply log_grows_refl]. Qed.

Lemma loop_quiet_trans g s1 s2 s3 : loop_quiet g s1 s2 → loop_quiet g s2 s3 → loop_quiet g s1 s3.
Proof.
  intros H12 H23 Hs. destruct (H12 Hs) as [Hs2 Hl2]. destruct (H23 Hs2) as [Hs3 Hl3].
  split; [done|]. by eapply log_grows_trans.
Qed.

(** An event that is no loop event of [g], given what is known of [g]. *)
Ltac not_loop_event_tac :=
  unfold not_loop_event, loop_event;
  let Hev := fresh "Hev" in
  intros [Hev|[? Hev]]; simplify_eq;
  rewrite ?setup_fresh, ?cancel_length in *; loop_counts; lia.

Lemma setup_length A : length (anims (Animator_setup A).2) = S (length (anims A)).
Proof. unfold Animator_setup. simpl. rewrite length_app, cancel_length. simpl. lia. Qed.

Lemma run_micro_length E m s :
  length (anims (_animator s)) ≤ length (anims (_animator (run_micro E m s))).
Proof. apply moves_length, run_micro_moves. Qed.

Lemma tick_loop_quiet E g m rest s :
  micro s = m :: rest → loop_quiet g s (run_micro E m (set_micro rest s)).
Proof.
  intros Hm [Hlt Hp]. split; [split|].
  - pose proof (run_micro_length E m (set_micro rest s)) as Hle. fields. lia.
  - destruct m; crush_ops; rewrite ?setup_fresh in *; loop_counts; lia.
  - destruct m; crush_ops; log_grows_tac; try not_loop_event_tac.
Qed.

Lemma do_call_loop_quiet E g c s : loop_quiet g s (do_call E c s).
Proof.
  intros [Hlt Hp]. split; [split|].
  - pose proof (moves_length _ _ (do_call_moves E c s)). lia.
  - by rewrite do_call_pending.
  - destruct c; crush_ops; log_grows_tac; try not_loop_event_tac.
Qed.

Lemma step_loop_quiet E g l s s' : step E l s = Some s' → loop_quiet g s s'.
Proof.
  intros Hs. apply step_inv in Hs
    as [(m & rest & -> & Hm & ->)|[(cs & -> & ->)|[(ev & -> & ->)|[(k & r & -> & Hs)|(i & -> & Hs)]]]].
  - by apply tick_loop_quiet.
  - apply (foldl_rel E (loop_quiet g)); auto using loop_quiet_refl, do_call_loop_quiet.
    intros; by eapply loop_quiet_trans.
  - intros [Hlt Hp]. split; [split|].
    + destruct ev; crush_ops; done.
    + by rewrite dispatch_pending.
    + destruct ev; crush_ops; log_grows_tac; try not_loop_event_tac.
  - intros [Hlt Hp]. split; [split|].
    + crush_ops; done.
    + by rewrite (settle_pending g k r s s' Hs).
    + crush_ops; log_grows_tac.
  - intros [Hlt Hp]. split; [split|].
    + crush_ops; done.
    + by rewrite (complete_pending g i s s' Hs).
    + crush_ops; log_grows_tac.
Qed.

(** Once stopped, the loop of a generation shows nothing more, ever. *)
Lemma exec_loop_quiet E g ls s s' : exec E ls s = Some s' → loop_quiet g s s'.
Proof.
  apply (exec_rel E (loop_quiet g)); auto using loop_quiet_refl.
  - intros; by eapply loop_quiet_trans.
  - apply step_loop_quiet.
Qed.

(** ** Each loop has one reaction *)

Lemma tick_loops_ok E m rest s :
  micro s = m :: rest → loops_ok s → loops_ok (run_micro E m (set_micro rest s)).
Proof.
  intros Hm Hok g. specialize (Hok g) as [Hle Hlt].
  destruct m; crush_ops; rewrite ?setup_fresh, ?setup_length, ?cancel_length in *;
    loop_counts; lia.
Qed.

Lemma step_loops_ok E l s s' : step E l s = Some s' → loops_ok s → loops_ok s'.
Proof.
  intros Hs. apply step_inv in Hs
    as [(m & rest & -> & Hm & ->)|[(cs & -> & ->)|[(ev & -> & ->)|[(k & r & -> & Hs)|(i & -> & Hs)]]]].
  - by apply tick_loops_ok.
  - revert s. induction cs as [|c cs IH]; intros s Hok; simpl; [done|].
    apply IH. intros g. specialize (Hok g). rewrite do_call_pending.
    pose proof (moves_length _ _ (do_call_moves E c s)). lia.
  - intros Hok g. specialize (Hok g). rewrite dispatch_pending.
    assert (_animator (dispatch E ev s).2 = _animator s) as ->
      by (destruct ev; crush_ops; done).
    done.
  - intros Hok g. specialize (Hok g). rewrite (settle_pending g k r s s' Hs).
    assert (_animator s' = _animator s) as -> by (crush_ops; done).
    done.
  - intros Hok g. specialize (Hok g). rewrite (complete_pending g i s s' Hs).
    assert (_animator s' = _animator s) as -> by (crush_ops; done).
    done.
Qed.

Lemma exec_loops_ok E ls s s' : exec E ls s = Some s' → loops_ok s → loops_ok s'.
Proof.
  revert s. induction ls as [|l ls IH]; intros s; simpl; [by intros [= ->]|].
  destruct (step E l s) as [s1|] eqn:Hl; [|done].
  intros Hx Hok. eapply IH; [done|]. by eapply step_loops_ok.
Qed.

Lemma HanziWriter_loops_ok E c o : loops_ok (HanziWriter E c o).
Proof.
  intros g. unfold HanziWriter. crush_ops; loop_counts; lia.
Qed.

(** ** The delay after a cancelled render *)

Lemma delay_count_delete g i m (ms : list microtask) :
  ms !! i = Some m →
  sum_list_with (delay_of g) ms = delay_of g m + sum_list_with (delay_of g) (delete i ms).
Proof.
  revert i. induction ms as [|m' ms IH]; intros [|i] Hi; simplify_eq/=; [done|].
  rewrite (IH i Hi). lia.
Qed.

Lemma delay_count_MRun g (ws : list (nat * (nat * action))) :
  sum_list_with (delay_of g) ((λ w, MRun w.2.1 w.2.2) <$> ws) = 0.
Proof. induction ws as [|w ws IH]; [done|]. by rewrite fmap_cons. Qed.

Lemma delay_le_loop g (ms : list microtask) : sum_list_with (delay_of g) ms ≤ loop_count g ms.
Proof.
  induction ms as [|m ms IH]; [done|]. rewrite loop_count_cons. simpl.
  destruct m; simpl; repeat case_decide; simplify_eq; lia.
Qed.

Lemma pending_delay_le g s : pending_delay g s ≤ pending_loop g s.
Proof.
  unfold pending_delay, pending_loop.
  pose proof (delay_le_loop g (micro s)). pose proof (delay_le_loop g (awaiting s)). lia.
Qed.

Lemma timeouts_app g evs1 evs2 : timeouts g (evs1 ++ evs2) = timeouts g evs1 + timeouts g evs2.
Proof. apply sum_list_with_app. Qed.

(** Normalising the counts of reactions and timers in a goal produced by
    [crush_ops]. *)
Ltac fade_counts :=
  unfold pending_delay, timeouts in *; fields;
  rewrite ?setup_fresh, ?setup_length, ?cancel_length in *;
  loop_counts;
  rewrite ?sum_list_with_app, ?delay_count_MRun in *;
  cbn [sum_list_with delay_of timeout_of] in *;
  repeat match goal with
         | |- context [decide (?a = ?b)] => destruct (decide (a = b)); simplify_eq
         | H : context [decide (?a = ?b)] |- _ => destruct (decide (a = b)); simplify_eq
         end;
  repeat match goal with
         | Hd : Animation_isActive ?g ?A = false, H : context [Animation_isActive ?g ?A] |- _ =>
             rewrite Hd in H; simpl in H
         end;
  try discriminate; try lia.

Ltac fades_log :=
  fields; rewrite <- ?app_assoc;
  first [ exists []; rewrite app_nil_r; split; [reflexivity|]
        | eexists; split; [reflexivity|] ].

Lemma loop_fades_refl g s : loop_fades g s s.
Proof.
  intros Hd. split_and!; [done..|]. exists []. rewrite app_nil_r. split; [done|]. simpl.
  unfold timeouts. simpl. lia.
Qed.

Lemma loop_fades_trans g s1 s2 s3 : loop_fades g s1 s2 → loop_fades g s2 s3 → loop_fades g s1 s3.
Proof.
  intros H12 H23 Hd. destruct (H12 Hd) as (Hd2 & Hp2 & evs2 & Hl2 & Hc2).
  destruct (H23 Hd2) as (Hd3 & Hp3 & evs3 & Hl3 & Hc3).
  split_and!; [done | lia |]. exists (evs2 ++ evs3).
  rewrite Hl3, Hl2, <- app_assoc, timeouts_app. split; [done|lia].
Qed.

Lemma tick_loop_fades E g m rest s :
  micro s = m :: rest → loop_fades g s (run_micro E m (set_micro rest s)).
Proof.
  intros Hm Hd. split.
  { apply (moves_dead g _ _ (run_micro_moves E m (set_micro rest s))). by fields. }
  destruct Hd as [Hlt Hd]. split.
  - destruct m; crush_ops; fade_counts.
  - destruct m; crush_ops; fades_log; fade_counts.
Qed.

Lemma do_call_loop_fades E g c s : loop_fades g s (do_call E c s).
Proof.
  intros Hd. split; [eapply moves_dead; eauto using do_call_moves|].
  destruct Hd as [Hlt Hd]. split.
  - by rewrite do_call_pending.
  - destruct c; crush_ops; fades_log; fade_counts.
Qed.

Lemma step_loop_fades E g l s s' : step E l s = Some s' → loop_fades g s s'.
Proof.
  intros Hs. apply step_inv in Hs
    as [(m & rest & -> & Hm & ->)|[(cs & -> & ->)|[(ev & -> & ->)|[(k & r & -> & Hs)|(i & -> & Hs)]]]].
  - by apply tick_loop_fades.
  - apply (foldl_rel E (loop_fades g)); auto using loop_fades_refl, do_call_loop_fades.
    intros; by eapply loop_fades_trans.
  - intros Hd. split_and!.
    + assert (_animator (dispatch E ev s).2 = _animator s) as ->
        by (destruct ev; crush_ops; done).
      done.
    + by rewrite dispatch_pending.
    + destruct ev; crush_ops; fades_log; fade_counts.
  - intros Hd. split_and!.
    + assert (_animator s' = _animator s) as -> by (crush_ops; done). done.
    + by rewrite (settle_pending g k r s s' Hs).
    + crush_ops; fades_log; fade_counts.
  - intros Hd. split_and!.
    + assert (_animator s' = _animator s) as -> by (crush_ops; done). done.
    + by rewrite (complete_pending g i s s' Hs).
    + unfold complete in Hs. destruct (awaiting s !! i) as [m|] eqn:Hi; [|done].
      simplify_eq. exists []. rewrite app_nil_r. split; [done|].
      unfold pending_delay, enqueue, timeouts. fields.
      rewrite sum_list_with_app, (delay_count_delete g i m _ Hi). simpl. lia.
Qed.

(** The loop of a dead generation fades, whatever happens. *)
Lemma exec_loop_fades E g ls s s' : exec E ls s = Some s' → loop_fades g s s'.
Proof.
  apply (exec_rel E (loop_fades g)); auto using loop_fades_refl.
  - intros; by eapply loop_fades_trans.
  - apply step_loop_fades.
Qed.

(** ** The loop's continuation *)

Lemma animateForever_inactive E o g s :
  Animation_isActive g (_animator s) = false → animateForever E o g s = (LNull, s).
Proof. intros Hg. unfold animateForever. by rewrite Hg. Qed.

Lemma animateForever_active E o g s :
  Animation_isActive g (_animator s) = true → is_Some (_characterRenderer s) →
  animateForever E o g s =
    if render_promise E (length (log s))
    then (LPromise,
          await (MLoopDelay g o
                   (prop (Options.assign_obj ∅ [_options s; o]) "delayBetweenLoops"))
            (emit (EEffect CharacterRenderer RAnimate g) s))
    else (LNull, emit (EEffect CharacterRenderer RAnimate g) s).
Proof. intros Hg [r Hr]. unfold animateForever. by rewrite Hg, Hr. Qed.

Lemma animateForever_null_pending E o g g' s :
  (animateForever E o g s).1 = LNull →
  pending_loop g' (animateForever E o g s).2 = pending_loop g' s
  ∧ _animator (animateForever E o g s).2 = _animator s.
Proof.
  unfold animateForever.
  destruct (negb _); [done|]. destruct (_characterRenderer s); [|done].
  destruct (render_promise _ _); done.
Qed.

(** C2 as stated fails.  On [busy_view] a loop starts (generation 1) and
    renders; [setCharacter] cancels the generation while the render is under
    way; when the render ends, the loop still starts its timer. *)
Lemma cancelled_loop_still_delays :
  (s1 ← exec demo_env [LHost [LoopCharacterAnimation ∅]; LTick; LHost [SetCharacter "B"]]
          busy_view;
   s2 ← exec demo_env [LDone 0; LTick] s1;
   Some (awaiting s1, Animation_isActive 1 (_animator s1),
         drop (length (log s1)) (log s2), awaiting s2))
  = Some ([MLoopDelay 1 ∅ VUndef], false, [ETimeout 1 VUndef], [MLoopNext 1 ∅]).
Proof. vm_compute. reflexivity. Qed.

(** C2, as the code has it.  [animateForever] tests [animation.isActive()]
    before anything else: on an invalid generation it returns null and does
    nothing; on a valid one it asks the renderer once and, without a promise,
    returns null, with one, leaves the delay and the next iteration to the
    promise.  When a re-invoked continuation returns null, no reaction of
    that loop is left, and from then on it never renders or delays again.
    The delay callback makes no test: once a generation is cancelled, its
    loop never renders again and gets no new reaction, but it starts a timer
    for each delay callback that was waiting, and that is at most one.  The
    side condition, one reaction per loop, holds in every state reached from
    the constructor. *)
Theorem loop_checks_generation E o g s :
  (Animation_isActive g (_animator s) = false → animateForever E o g s = (LNull, s))
  ∧ (Animation_isActive g (_animator s) = true → is_Some (_characterRenderer s) →
     animateForever E o g s =
       if render_promise E (length (log s))
       then (LPromise,
             await (MLoopDelay g o
                      (prop (Options.assign_obj ∅ [_options s; o]) "delayBetweenLoops"))
               (emit (EEffect CharacterRenderer RAnimate g) s))
       else (LNull, emit (EEffect CharacterRenderer RAnimate g) s))
  ∧ (∀ rest s1 ls s2,
       loops_ok s → micro s = MLoopNext g o :: rest →
       step E LTick s = Some s1 →
       (animateForever E o g (set_micro rest s)).1 = LNull →
       exec E ls s1 = Some s2 →
       pending_loop g s1 = 0 ∧ pending_loop g s2 = 0
       ∧ ∃ evs, log s2 = log s1 ++ evs ∧ ∀ e, e ∈ evs → ¬ loop_event g e)
  ∧ (∀ ls s2,
       loops_ok s → dead g (_animator s) → exec E ls s = Some s2 →
       dead g (_animator s2)
       ∧ pending_loop g s2 ≤ pending_loop g s
       ∧ pending_delay g s ≤ 1
       ∧ ∃ evs, log s2 = log s ++ evs
           ∧ (∀ f m, EEffect f m g ∉ evs)
           ∧ timeouts g evs + pending_delay g s2 ≤ pending_delay g s)
  ∧ (∀ c o' ls s0, exec E ls (HanziWriter E c o') = Some s0 → loops_ok s0).
Proof.
  split_and!; [apply animateForever_inactive | apply animateForever_active | | |].
  3:{ intros c o' ls s0 Hx.
      by apply (exec_loops_ok E ls _ s0 Hx), HanziWriter_loops_ok. }
  2:{ intros ls s2 Hok Hd Hx.
      destruct (exec_loop_fades E g ls s s2 Hx Hd) as (Hd2 & Hp & evs & Hl & Hc).
      destruct (exec_silent E g ls s s2 Hx Hd) as (_ & evs' & Hl' & Hall).
      assert (evs' = evs) as -> by (rewrite Hl in Hl'; by apply app_inv_head in Hl').
      split_and!; [done | done | |].
      - pose proof (pending_delay_le g s). destruct (Hok g). lia.
      - exists evs. split_and!; [done | | done].
        intros f m Hin. rewrite Forall_forall in Hall. by apply (Hall _ Hin f m). }
  intros rest s1 ls s2 Hok Hm Hstep Hnull Hx.
  unfold step in Hstep. rewrite Hm in Hstep. simplify_eq.
  cbn [run_micro] in Hx |- *.
  destruct (animateForever_null_pending E o g g _ Hnull) as [Hp HA].
  assert (Hs1 : stopped g (animateForever E o g (set_micro rest s)).2).
  { destruct (Hok g) as [Hle Hlt]. unfold pending_loop in Hle, Hlt.
    rewrite Hm, loop_count_cons in Hle, Hlt. cbn [loop_gen] in Hle, Hlt.
    rewrite decide_True in Hle, Hlt by done.
    split.
    - rewrite HA. fields. apply Hlt. lia.
    - rewrite Hp. unfold pending_loop. fields. lia. }
  destruct (exec_loop_quiet E g ls _ s2 Hx Hs1) as ([_ Hp2] & evs & Hl & Hall).
  split_and!; [apply Hs1 | done |].
  exists evs. split; [done|]. intros e He. rewrite Forall_forall in Hall. by apply Hall.
Qed.

Lemma cancelled_loop_view_ok : loops_ok cancelled_loop_view.
Proof.
  intros g. unfold pending_loop. cbn [cancelled_loop_view micro awaiting _animator anims].
  rewrite loop_count_cons, !loop_count_nil. cbn [loop_gen].
  destruct (decide (Some 0 = Some g)) as [[= <-]|]; simpl; lia.
Qed.

Lemma cancelled_render_view_ok : loops_ok cancelled_render_view.
Proof.
  intros g. unfold pending_loop. cbn [cancelled_render_view micro awaiting _animator anims].
  rewrite loop_count_cons, !loop_count_nil. cbn [loop_gen].
  destruct (decide (Some 0 = Some g)) as [[= <-]|]; simpl; lia.
Qed.

Lemma loop_checks_generation_witness :
  (loops_ok cancelled_loop_view
   ∧ micro cancelled_loop_view = [MLoopNext 0 ∅]
   ∧ step demo_env LTick cancelled_loop_view = Some (set_micro [] cancelled_loop_view)
   ∧ (animateForever demo_env ∅ 0 (set_micro [] cancelled_loop_view)).1 = LNull
   ∧ pending_loop 0 (set_micro [] cancelled_loop_view) = 0)
  ∧ (loops_ok cancelled_render_view
     ∧ dead 0 (_animator cancelled_render_view)
     ∧ pending_delay 0 cancelled_render_view = 1
     ∧ ∃ s2, exec demo_env [LDone 0; LTick; LDone 0; LTick] cancelled_render_view = Some s2
         ∧ pending_loop 0 s2 ≤ pending_loop 0 cancelled_render_view
         ∧ ∃ evs, log s2 = log cancelled_render_view ++ evs
             ∧ (EEffect CharacterRenderer RAnimate 0 ∉ evs)
             ∧ timeouts 0 evs + pending_delay 0 s2 ≤ pending_delay 0 cancelled_render_view)
  ∧ (Animation_isActive 0 (_animator cancelled_render_view) = false
     ∧ animateForever demo_env ∅ 0 cancelled_render_view = (LNull, cancelled_render_view))
  ∧ (Animation_isActive 0 (_animator busy_view) = true
     ∧ is_Some (_characterRenderer busy_view)
     ∧ animateForever demo_env ∅ 0 busy_view
       = (LPromise, await (MLoopDelay 0 ∅ VUndef)
                      (emit (EEffect CharacterRenderer RAnimate 0) busy_view)))
  ∧ ∃ s, exec demo_env [LSettle 0 (Some ["M 0 0 L 10 10"]); LTick; LTick;
                        LHost [LoopCharacterAnimation ∅]; LTick]
           (HanziWriter demo_env "A" ∅) = Some s
      ∧ loops_ok s.
Proof.
  split; [|split; [|split; [|split]]].
  - split_and!; [exact cancelled_loop_view_ok | reflexivity | reflexivity | reflexivity |].
    exact (proj1 (proj1 (proj2 (proj2 (loop_checks_generation demo_env ∅ 0
                                         cancelled_loop_view)))
                    [] (set_micro [] cancelled_loop_view) []
                    (set_micro [] cancelled_loop_view)
                    cancelled_loop_view_ok eq_refl eq_refl eq_refl eq_refl)).
  - assert (Hd : dead 0 (_animator cancelled_render_view)) by (split; [apply le_n | reflexivity]).
    split_and!; [exact cancelled_render_view_ok | exact Hd | reflexivity |].
    destruct (exec demo_env [LDone 0; LTick; LDone 0; LTick] cancelled_render_view)
      as [s2|] eqn:Hx; [|vm_compute in Hx; discriminate Hx].
    exists s2. split; [reflexivity|].
    destruct (proj1 (proj2 (proj2 (proj2 (loop_checks_generation demo_env ∅ 0
                                            cancelled_render_view))))
                _ s2 cancelled_render_view_ok Hd Hx)
      as (_ & Hp & _ & evs & Hl & Hq & Hc).
    split; [exact Hp|]. exists evs. split_and!; [exact Hl | exact (Hq _ _) | exact Hc].
  - split; [reflexivity|].
    exact (proj1 (loop_checks_generation demo_env ∅ 0 cancelled_render_view) eq_refl).
  - assert (Hr : is_Some (_characterRenderer busy_view)) by (by exists 0).
    split; [reflexivity|]. split; [exact Hr|].
    exact (proj1 (proj2 (loop_checks_generation demo_env ∅ 0 busy_view)) eq_refl Hr).
  - destruct (runs_Some (exec demo_env [LSettle 0 (Some ["M 0 0 L 10 10"]); LTick; LTick;
                                        LHost [LoopCharacterAnimation ∅]; LTick]
                           (HanziWriter demo_env "A" ∅))) as [s Hx];
      [vm_compute; reflexivity|].
    exists s. split; [exact Hx|].
    exact (proj2 (proj2 (proj2 (proj2 (loop_checks_generation demo_env ∅ 0 busy_view))))
             "A" ∅ _ s Hx).
Defined.

(** ** Failed loads *)

(** Membership in the lists that [crush_ops] leaves behind. *)
Ltac member_tac :=
  intros;
  repeat match goal with
         | H : _ ∈ _ ++ _ |- _ => apply elem_of_app in H as [H|H]
         | H : _ ∈ _ :: _ |- _ => apply elem_of_cons in H as [H|H]
         | H : _ ∈ [] |- _ => by apply elem_of_nil in H
         | Hnil : ?l = [], H : _ ∈ ?l |- _ => rewrite Hnil in H; by apply elem_of_nil in H
         | H : _ ∈ _ <$> _ |- _ => apply list_elem_of_fmap in H as (? & ? & H)
         | H : _ ∈ filter _ _ |- _ => apply list_elem_of_filter in H as [? H]
         | H : _ ∈ delete _ _ |- _ => apply list_elem_of_delete_inv in H
         | H : _ ∉ _ |- _ => unfold not in H
         | |- _ ∉ _ => intros ?
         end;
  simplify_eq.

(** The head of the queue is about to run: what is known of the queue is
    split into what is known of its head and of the rest. *)
Ltac pop_micro Hm :=
  repeat match goal with
         | H : context [micro ?s] |- _ =>
             lazymatch H with Hm => fail | _ => idtac end;
             rewrite Hm in H; setoid_rewrite elem_of_cons in H
         end.

Lemma do_call_no_then E c s : no_then_queued s → no_then_queued (do_call E c s).
Proof.
  unfold no_then_queued, awaiting_ok. intros [Hm Ha].
  destruct c; crush_ops; (split; member_tac; naive_solver).
Qed.

Lemma no_then_failure_on_record s : no_then_queued s → failure_on_record s.
Proof. intros [Hm Ha]. split; [|done]. intros k c Hin. by apply Hm in Hin. Qed.

Lemma tick_failure_on_record E m rest s :
  micro s = m :: rest → failure_on_record s →
  failure_on_record (run_micro E m (set_micro rest s)).
Proof.
  unfold failure_on_record, awaiting_ok, failed. intros Hm [Hf Ha]. pop_micro Hm.
  destruct m; crush_ops; (split; member_tac; naive_solver).
Qed.

Lemma foldl_no_then E cs s :
  no_then_queued s → no_then_queued (foldl (λ s c, do_call E c s) s cs).
Proof.
  revert s. induction cs as [|c cs IH]; intros s Hs; simpl; [done|].
  by apply IH, do_call_no_then.
Qed.

Lemma task_step_inv E l s s' :
  task_step E l s = Some s' →
  (∃ m rest, l = LTick ∧ micro s = m :: rest ∧ s' = run_micro E m (set_micro rest s))
  ∨ (∃ cs, l = LHost cs ∧ micro s = [] ∧ s' = foldl (λ s c, do_call E c s) s cs)
  ∨ (∃ ev, l = LEvent ev ∧ s' = (dispatch E ev s).2)
  ∨ (∃ k r, l = LSettle k r ∧ settle k r s = Some s')
  ∨ (∃ i, l = LDone i ∧ complete i s = Some s').
Proof.
  unfold task_step, step. destruct l; destruct (micro s) eqn:Hm; intros; simplify_eq; eauto 10.
Qed.

Lemma task_step_step E l s s' : task_step E l s = Some s' → step E l s = Some s'.
Proof. unfold task_step. destruct l; try done. by destruct (micro s). Qed.

Lemma task_exec_exec E ls s s' : task_exec E ls s = Some s' → exec E ls s = Some s'.
Proof.
  revert s. induction ls as [|l ls IH]; intros s; simpl; [done|].
  destruct (task_step E l s) as [s1|] eqn:Hl; [|done].
  rewrite (task_step_step E l s s1 Hl). apply IH.
Qed.

Lemma task_exec_app E ls1 ls2 s :
  task_exec E (ls1 ++ ls2) s = s1 ← task_exec E ls1 s; task_exec E ls2 s1.
Proof.
  revert s. induction ls1 as [|l ls1 IH]; intros s; simpl; [done|].
  destruct (task_step E l s); simpl; [apply IH | done].
Qed.

Lemma step_failure_on_record E l s s' :
  task_step E l s = Some s' → failure_on_record s → failure_on_record s'.
Proof.
  intros Hs Hf. apply task_step_inv in Hs
    as [(m & rest & -> & Hm & ->)|[(cs & -> & Hm & ->)|[(ev & -> & ->)|[(k & r & -> & Hs)|(i & -> & Hs)]]]].
  - by apply tick_failure_on_record.
  - apply no_then_failure_on_record, foldl_no_then. destruct Hf as [_ Ha].
    split; [|done]. intros k c r. rewrite Hm. apply not_elem_of_nil.
  - revert Hf. unfold failure_on_record, awaiting_ok, failed.
    destruct ev; crush_ops; done.
  - revert Hf. unfold failure_on_record, awaiting_ok, failed. intros [Hf Ha].
    crush_ops; (split; member_tac; naive_solver).
  - revert Hf. unfold failure_on_record, awaiting_ok, failed. intros [Hf Ha].
    unfold complete in Hs. destruct (awaiting s !! i) as [m|] eqn:Hi; [|done].
    simplify_eq. unfold enqueue. fields. split.
    + intros k c Hin. apply elem_of_app in Hin as [Hin|Hin]; [by eapply Hf|].
      apply list_elem_of_singleton in Hin as <-.
      apply list_elem_of_lookup_2, Ha in Hi. by destruct Hi.
    + intros m' Hin. by apply list_elem_of_delete_inv, Ha in Hin.
Qed.

Lemma exec_failure_on_record E ls s s' :
  task_exec E ls s = Some s' → failure_on_record s → failure_on_record s'.
Proof.
  revert s. induction ls as [|l ls IH]; intros s; simpl; [by intros [= ->]|].
  destruct (task_step E l s) as [s1|] eqn:Hl; [|done].
  intros Hx Hok. eapply IH; [done|]. by eapply step_failure_on_record.
Qed.

Lemma HanziWriter_failure_on_record E c o : failure_on_record (HanziWriter E c o).
Proof.
  unfold failure_on_record, awaiting_ok, failed, HanziWriter.
  crush_ops; (split; member_tac).
Qed.

(** What the [then] callback of [setCharacter] does once the failure is on
    record: nothing but let the promise be fulfilled. *)
Lemma then_callback_after_failure E k c r s :
  failed s = true →
  let s' := run_micro E (MSetCharThen k c r) s in
  k ∈ fulfilled s' ∧ log s' = log s
  ∧ _character s' = _character s ∧ _positioner s' = _positioner s
  ∧ _stateManager s' = _stateManager s
  ∧ _hanziWriterRenderer s' = _hanziWriterRenderer s.
Proof.
  unfold failed. intros Hf. cbn [run_micro]. unfold setCharacter_then, fulfil.
  rewrite Hf. fields. split_and!; try done. apply elem_of_cons. by left.
Qed.

(** ** An action requested while loading had failed *)


Ltac guard_prep :=
  unfold call_guard, host_guard, guard_core, ids_fresh, awaiting_ok, failed, requests in *.

Lemma guard_view_eq a k0 s s' : guard_view s = guard_view s' → call_guard a k0 s → call_guard a k0 s'.
Proof.
  unfold guard_view. intros [= Hn Hp HL Hf Hw Hm Ha]. guard_prep.
  by rewrite Hn, Hp, HL, Hf, Hw, Hm, Ha.
Qed.

Lemma host_guard_view_eq a k0 s s' :
  guard_view s = guard_view s' → host_guard a k0 s → host_guard a k0 s'.
Proof.
  unfold guard_view. intros [= Hn Hp HL Hf Hw Hm Ha]. guard_prep.
  by rewrite Hn, Hp, HL, Hf, Hw, Hm, Ha.
Qed.

(** Reactions that only render, delay or build leave that part alone, up to
    one more loop reaction waiting. *)
Lemma run_action_view E act s :
  ∃ new, Forall (λ m, is_Some (loop_gen m)) new
    ∧ guard_view (run_action E act s)
      = (nextCall s, _withDataPromise s, _loadingManager s, fulfilled s, waiters s, micro s,
         awaiting s ++ new).
Proof.
  unfold guard_view.
  destruct act as [o|[f m|o'] o]; crush_ops;
    first [ by (exists []; rewrite app_nil_r) | eexists [_]; split; [|done]; by repeat constructor ].
Qed.

(** What is known of the queue, split between its head and the rest. *)
Lemma guard_pop a k0 m rest s :
  micro s = m :: rest → call_guard a k0 s →
  call_guard a k0 (set_micro rest s)
  ∧ match m with
    | MLoaded k _ r => k < requests s ∧ (k0 ≤ k → r = None)
    | MSetCharThen k _ r =>
        k < requests s ∧ (k0 ≤ k → r = None) ∧ (r = None → failed s = true)
    | MRun id _ => id = a → failed s = true
    | _ => True
    end.
Proof.
  intros Hm. guard_prep. fields. rewrite Hm.
  intros (Hcore & HL & HT & HR). split_and!; try tauto.
  - intros k c r Hin. apply (HL k c r). by right.
  - intros k c r Hin. apply (HT k c r). by right.
  - intros act Hin. apply (HR act). by right.
  - destruct m; try done.
    + eapply HL. by left.
    + eapply HT. by left.
    + intros ->. eapply HR. by left.
Qed.

Lemma guard_await a k0 m s : is_Some (loop_gen m) → call_guard a k0 s → call_guard a k0 (await m s).
Proof.
  intros Hl. guard_prep. unfold await. fields.
  intros ((Ha & Hk1 & Hk2 & Hful & Hout & Hw & Hcur & Haw) & HL & HT & HR).
  split_and!; try done. intros x [Hx| ->%list_elem_of_singleton]%elem_of_app; auto.
Qed.

Lemma run_loaded_guard E a k0 k c r s :
  k < requests s → (k0 ≤ k → r = None) → call_guard a k0 s →
  call_guard a k0 (run_micro E (MLoaded k c r) s).
Proof.
  intros Hk Hr. guard_prep.
  intros ((Ha & Hk1 & Hk2 & Hful & Hout & Hw & Hcur & Haw) & HL & HT & HR).
  destruct r as [d|]; crush_ops; split_and!; try done; member_tac;
    try solve [ eauto | naive_solver ].
Qed.

Lemma guard_awaiting_more a k0 s s' new :
  Forall (λ m, is_Some (loop_gen m)) new →
  guard_view s'
  = (nextCall s, _withDataPromise s, _loadingManager s, fulfilled s, waiters s, micro s,
     awaiting s ++ new) →
  call_guard a k0 s → call_guard a k0 s'.
Proof.
  unfold guard_view. intros Hnew [= Hn Hp HL Hf Hw Hm Ha]. guard_prep.
  rewrite Hn, Hp, HL, Hf, Hw, Hm, Ha.
  intros ((? & ? & ? & ? & ? & ? & ? & Haw) & ? & ? & ?). split_and!; try done.
  intros x [Hx|Hx]%elem_of_app; [auto|]. rewrite Forall_forall in Hnew. auto.
Qed.

Lemma run_then_guard E a k0 k c r s :
  k < requests s → (k0 ≤ k → r = None) → (r = None → failed s = true) →
  call_guard a k0 s → call_guard a k0 (run_micro E (MSetCharThen k c r) s).
Proof.
  intros Hk Hr HF. guard_prep.
  intros ((Ha & Hk1 & Hk2 & Hful & Hout & Hw & Hcur & Haw) & HL & HT & HR).
  cbn [run_micro]. unfold fulfil.
  assert (Hview : guard_view (setCharacter_then k c r s) = guard_view s)
    by (unfold guard_view; crush_ops; done).
  unfold guard_view in Hview. injection Hview as Hv1 Hv2 Hv3 Hv4 Hv5 Hv6 Hv7.
  fields. rewrite ?Hv1, ?Hv2, ?Hv3, ?Hv4, ?Hv5, ?Hv6, ?Hv7. split_and!; try done; member_tac;
    repeat match goal with x : (_ * _)%type |- _ => destruct x end; simplify_eq/=;
    try solve [ eauto | naive_solver ].
Qed.

Lemma run_retry_guard E a k0 id act s :
  call_guard a k0 s → call_guard a k0 (run_micro E (MRetry id act) s).
Proof.
  guard_prep.
  intros ((Ha & Hk1 & Hk2 & Hful & Hout & Hw & Hcur & Haw) & HL & HT & HR).
  crush_ops; split_and!; try done; member_tac;
    repeat match goal with
           | H : bool_decide _ = true |- _ => apply bool_decide_eq_true in H
           | H : bool_decide _ = false |- _ => apply bool_decide_eq_false in H
           end;
    try solve [ eauto | naive_solver ].
Qed.

Lemma run_run_guard E a k0 id act s :
  call_guard a k0 s → call_guard a k0 (run_micro E (MRun id act) s).
Proof.
  intros Hg. cbn [run_micro]. destruct (negb _); [|done].
  destruct (run_action_view E act (emit (EInvoke id) s)) as (new & Hnew & Hview).
  by eapply guard_awaiting_more.
Qed.

Lemma run_loop_guard E a k0 m s :
  is_Some (loop_gen m) → call_guard a k0 s → call_guard a k0 (run_micro E m s).
Proof.
  intros [g Hg] Hgd. destruct m; simplify_eq/=.
  - by apply guard_await.
  - unfold animateForever. destruct (negb _); [done|].
    destruct (_characterRenderer s); [|done].
    destruct (render_promise _ _); [|done]. by apply guard_await.
Qed.

Lemma tick_guard E a k0 m rest s :
  micro s = m :: rest → call_guard a k0 s → call_guard a k0 (run_micro E m (set_micro rest s)).
Proof.
  intros Hm Hg. destruct (guard_pop a k0 m rest s Hm Hg) as [Hg' Hhead].
  destruct m.
  - destruct Hhead. by apply run_loaded_guard.
  - destruct Hhead as (? & ? & ?). by apply run_then_guard.
  - by apply run_retry_guard.
  - by apply run_run_guard.
  - by apply run_loop_guard.
  - by apply run_loop_guard.
Qed.

(** ** Between reactions *)

(** Forward chaining: what the invariants say of the members at hand. *)
Ltac learn H :=
  let T := type of H in
  lazymatch goal with
  | _ : T |- _ => fail
  | _ => pose proof H
  end.

Ltac saturate :=
  repeat match goal with
         | Hin : _ ∈ _, Hall : _ |- _ =>
             first [ learn (Hall Hin) | learn (Hall _ Hin) | learn (Hall _ _ Hin)
                   | learn (Hall _ _ _ Hin) ]
         end.

Ltac guard_finish :=
  split_and!; try done; member_tac;
  repeat match goal with
         | H : bool_decide _ = true |- _ => apply bool_decide_eq_true in H
         | H : bool_decide _ = false |- _ => apply bool_decide_eq_false in H
         | x : (_ * _)%type |- _ => destruct x
         end;
  simplify_eq/=;
  try match goal with H : is_Some None |- _ => by destruct H end;
  try solve [ lia | eauto | saturate; simpl in *; intuition (try lia; try congruence; eauto) ].

Lemma settle_guard a k0 k r s s' :
  (∀ d, r = Some d → k < k0) →
  settle k r s = Some s' → call_guard a k0 s → call_guard a k0 s'.
Proof.
  intros Hr Hs. unfold settle in Hs.
  destruct (list_find _ _) as [[i [k' c]]|] eqn:Hfind; [|done]. simplify_eq.
  apply list_find_Some in Hfind as (Hi & Hk & _). simpl in Hk. subst k'.
  apply list_elem_of_lookup_2 in Hi.
  guard_prep. unfold enqueue. fields.
  intros ((Ha & Hk1 & Hk2 & Hful & Hout & Hw & Hcur & Haw) & HL & HT & HR).
  pose proof (Hout _ Hi) as Hlt. simpl in Hlt.
  guard_finish.
  split; [done|]. destruct r as [d|]; [|done]. specialize (Hr d eq_refl). lia.
Qed.

Lemma complete_guard a k0 i s s' :
  complete i s = Some s' → call_guard a k0 s → call_guard a k0 s'.
Proof.
  intros Hs. unfold complete in Hs.
  destruct (awaiting s !! i) as [m|] eqn:Hi; [|done]. simplify_eq.
  apply list_elem_of_lookup_2 in Hi.
  guard_prep. unfold enqueue. fields.
  intros ((Ha & Hk1 & Hk2 & Hful & Hout & Hw & Hcur & Haw) & HL & HT & HR).
  specialize (Haw _ Hi) as Hloop.
  guard_finish.
Qed.

Lemma dispatch_guard E a k0 ev s : call_guard a k0 s → call_guard a k0 (dispatch E ev s).2.
Proof.
  apply guard_view_eq. unfold guard_view. destruct ev; crush_ops; done.
Qed.

Lemma guard_host a k0 s : micro s = [] → call_guard a k0 s → host_guard a k0 s.
Proof.
  intros Hm. guard_prep. rewrite Hm.
  intros ((Ha & Hk1 & Hk2 & Hful & Hout & Hw & Hcur & Haw) & _). guard_finish.
Qed.

Lemma host_guard_guard a k0 s : host_guard a k0 s → call_guard a k0 s.
Proof.
  guard_prep. intros (Hcore & HL & HT & HR). split_and!; try tauto.
  - intros k c r Hin. destruct (HL k c r Hin) as [? ->]. done.
  - intros k c r Hin. by apply HT in Hin.
  - intros act Hin. by apply HR in Hin.
Qed.

Lemma cancelQuiz_host_guard a k0 s : host_guard a k0 s → host_guard a k0 (cancelQuiz s).
Proof. apply host_guard_view_eq. unfold guard_view. crush_ops; done. Qed.

Lemma setCharacter_host_guard E a k0 c s :
  host_guard a k0 s → host_guard a k0 (setCharacter E c s).
Proof.
  guard_prep.
  intros ((Ha & Hk1 & Hk2 & Hful & Hout & Hw & Hcur & Haw) & HL & HT & HR).
  crush_ops; guard_finish.
Qed.

Lemma enqueue_retry_host_guard a k0 id act s :
  host_guard a k0 s → host_guard a k0 (enqueue (MRetry id act) s).
Proof.
  guard_prep. unfold enqueue. fields.
  intros ((Ha & Hk1 & Hk2 & Hful & Hout & Hw & Hcur & Haw) & HL & HT & HR).
  guard_finish.
Qed.

Lemma then_withData_host_guard a k0 id act s :
  id ≠ a → host_guard a k0 s → host_guard a k0 (then_withData id act s).
Proof.
  intros Hne. guard_prep.
  intros ((Ha & Hk1 & Hk2 & Hful & Hout & Hw & Hcur & Haw) & HL & HT & HR).
  crush_ops; guard_finish.
Qed.

Lemma withData_host_guard E a k0 id act s :
  id ≠ a → host_guard a k0 s → host_guard a k0 (_withData E id act s).
Proof.
  intros Hne Hg. unfold _withData. destruct (loadingFailed _).
  - by apply enqueue_retry_host_guard, setCharacter_host_guard.
  - by apply then_withData_host_guard.
Qed.

Lemma next_call_host_guard a k0 s :
  host_guard a k0 s → host_guard a k0 (set_nextCall (S (nextCall s)) s).
Proof.
  guard_prep. fields. intros ((Ha & Hcore) & Hmicro). split_and!; try tauto. lia.
Qed.

Lemma call_withData_host_guard E a k0 act s :
  host_guard a k0 s → host_guard a k0 (call_withData E act s).
Proof.
  intros Hg. unfold call_withData. apply withData_host_guard.
  - destruct Hg as [[Ha _] _]. lia.
  - by apply next_call_host_guard.
Qed.

Lemma do_call_host_guard E a k0 c s :
  host_guard a k0 s → host_guard a k0 (do_call E c s).
Proof.
  intros Hg.
  destruct c; cbn [do_call]; unfold showCharacter, hideCharacter, animateCharacter,
    loopCharacterAnimation, showOutline, hideOutline, quiz, _animateWithData;
    auto using call_withData_host_guard, cancelQuiz_host_guard, setCharacter_host_guard.
Qed.

Lemma foldl_host_guard E a k0 cs s :
  host_guard a k0 s → host_guard a k0 (foldl (λ s c, do_call E c s) s cs).
Proof.
  revert s. induction cs as [|c cs IH]; intros s Hg; simpl; [done|].
  by apply IH, do_call_host_guard.
Qed.

(** The call itself: loading has failed, so [_withData] reloads and defers. *)
Lemma failed_withData_host_guard E act s :
  ids_fresh s → micro s = [] → failed s = true →
  host_guard (nextCall s) (requests s) (call_withData E act s).
Proof.
  intros Hfresh Hm Hf. unfold call_withData, _withData.
  unfold failed in Hf. fields. rewrite Hf.
  revert Hfresh. guard_prep. intros (Hful & Hout & Hw & Haw).
  crush_ops; guard_finish.
Qed.

Lemma cancelQuiz_ids_fresh s : ids_fresh s → ids_fresh (cancelQuiz s).
Proof. guard_prep. crush_ops; done. Qed.

Lemma failed_cancel_withData_host_guard E act s :
  ids_fresh s → micro s = [] → failed s = true →
  host_guard (nextCall s) (requests s) (call_withData E act (cancelQuiz s)).
Proof.
  intros Hfresh Hm Hf.
  assert (Hv1 : nextCall (cancelQuiz s) = nextCall s) by (crush_ops; done).
  assert (Hv2 : _loadingManager (cancelQuiz s) = _loadingManager s) by (crush_ops; done).
  assert (Hv3 : micro (cancelQuiz s) = micro s) by (crush_ops; done).
  pose proof (failed_withData_host_guard E act (cancelQuiz s)) as Hg.
  unfold failed, requests in *. rewrite Hv1, Hv2, Hv3 in Hg.
  apply Hg; [by apply cancelQuiz_ids_fresh | done | done].
Qed.

Lemma failed_call_host_guard E c s :
  with_data_call c → ids_fresh s → micro s = [] → failed s = true →
  host_guard (nextCall s) (requests s) (do_call E c s).
Proof.
  intros Hc Hfresh Hm Hf.
  destruct c; try done; cbn [do_call];
    unfold showCharacter, hideCharacter, animateCharacter, loopCharacterAnimation,
      showOutline, hideOutline, quiz, _animateWithData;
    first [ by apply failed_withData_host_guard
          | by apply failed_cancel_withData_host_guard ].
Qed.

(** ** The action is not invoked *)

Lemma do_call_not_invoke E a c s : log_grows (not_invoke a) s (do_call E c s).
Proof. destruct c; crush_ops; log_grows_tac; done. Qed.

Lemma foldl_not_invoke E a cs s :
  log_grows (not_invoke a) s (foldl (λ s c, do_call E c s) s cs).
Proof.
  apply (foldl_rel E (log_grows (not_invoke a)));
    auto using log_grows_refl, do_call_not_invoke.
  intros; by eapply log_grows_trans.
Qed.

Lemma run_action_not_invoke E a act s : log_grows (not_invoke a) s (run_action E act s).
Proof. destruct act as [o|[f m|o'] o]; crush_ops; log_grows_tac; done. Qed.

Lemma tick_not_invoke E a k0 m rest s :
  micro s = m :: rest → call_guard a k0 s →
  log_grows (not_invoke a) s (run_micro E m (set_micro rest s)).
Proof.
  intros Hm Hg. destruct (guard_pop a k0 m rest s Hm Hg) as [_ Hhead].
  destruct m; try (crush_ops; log_grows_tac; done).
  cbn [run_micro]. fields. destruct (negb _) eqn:Hf; [|log_grows_tac].
  eapply log_grows_trans; [|apply run_action_not_invoke].
  unfold emit. log_grows_tac. intros [= ->].
  unfold failed in Hhead. rewrite Hhead in Hf; done.
Qed.

Lemma guard_step E a k0 l s s' :
  (∀ k d, l = LSettle k (Some d) → k < k0) →
  task_step E l s = Some s' → call_guard a k0 s →
  call_guard a k0 s' ∧ log_grows (not_invoke a) s s'.
Proof.
  intros Hl Hs Hg. apply task_step_inv in Hs
    as [(m & rest & -> & Hm & ->)|[(cs & -> & Hm & ->)|[(ev & -> & ->)|[(k & r & -> & Hs)|(i & -> & Hs)]]]].
  - split; [by apply tick_guard | by eapply tick_not_invoke].
  - split; [|apply foldl_not_invoke].
    by apply host_guard_guard, foldl_host_guard, guard_host.
  - split; [by apply dispatch_guard|].
    destruct ev; crush_ops; log_grows_tac; done.
  - split; [eapply settle_guard; eauto|].
    + intros d ->. by eapply Hl.
    + crush_ops; log_grows_tac.
  - split; [by eapply complete_guard|].
    crush_ops; log_grows_tac.
Qed.

Lemma guard_exec E a k0 ls s s' :
  no_reload_succeeds k0 ls → task_exec E ls s = Some s' → call_guard a k0 s →
  call_guard a k0 s' ∧ log_grows (not_invoke a) s s'.
Proof.
  revert s. induction ls as [|l ls IH]; intros s Hno; simpl.
  - intros [= ->] Hg. split; [done | apply log_grows_refl].
  - destruct (task_step E l s) as [s1|] eqn:Hl; [|done]. intros Hx Hg.
    destruct (guard_step E a k0 l s s1) as [Hg1 Hl1]; [|done|done|].
    { intros k d ->. apply (Hno k d). by left. }
    destruct (IH s1) as [Hg' Hl']; [|done|done|].
    { intros k d Hin. apply (Hno k d). by right. }
    split; [done|]. by eapply log_grows_trans.
Qed.

(** A call that goes through [_withData] while loading has failed, in an
    execution in which the host calls only when no reaction is pending: as
    long as no request made from then on is answered with data, its action
    does not run. *)
Lemma failed_call_not_invoked E c cs ls s s' :
  ids_fresh s → failed s = true → with_data_call c →
  task_exec E (LHost (c :: cs) :: ls) s = Some s' →
  no_reload_succeeds (requests s) ls →
  log_grows (not_invoke (nextCall s)) s s'.
Proof.
  intros Hfresh Hf Hc Hx Hno. cbn [task_exec] in Hx.
  destruct (task_step E (LHost (c :: cs)) s) as [s1|] eqn:Hs; [|done].
  apply task_step_inv in Hs
    as [(? & ? & ? & _)|[(? & ? & Hm & ->)|[(? & ? & _)|[(? & ? & ? & _)|(? & ? & _)]]]];
    simplify_eq.
  cbn [foldl] in Hx.
  pose proof (failed_call_host_guard E c s Hc Hfresh Hm Hf) as Hg.
  apply (foldl_host_guard E _ _ cs), host_guard_guard in Hg.
  destruct (guard_exec E _ _ ls _ s' Hno Hx Hg) as [_ Hl].
  eapply log_grows_trans; [|exact Hl].
  eapply log_grows_trans; [apply do_call_not_invoke | apply foldl_not_invoke].
Qed.

(** ** Fresh ids *)


Ltac fresh_prep := unfold ids_fresh_all in *; guard_prep.

Lemma do_call_ids_fresh E c s : ids_fresh_all s → ids_fresh_all (do_call E c s).
Proof.
  fresh_prep. intros ((Hful & Hout & Hw & Haw) & HRe & HRu & HL & HT).
  destruct c; crush_ops; guard_finish.
Qed.

Lemma tick_ids_fresh E m rest s :
  micro s = m :: rest → ids_fresh_all s → ids_fresh_all (run_micro E m (set_micro rest s)).
Proof.
  intros Hm. fresh_prep. intros ((Hful & Hout & Hw & Haw) & HRe & HRu & HL & HT).
  pop_micro Hm.
  destruct m; crush_ops; guard_finish.
Qed.

Lemma step_ids_fresh E l s s' : step E l s = Some s' → ids_fresh_all s → ids_fresh_all s'.
Proof.
  intros Hs. apply step_inv in Hs
    as [(m & rest & -> & Hm & ->)|[(cs & -> & ->)|[(ev & -> & ->)|[(k & r & -> & Hs)|(i & -> & Hs)]]]].
  - by apply tick_ids_fresh.
  - revert s. induction cs as [|c cs IH]; intros s Hok; simpl; [done|].
    by apply IH, do_call_ids_fresh.
  - fresh_prep. intros ((Hful & Hout & Hw & Haw) & HRe & HRu & HL & HT).
    destruct ev; crush_ops; guard_finish.
  - unfold settle in Hs.
    destruct (list_find _ _) as [[i [k' c]]|] eqn:Hfind; [|done]. simplify_eq.
    apply list_find_Some in Hfind as (Hi & Hk & _). simpl in Hk. subst k'.
    apply list_elem_of_lookup_2 in Hi.
    fresh_prep. unfold enqueue. fields.
    intros ((Hful & Hout & Hw & Haw) & HRe & HRu & HL & HT).
    pose proof (Hout _ Hi) as Hlt. simpl in Hlt.
    guard_finish.
  - unfold complete in Hs.
    destruct (awaiting s !! i) as [m|] eqn:Hi; [|done]. simplify_eq.
    apply list_elem_of_lookup_2 in Hi.
    fresh_prep. unfold enqueue. fields.
    intros ((Hful & Hout & Hw & Haw) & HRe & HRu & HL & HT).
    specialize (Haw _ Hi) as Hloop.
    guard_finish.
Qed.

Lemma exec_ids_fresh E ls s s' : exec E ls s = Some s' → ids_fresh_all s → ids_fresh_all s'.
Proof.
  revert s. induction ls as [|l ls IH]; intros s; simpl; [by intros [= ->]|].
  destruct (step E l s) as [s1|] eqn:Hl; [|done].
  intros Hx Hok. eapply IH; [done|]. by eapply step_ids_fresh.
Qed.

Lemma HanziWriter_ids_fresh E c o : ids_fresh_all (HanziWriter E c o).
Proof. unfold HanziWriter. fresh_prep. crush_ops; guard_finish. Qed.

(** Every state the controller can reach has fresh ids. *)
Lemma reachable_ids_fresh E c o ls s :
  exec E ls (HanziWriter E c o) = Some s → ids_fresh s.
Proof.
  intros Hx. by apply (exec_ids_fresh E ls _ s Hx), HanziWriter_ids_fresh.
Qed.

Lemma task_reachable_on_record E c o ls s :
  task_exec E ls (HanziWriter E c o) = Some s → ids_fresh s ∧ failure_on_record s.
Proof.
  intros Hx. split.
  - eapply reachable_ids_fresh. by apply task_exec_exec.
  - eapply exec_failure_on_record; [done|]. apply HanziWriter_failure_on_record.
Qed.

(** C4 as stated fails.  On [failed_view] the host calls [showCharacter()],
    which reloads; the reload fails, and from the error callback the host
    calls [setCharacter], which clears [loadingFailed] before the [then]
    callback of the failed request runs.  That callback then builds from no
    data, and the action of [showCharacter()] is invoked, although no request
    was answered with data. *)
Lemma retry_from_error_callback :
  (s ← exec demo_env [ LHost [ShowCharacter ∅]; LTick; LSettle 1 None; LTick;
                       LHost [SetCharacter "A"]; LTick; LTick ] failed_view;
   Some (drop 2 (log s)))
  = Some [ ELoadCharData "A" 1; ELoadError 1; ELoadCharData "A" 2;
           EGenerateCharacter "A" None; ENewPositioner 1; ENewRenderer 1;
           ENewStateManager 1; EMount 1; ERender 1;
           EInvoke 0; EEffect CharacterRenderer RShow 0 ].
Proof. vm_compute. reflexivity. Qed.

(** C4, as the code has it: in executions in which the host calls the
    controller only when no reaction is pending.  An action handed to
    [_withData] while loading has failed (by [quiz], [showCharacter],
    [hideCharacter], [animateCharacter], [loopCharacterAnimation],
    [showOutline] or [hideOutline]) is not invoked as long as no request made
    from that call on is answered with data.  And when the [then] callback of
    a failed request runs, the failure is on record: the callback builds no
    character, positioner, state manager or renderer, calls no collaborator,
    and the promise is fulfilled.  Every state reached from the constructor
    in such an execution meets the two side conditions. *)
Theorem failed_load_runs_nothing E :
  (∀ c cs ls s s',
     ids_fresh s → failed s = true → with_data_call c →
     task_exec E (LHost (c :: cs) :: ls) s = Some s' →
     no_reload_succeeds (requests s) ls →
     ∃ evs, log s' = log s ++ evs ∧ (EInvoke (nextCall s) ∉ evs))
  ∧ (∀ k c rest s s',
       failure_on_record s → micro s = MSetCharThen k c None :: rest →
       task_step E LTick s = Some s' →
       k ∈ fulfilled s' ∧ log s' = log s
       ∧ _character s' = _character s ∧ _positioner s' = _positioner s
       ∧ _stateManager s' = _stateManager s
       ∧ _hanziWriterRenderer s' = _hanziWriterRenderer s)
  ∧ (∀ c o ls s, task_exec E ls (HanziWriter E c o) = Some s →
       ids_fresh s ∧ failure_on_record s).
Proof.
  split_and!.
  - intros c cs ls s s' Hfresh Hf Hc Hx Hno.
    destruct (failed_call_not_invoked E c cs ls s s' Hfresh Hf Hc Hx Hno)
      as (evs & Hl & Hall).
    exists evs. split; [done|]. intros Hin. rewrite Forall_forall in Hall.
    by apply (Hall _ Hin).
  - intros k c rest s s' [Hrec _] Hm Hstep.
    unfold task_step, step in Hstep. rewrite Hm in Hstep. simplify_eq.
    apply (then_callback_after_failure E k c None (set_micro rest s)).
    unfold failed. fields. apply (Hrec k c). rewrite Hm. by left.
  - apply task_reachable_on_record.
Qed.

Lemma failed_view_ids_fresh : ids_fresh failed_view.
Proof.
  unfold ids_fresh, awaiting_ok, requests.
  cbn [failed_view fulfilled _loadingManager outstanding loadCounter waiters awaiting].
  split_and!; member_tac. lia.
Qed.

Lemma failed_load_runs_nothing_witness :
  ids_fresh failed_view ∧ failed failed_view = true
  ∧ (∃ s', task_exec demo_env failed_demo_trace failed_view = Some s'
           ∧ ∃ evs, log s' = log failed_view ++ evs ∧ (EInvoke 0 ∉ evs))
  ∧ let s := set_micro [MSetCharThen 0 "A" None] (set_fulfilled [] failed_view) in
    failure_on_record s
    ∧ task_step demo_env LTick s = Some (set_fulfilled [0] failed_view)
    ∧ 0 ∈ fulfilled (set_fulfilled [0] failed_view)
    ∧ log (set_fulfilled [0] failed_view) = log s
    ∧ ∃ s0, task_exec demo_env [LSettle 0 None; LTick; LTick; LHost [ShowOutline ∅]; LTick]
              (HanziWriter demo_env "A" ∅) = Some s0
        ∧ ids_fresh s0 ∧ failure_on_record s0.
Proof.
  split_and!; [exact failed_view_ids_fresh | reflexivity | |].
  - destruct (task_exec demo_env failed_demo_trace failed_view) as [s'|] eqn:Hx;
      [|vm_compute in Hx; discriminate Hx].
    exists s'. split; [reflexivity|].
    apply (proj1 (failed_load_runs_nothing demo_env) (ShowCharacter ∅) [] _ failed_view s'
             failed_view_ids_fresh eq_refl I Hx).
    intros k d Hin. unfold failed_demo_trace in Hin. member_tac.
  - intros s.
    assert (Hrec : failure_on_record s).
    { split; [intros k c Hin; reflexivity | intros m Hin; by apply elem_of_nil in Hin]. }
    split; [exact Hrec|]. split; [reflexivity|].
    destruct (proj1 (proj2 (failed_load_runs_nothing demo_env)) 0 "A" [] s
                (set_fulfilled [0] failed_view) Hrec eq_refl eq_refl) as (Hk & Hl & _).
    split; [exact Hk|]. split; [exact Hl|].
    destruct (runs_Some (task_exec demo_env [LSettle 0 None; LTick; LTick;
                                             LHost [ShowOutline ∅]; LTick]
                           (HanziWriter demo_env "A" ∅))) as [s0 Hx];
      [vm_compute; reflexivity|].
    exists s0. split; [exact Hx|].
    exact (proj2 (proj2 (failed_load_runs_nothing demo_env)) "A" ∅ _ s0 Hx).
Defined.

(** The other side of C4: once the reload succeeds, the action does run. *)
Lemma reload_success_runs_action :
  (s ← exec demo_env reload_demo_trace failed_view; Some (drop 2 (log s)))
  = Some [ ELoadCharData "A" 1;
           EGenerateCharacter "A" (Some ["M 0 0 L 10 10"]); ENewPositioner 1;
           ENewRenderer 1; ENewStateManager 1; EMount 1; ERender 1;
           EInvoke 0; EEffect CharacterRenderer RShow 0 ].
Proof. vm_compute. reflexivity. Qed.

Lemma failed_reload_runs_nothing :
  (s ← exec demo_env failed_demo_trace failed_view; Some (drop 2 (log s)))
  = Some [ ELoadCharData "A" 1; ELoadError 1 ].
Proof. vm_compute. reflexivity. Qed.

(** ** Option preparation, the whole object *)

Section PreparedOptions.

Import Options.

Lemma prop_union (o d : obj) k :
  prop (o ∪ d) k = match o !! k with Some v => v | None => prop d k end.
Proof.
  unfold prop. destruct (o !! k) as [v|] eqn:Hk.
  - by rewrite (lookup_union_Some_l _ _ _ _ Hk).
  - by rewrite lookup_union_r.
Qed.

Lemma fillWidthAndHeight_allocates E (options : loc) (h : heap) :
  is_Some ((_fillWidthAndHeight E options h).2 !! (_fillWidthAndHeight E options h).1).
Proof.
  unfold _fillWidthAndHeight, assign_new.
  set (l := fresh (dom h)). set (h1 := <[l := _]> h).
  assert (Hl : is_Some (h1 !! l)) by (unfold h1; rewrite lookup_insert_eq; eauto).
  repeat case_match; simpl; repeat apply set_is_Some; done.
Qed.

(** What [_assignOptions] returns, whatever heap it starts from. *)
Lemma assignOptions_result E (options : loc) (h : heap) (o : obj) :
  h !! options = Some o →
  ∃ l' h', _assignOptions E options h = (l', h')
    ∧ h !! l' = None
    ∧ (∀ l, is_Some (h !! l) → h' !! l = h !! l)
    ∧ (∀ k, k ≠ "width" → k ≠ "height" →
         k ≠ "strokeAnimationSpeed" → k ≠ "strokeHighlightSpeed" →
         get l' k h' = prop (o ∪ defaultOptions E) k)
    ∧ get l' "width" h' =
        (if truthy (prop o "width") then prop o "width"
         else if truthy (prop o "height") then prop o "height"
         else VNum (Fin (Qmin (rect_width E) (rect_height E))))
    ∧ get l' "height" h' =
        (if truthy (prop o "height") then prop o "height"
         else if truthy (prop o "width") then prop o "width"
         else VNum (Fin (Qmin (rect_width E) (rect_height E)))).
Proof.
  intros Ho. unfold _assignOptions, assign_new. rewrite Ho.
  change (default ∅ (Some o)) with o. rewrite assign_obj_two.
  set (l := fresh (dom h)). set (h1 := <[l := o ∪ defaultOptions E]> h).
  assert (Hfresh : h !! l = None) by apply fresh_loc_unused.
  assert (H1 : ∀ k, get l k h1 = prop (o ∪ defaultOptions E) k)
    by (intros; apply get_insert_same).
  assert (Hs1 : is_Some (h1 !! l)) by (unfold h1; rewrite lookup_insert_eq; eauto).
  assert (Hd1 : ∀ l0, is_Some (h !! l0) → h1 !! l0 = h !! l0 ∧ is_Some (h1 !! l0)).
  { intros l0 [x Hx]. assert (l ≠ l0) by (intros <-; congruence).
    unfold h1. rewrite lookup_insert_ne by done. rewrite Hx. eauto. }
  set (c1 := truthy (prop o "strokeAnimationDuration")
             && negb (truthy (prop o "strokeAnimationSpeed"))).
  set (c2 := truthy (prop o "strokeHighlightDuration")
             && negb (truthy (prop o "strokeHighlightSpeed"))).
  set (h2 := if c1 then _ else h1).
  set (h3 := if c2 then _ else h2).
  assert (Hs2 : is_Some (h2 !! l)).
  { unfold h2. destruct c1; [by apply set_is_Some | done]. }
  assert (Hs3 : is_Some (h3 !! l)).
  { unfold h3. destruct c2; [by apply set_is_Some | done]. }
  assert (Hk3 : ∀ k, k ≠ "strokeAnimationSpeed" → k ≠ "strokeHighlightSpeed" →
                  get l k h3 = prop (o ∪ defaultOptions E) k).
  { intros k Hk1 Hk2. rewrite <- H1.
    assert (get l k h3 = get l k h2) as ->.
    { unfold h3. destruct c2; [by rewrite get_set_other | done]. }
    unfold h2. destruct c1; [by rewrite get_set_other | done]. }
  assert (Hd3 : ∀ l0, l0 ≠ l → h3 !! l0 = h1 !! l0).
  { intros l0 Hne.
    assert (h3 !! l0 = h2 !! l0) as ->.
    { unfold h3. destruct c2; [by rewrite lookup_set_other | done]. }
    unfold h2. destruct c1; [by rewrite lookup_set_other | done]. }
  destruct Hs3 as [o3 Ho3].
  destruct (fillWidthAndHeight_shape E l h3 o3 Ho3) as (h' & Heq & Hother & Hk & Hw & Hh).
  assert (Hp : ∀ k, k ≠ "strokeAnimationSpeed" → k ≠ "strokeHighlightSpeed" →
                 prop o3 k = prop (o ∪ defaultOptions E) k).
  { intros k Hk1 Hk2. rewrite <- (get_unfold l k h3 o3 Ho3). by apply Hk3. }
  assert (Hdim : ∀ k, k = "width" ∨ k = "height" →
             truthy (prop o3 k) = truthy (prop o k)
             ∧ (truthy (prop o k) = true → prop o3 k = prop o k)).
  { intros k Hwh. rewrite Hp by (destruct Hwh as [-> | ->]; done).
    rewrite prop_union. unfold prop.
    destruct (o !! k) as [v|] eqn:Hv; [by split|].
    destruct Hwh as [-> | ->]; vm_compute; by split. }
  destruct (Hdim "width" (or_introl eq_refl)) as [Htw Hvw].
  destruct (Hdim "height" (or_intror eq_refl)) as [Hth Hvh].
  assert (Hnew : h !! fresh (dom h3) = None).
  { destruct (h !! fresh (dom h3)) as [x|] eqn:Hx; [|done].
    assert (is_Some (h3 !! fresh (dom h3))) as [y Hy].
    { destruct (Hd1 (fresh (dom h3))) as [_ Hs]; [by eauto|].
      rewrite Hd3; [done|]. intros Hl. rewrite Hl in Hx. congruence. }
    by rewrite fresh_loc_unused in Hy. }
  exists (fresh (dom h3)), h'. split; [done|]. split; [done|].
  split_and!.
  - intros l0 Hl0. assert (l0 ≠ fresh (dom h3)).
    { intros ->. destruct Hl0 as [x Hx]. congruence. }
    rewrite Hother by done.
    assert (l0 ≠ l). { intros ->. destruct Hl0 as [x Hx]. congruence. }
    rewrite Hd3 by done. by apply Hd1.
  - intros k Hk1 Hk2 Hk3' Hk4. rewrite Hk by done. by apply Hp.
  - rewrite Hw, Htw, Hth.
    destruct (truthy (prop o "width")) eqn:H1'; [by apply Hvw|].
    destruct (truthy (prop o "height")) eqn:H2'; [by apply Hvh|]. done.
  - rewrite Hh, Htw, Hth.
    destruct (truthy (prop o "height")) eqn:H1'; [by apply Hvh|].
    destruct (truthy (prop o "width")) eqn:H2'; [by apply Hvw|]. done.
Qed.

(** X1.  [_assignOptions] merges: apart from the two speeds and the two
    dimensions, every option of the result is the caller's own if the caller's
    object has the property at all (an explicit [undefined] or [null]
    included), and the default otherwise.  The result is a new object; the
    caller's object and every other object of the heap are as before. *)
Theorem assignOptions_merges E (options : loc) (h : heap) (o : obj) :
  h !! options = Some o →
  let r := _assignOptions E options h in
  h !! r.1 = None
  ∧ (∀ l, is_Some (h !! l) → r.2 !! l = h !! l)
  ∧ (∀ k, k ≠ "width" → k ≠ "height" →
       k ≠ "strokeAnimationSpeed" → k ≠ "strokeHighlightSpeed" →
       get r.1 k r.2 = match o !! k with
                       | Some v => v
                       | None => prop (defaultOptions E) k
                       end).
Proof.
  intros Ho. destruct (assignOptions_result E options h o Ho)
    as (l' & h' & Heq & Hnew & Hold & Hk & _).
  rewrite Heq. simpl. split_and!; [done..|].
  intros k H1 H2 H3 H4. rewrite Hk by done. apply prop_union.
Qed.

(** X2.  The dimensions [_assignOptions] returns, in terms of the caller's
    object: the defaults for width and height are null, so the rule of
    [_fillWidthAndHeight] applies to what the caller gave.  Unless the caller
    gave both, the result is square. *)
Theorem assignOptions_dimensions E (options : loc) (h : heap) (o : obj) :
  h !! options = Some o →
  let r := _assignOptions E options h in
  let width := get r.1 "width" r.2 in
  let height := get r.1 "height" r.2 in
  let minDim := VNum (Fin (Qmin (rect_width E) (rect_height E))) in
  width = (if truthy (prop o "width") then prop o "width"
           else if truthy (prop o "height") then prop o "height" else minDim)
  ∧ height = (if truthy (prop o "height") then prop o "height"
              else if truthy (prop o "width") then prop o "width" else minDim)
  ∧ (truthy (prop o "width") && truthy (prop o "height") = false → width = height).
Proof.
  intros Ho. destruct (assignOptions_result E options h o Ho)
    as (l' & h' & Heq & _ & _ & _ & Hw & Hh).
  rewrite Heq. simpl. rewrite Hw, Hh. split_and!; [done..|].
  by destruct (truthy (prop o "width")), (truthy (prop o "height")).
Qed.

(** X3.  Without a truthy duration [_assignOptions] derives nothing: the speed is
    the caller's own if the caller's object has the property, whatever its
    value, and the default otherwise (1 for the stroke animation, 2 for the
    highlight). *)
Theorem assignOptions_speed_without_duration E (options : loc) (h : heap) (o : obj) :
  h !! options = Some o →
  let r := _assignOptions E options h in
  (truthy (prop o "strokeAnimationDuration") = false →
     get r.1 "strokeAnimationSpeed" r.2
     = match o !! "strokeAnimationSpeed" with Some v => v | None => VNum (Fin 1) end)
  ∧ (truthy (prop o "strokeHighlightDuration") = false →
     get r.1 "strokeHighlightSpeed" r.2
     = match o !! "strokeHighlightSpeed" with Some v => v | None => VNum (Fin 2) end).
Proof.
  intros Ho. destruct (assignOptions_shape E options h o Ho) as (l' & h' & Heq & Ha & Hb).
  rewrite Heq. simpl. rewrite Ha, Hb. unfold merged_speed.
  split; intros ->; simpl; rewrite prop_union; by case_match.
Qed.


Lemma fill_rule_fixed (w h m : jsval) :
  let W := if truthy w then w else if truthy h then h else m in
  let H := if truthy h then h else if truthy w then w else m in
  (if truthy W then W else if truthy H then H else m) = W
  ∧ (if truthy H then H else if truthy W then W else m) = H.
Proof.
  intros W H. subst W H.
  destruct (truthy w) eqn:Hw, (truthy h) eqn:Hh; rewrite ?Hw, ?Hh;
    split; try reflexivity; destruct (truthy m); reflexivity.
Qed.

(** X5.  [_fillWidthAndHeight] is idempotent up to the object's identity: filling
    the object it returned gives an object that reads the same on every
    property. *)
Theorem fillWidthAndHeight_idempotent E (options : loc) (h : heap) (o : obj) :
  h !! options = Some o →
  let r1 := _fillWidthAndHeight E options h in
  let r2 := _fillWidthAndHeight E r1.1 r1.2 in
  ∀ k, get r2.1 k r2.2 = get r1.1 k r1.2.
Proof.
  intros Ho r1 r2 k.
  destruct (fillWidthAndHeight_allocates E options h) as [o1 Ho1]. fold r1 in Ho1.
  destruct (fillWidthAndHeight_shape E options h o Ho) as (h1 & Heq1 & _ & Hk1 & Hw1 & Hh1).
  destruct (fillWidthAndHeight_shape E r1.1 r1.2 o1 Ho1) as (h2 & Heq2 & _ & Hk2 & Hw2 & Hh2).
  fold r2 in Heq2. rewrite Heq2. cbn [fst snd].
  assert (Hp : ∀ k', prop o1 k' = get r1.1 k' r1.2).
  { intros k'. symmetry. by apply get_unfold. }
  rewrite !Hp in Hw2, Hh2.
  assert (HW : get r1.1 "width" r1.2 = get (fresh (dom h)) "width" h1)
    by (unfold r1; by rewrite Heq1).
  assert (HH : get r1.1 "height" r1.2 = get (fresh (dom h)) "height" h1)
    by (unfold r1; by rewrite Heq1).
  rewrite HW, HH, Hw1, Hh1 in Hw2, Hh2.
  destruct (fill_rule_fixed (prop o "width") (prop o "height")
              (VNum (Fin (Qmin (rect_width E) (rect_height E))))) as [Fw Fh].
  destruct (decide (k = "width")) as [-> | Hnw].
  { rewrite Hw2, HW, Hw1. exact Fw. }
  destruct (decide (k = "height")) as [-> | Hnh].
  { rewrite Hh2, HH, Hh1. exact Fh. }
  rewrite Hk2 by done. apply Hp.
Qed.

(** X6.  On a canvas whose rectangle has a positive width and height
    [_fillWidthAndHeight] always returns a truthy width and a truthy height:
    no dimension is left missing or zero. *)
Theorem fillWidthAndHeight_positive E (options : loc) (h : heap) (o : obj) :
  h !! options = Some o →
  (0 < rect_width E)%Q → (0 < rect_height E)%Q →
  let r := _fillWidthAndHeight E options h in
  truthy (get r.1 "width" r.2) = true ∧ truthy (get r.1 "height" r.2) = true.
Proof.
  intros Ho Hw Hh.
  destruct (fillWidthAndHeight_shape E options h o Ho) as (h1 & Heq & _ & _ & Hw1 & Hh1).
  rewrite Heq. simpl. rewrite Hw1, Hh1.
  assert (Hm : truthy (VNum (Fin (Qmin (rect_width E) (rect_height E)))) = true).
  { simpl. apply negb_true_iff. destruct (Qeq_bool _ 0) eqn:Hz; [|done].
    apply Qeq_bool_iff in Hz.
    assert (Hpos : (0 < Qmin (rect_width E) (rect_height E))%Q)
      by (apply Q.min_glb_lt; assumption).
    rewrite Hz in Hpos. by apply Qlt_irrefl in Hpos. }
  destruct (truthy (prop o "width")) eqn:H1, (truthy (prop o "height")) eqn:H2; done.
Qed.

End PreparedOptions.

Lemma assignOptions_merges_witness :
  let o : obj := {[ "padding" := VNum (Fin 5) ]} in
  demo_heap o !! 1%positive = Some o
  ∧ let r := Options._assignOptions demo_env 1 (demo_heap o) in
    Options.get r.1 "padding" r.2 = VNum (Fin 5)
    ∧ Options.get r.1 "strokeColor" r.2 = VStr "#555".
Proof.
  intros o. split; [reflexivity|].
  destruct (assignOptions_merges demo_env 1 (demo_heap o) o eq_refl) as (_ & _ & Hk).
  split; [exact (Hk "padding" ltac:(done) ltac:(done) ltac:(done) ltac:(done))
         |exact (Hk "strokeColor" ltac:(done) ltac:(done) ltac:(done) ltac:(done))].
Defined.

Lemma assignOptions_dimensions_witness :
  let o : obj := {[ "height" := VNum (Fin 80) ]} in
  demo_heap o !! 1%positive = Some o
  ∧ let r := Options._assignOptions demo_env 1 (demo_heap o) in
    Options.get r.1 "width" r.2 = VNum (Fin 80).
Proof.
  intros o. split; [reflexivity|].
  exact (proj1 (assignOptions_dimensions demo_env 1 (demo_heap o) o eq_refl)).
Defined.

Lemma assignOptions_speed_without_duration_witness :
  let o : obj := {[ "strokeAnimationSpeed" := VNum (Fin 0) ]} in
  demo_heap o !! 1%positive = Some o
  ∧ let r := Options._assignOptions demo_env 1 (demo_heap o) in
    Options.get r.1 "strokeAnimationSpeed" r.2 = VNum (Fin 0)
    ∧ Options.get r.1 "strokeHighlightSpeed" r.2 = VNum (Fin 2).
Proof.
  intros o. split; [reflexivity|].
  destruct (assignOptions_speed_without_duration demo_env 1 (demo_heap o) o eq_refl)
    as [Ha Hb].
  split; [exact (Ha eq_refl) | exact (Hb eq_refl)].
Defined.


Lemma fillWidthAndHeight_idempotent_witness :
  let o : obj := {[ "width" := VNum (Fin 120) ]} in
  demo_heap o !! 1%positive = Some o
  ∧ let r1 := Options._fillWidthAndHeight demo_env 1 (demo_heap o) in
    let r2 := Options._fillWidthAndHeight demo_env r1.1 r1.2 in
    Options.get r2.1 "height" r2.2 = Options.get r1.1 "height" r1.2.
Proof.
  intros o. split; [reflexivity|].
  exact (fillWidthAndHeight_idempotent demo_env 1 (demo_heap o) o eq_refl "height").
Defined.

Lemma fillWidthAndHeight_positive_witness :
  let o : obj := ∅ in
  demo_heap o !! 1%positive = Some o
  ∧ (0 < rect_width demo_env)%Q ∧ (0 < rect_height demo_env)%Q
  ∧ let r := Options._fillWidthAndHeight demo_env 1 (demo_heap o) in
    truthy (Options.get r.1 "width" r.2) = true.
Proof.
  intros o. split_and!; [reflexivity..|].
  exact (proj1 (fillWidthAndHeight_positive demo_env 1 (demo_heap o) o
                  eq_refl eq_refl eq_refl)).
Defined.

(** ** What a call does at once *)

(** *** The instance's options *)

Lemma do_call_options E c s : _options (do_call E c s) = _options s.
Proof. destruct c; crush_ops; done. Qed.

Lemma run_micro_options E m s : _options (run_micro E m s) = _options s.
Proof. destruct m; crush_ops; done. Qed.

Lemma step_options E l s s' : step E l s = Some s' → _options s' = _options s.
Proof.
  intros Hs. apply step_inv in Hs
    as [(m & rest & -> & Hm & ->)|[(cs & -> & ->)|[(ev & -> & ->)|[(k & r & -> & Hs)|(i & -> & Hs)]]]].
  - by rewrite run_micro_options.
  - apply (foldl_rel E (λ s s', _options s' = _options s)); [done|congruence|].
    intros. apply do_call_options.
  - destruct ev; crush_ops; done.
  - crush_ops; done.
  - crush_ops; done.
Qed.

Lemma exec_options E ls s s' : exec E ls s = Some s' → _options s' = _options s.
Proof.
  apply (exec_rel E (λ s s', _options s' = _options s)); [done|congruence|].
  apply step_options.
Qed.

(** X7.  Options given to one call are used for that call only.  The
    constructor stores the options it prepared and nothing assigns the field
    again, whatever happens; so a quiz is configured from the instance's
    options, overridden property by property by the [quizOptions] of its own
    call, and the loop takes its delay from the same two objects. *)
Theorem call_options_do_not_persist E :
  (∀ c o, _options (HanziWriter E c o) = prepared_options E o)
  ∧ (∀ ls s s', exec E ls s = Some s' → _options s' = _options s)
  ∧ (∀ qo s, log (quiz_action qo s)
             = log (cancelQuiz s) ++ [EQuizNew (length (quizzes s)) (qo ∪ _options s)])
  ∧ (∀ lo g s, Animation_isActive g (_animator s) = true →
       is_Some (_characterRenderer s) → render_promise E (length (log s)) = true →
       awaiting (animateForever E lo g s).2
       = awaiting s
         ++ [MLoopDelay g lo (match lo !! "delayBetweenLoops" with
                              | Some v => v
                              | None => prop (_options s) "delayBetweenLoops"
                              end)]).
Proof.
  split_and!.
  - intros c o. unfold HanziWriter. cbn [_options set__quiz].
    pose proof (λ s0, do_call_options E (SetCharacter c) s0) as Hsc. cbn [do_call] in Hsc.
    by rewrite Hsc.
  - apply exec_options.
  - intros qo s. by rewrite quiz_action_log, cancelQuiz_log, assign_obj_two, app_assoc.
  - intros lo g s Ha [r Hr] Hp. unfold animateForever. rewrite Ha, Hr, Hp.
    unfold await, emit. fields. rewrite assign_obj_two.
    do 3 f_equal. unfold prop. destruct (lo !! "delayBetweenLoops") as [v|] eqn:Hv.
    + by rewrite (lookup_union_Some_l _ _ _ _ Hv).
    + by rewrite lookup_union_r.
Qed.

(** *** Nothing is shown or built before the call returns *)

(** X8.  A public method only cancels, destroys and asks for data before it
    returns: no action is invoked, no renderer is called, no quiz is
    constructed, nothing is built.  The quiz reference is kept or cleared,
    never set, and so is the renderer. *)
Theorem api_calls_defer E c s :
  log_grows sync_event s (do_call E c s)
  ∧ (_quiz (do_call E c s) = _quiz s ∨ _quiz (do_call E c s) = None)
  ∧ (_hanziWriterRenderer (do_call E c s) = _hanziWriterRenderer s
     ∨ _hanziWriterRenderer (do_call E c s) = None)
  ∧ _positioner (do_call E c s) = _positioner s.
Proof.
  split_and!.
  - destruct c; crush_ops; log_grows_tac; done.
  - destruct c; crush_ops; auto.
  - destruct c; crush_ops; auto.
  - destruct c; crush_ops; auto.
Qed.

Lemma call_options_do_not_persist_witness :
  let ls := [ LHost [StartQuiz {[ "showOutline" := VBool false ]}]; LTick;
              LHost [LoopCharacterAnimation {[ "delayBetweenLoops" := VNum (Fin 5) ]}];
              LTick; LHost [ShowOutline ∅]; LTick ] in
  (∃ s', exec demo_env ls configured_view = Some s'
         ∧ _options s' = _options configured_view)
  ∧ Animation_isActive 0 (_animator configured_view) = true
  ∧ is_Some (_characterRenderer configured_view)
  ∧ render_promise demo_env (length (log configured_view)) = true
  ∧ awaiting (animateForever demo_env ∅ 0 configured_view).2
    = [MLoopDelay 0 ∅ (VNum (Fin 2000))]
  ∧ awaiting (animateForever demo_env {[ "delayBetweenLoops" := VNum (Fin 5) ]} 0
                configured_view).2
    = [MLoopDelay 0 {[ "delayBetweenLoops" := VNum (Fin 5) ]} (VNum (Fin 5))].
Proof.
  intros ls.
  destruct (call_options_do_not_persist demo_env) as (_ & Hkeep & _ & Hloop).
  assert (Hr : is_Some (_characterRenderer configured_view)) by (by exists 0).
  split_and!; [| reflexivity | exact Hr | reflexivity | |].
  - destruct (exec demo_env ls configured_view) as [s'|] eqn:Hx; [|vm_compute in Hx; discriminate Hx].
    exists s'. split; [reflexivity | exact (Hkeep ls _ s' Hx)].
  - exact (Hloop ∅ 0 configured_view eq_refl Hr eq_refl).
  - exact (Hloop {[ "delayBetweenLoops" := VNum (Fin 5) ]} 0 configured_view
             eq_refl Hr eq_refl).
Defined.

(** *** Cancelling the quiz first changes nothing *)

(** X9.  [setCharacter], [animateCharacter], [loopCharacterAnimation] and the
    body of [quiz] start by cancelling the quiz themselves: calling
    [cancelQuiz] just before any of them leaves exactly the state the call
    alone would have left. *)
Theorem cancelQuiz_absorbed E s :
  (∀ c, setCharacter E c (cancelQuiz s) = setCharacter E c s)
  ∧ (∀ o, animateCharacter E o (cancelQuiz s) = animateCharacter E o s)
  ∧ (∀ o, loopCharacterAnimation E o (cancelQuiz s) = loopCharacterAnimation E o s)
  ∧ (∀ o, quiz_action o (cancelQuiz s) = quiz_action o s).
Proof.
  split_and!; intros;
    unfold setCharacter, animateCharacter, loopCharacterAnimation, quiz_action;
    by rewrite cancelQuiz_twice.
Qed.

(** *** Pointer input with a quiz in progress *)



(** X11.  A touch handler reads the first touch point only and from there on does
    what the mouse handler of the same kind does; [touchend] is [mouseup].
    With an empty touch list and a quiz held, the handler has already
    prevented the default action when reading the point throws, and nothing
    reaches the quiz. *)
Theorem touch_as_mouse E s :
  (∀ t ts, dispatch E (touchstart (t :: ts)) s = dispatch E (mousedown t) s)
  ∧ (∀ t ts, dispatch E (touchmove (t :: ts)) s = dispatch E (mousemove t) s)
  ∧ dispatch E touchend s = dispatch E mouseup s
  ∧ (∀ q, _quiz s = Some q → isLoadingCharData s = false →
       dispatch E (touchstart []) s = (Threw, emit EPreventDefault s)
       ∧ dispatch E (touchmove []) s = (Threw, emit EPreventDefault s)).
Proof.
  split_and!; [done..|].
  intros q Hq Hl. unfold dispatch, canvas_listener, _getTouchPoint.
  rewrite Hl, Hq. rewrite bool_decide_eq_true_2 by eauto. done.
Qed.

Lemma touch_as_mouse_witness :
  _quiz quiz_view_demo = Some 0 ∧ isLoadingCharData quiz_view_demo = false
  ∧ dispatch demo_env (touchstart []) quiz_view_demo
    = (Threw, emit EPreventDefault quiz_view_demo).
Proof.
  split_and!; [reflexivity..|].
  exact (proj1 (proj2 (proj2 (proj2 (touch_as_mouse demo_env quiz_view_demo)))
                  0 eq_refl eq_refl)).
Defined.

(** ** The life of a quiz *)

Global Hint Constructors Life_moves : hw.

Lemma cancels_app l1 l2 : cancels (l1 ++ l2) = cancels l1 ++ cancels l2.
Proof.
  induction l1 as [|e l1 IH]; [done|]. destruct e; simpl; by rewrite ?IH.
Qed.

Lemma news_app l1 l2 : news (l1 ++ l2) = news l1 ++ news l2.
Proof.
  induction l1 as [|e l1 IH]; [done|]. destruct e; simpl; by rewrite ?IH.
Qed.

Lemma lmoves_trans x y z : Life_moves x y → Life_moves y z → Life_moves x z.
Proof. intros Hxy Hyz. induction Hyz; eauto with hw. Qed.

Lemma lmoves_ok x y : Life_moves x y → life_ok x → life_ok y.
Proof.
  induction 1 as [|x n q cs ns _ IH|x n cs ns _ IH]; [done|..]; intros Hx;
    specialize (IH Hx); unfold life_ok in *; cbn [fst snd] in *;
    destruct IH as (Hnd & Hcs & Hcur).
  - destruct (Hcur q eq_refl) as (Hq & Hnin & Hin).
    split_and!.
    + apply NoDup_app. split_and!; [done| |apply NoDup_singleton].
      intros q' Hq' ->%list_elem_of_singleton. done.
    + intros q' [Hq'| ->%list_elem_of_singleton]%elem_of_app; auto.
    + done.
  - split_and!; [done| |].
    + intros q Hq. destruct (Hcs q Hq). split; [lia|]. apply elem_of_app. auto.
    + intros q [= <-]. split_and!; [lia| |].
      * intros Hin. apply Hcs in Hin. lia.
      * apply elem_of_app. right. by apply list_elem_of_singleton.
Qed.

Ltac life_moves_tac :=
  unfold life_view; crush_ops;
  repeat match goal with H : _quiz _ = _ |- _ => rewrite H end;
  rewrite ?length_app, ?length_insert, ?cancels_app, ?news_app;
  cbn [cancels news length app]; rewrite ?app_nil_r, ?Nat.add_1_r;
  eauto 6 with hw.

Lemma do_call_lmoves E c s : Life_moves (life_view s) (life_view (do_call E c s)).
Proof. destruct c; life_moves_tac. Qed.

Lemma run_micro_lmoves E m s : Life_moves (life_view s) (life_view (run_micro E m s)).
Proof. destruct m; life_moves_tac. Qed.

Lemma step_lmoves E l s s' :
  step E l s = Some s' → Life_moves (life_view s) (life_view s').
Proof.
  intros Hs. apply step_inv in Hs
    as [(m & rest & -> & Hm & ->)|[(cs & -> & ->)|[(ev & -> & ->)|[(k & r & -> & Hs)|(i & -> & Hs)]]]].
  - apply (run_micro_lmoves E m (set_micro rest s)).
  - apply (foldl_rel E (λ s s', Life_moves (life_view s) (life_view s')));
      eauto using do_call_lmoves, lmoves_trans with hw.
  - destruct ev; life_moves_tac.
  - life_moves_tac.
  - life_moves_tac.
Qed.

Lemma exec_lmoves E ls s s' :
  exec E ls s = Some s' → Life_moves (life_view s) (life_view s').
Proof.
  apply (exec_rel E (λ s s', Life_moves (life_view s) (life_view s')));
    eauto using step_lmoves, lmoves_trans with hw.
Qed.

Lemma HanziWriter_life_ok E c o : life_ok (life_view (HanziWriter E c o)).
Proof.
  unfold HanziWriter, life_view, life_ok. crush_ops; cbn [cancels news length app fst snd];
    (split_and!; [apply NoDup_nil_2 | by intros ? ?%elem_of_nil | done]).
Qed.

Lemma dispatch_calls_held E ev s :
  ∃ evs, log (dispatch E ev s).2 = log s ++ evs
         ∧ ∀ q m a, EQuizCall q m a ∈ evs → _quiz s = Some q.
Proof.
  destruct ev; crush_ops; rewrite <- ?app_assoc;
    first [ by (exists []; rewrite app_nil_r; split; [|intros ??? ?%elem_of_nil])
          | eexists; split; [reflexivity|]; member_tac; done ].
Qed.

(** X12.  [cancel()] is called at most once on a quiz, and only on a quiz that was
    constructed.  The quiz the controller holds is one it constructed and has
    not cancelled, and pointer input is handed to that quiz only: a cancelled
    quiz never hears of the pointer again. *)
Theorem quiz_cancelled_at_most_once E c o ls s :
  exec E ls (HanziWriter E c o) = Some s →
  NoDup (cancels (log s))
  ∧ (∀ q, q ∈ cancels (log s) → q ∈ news (log s))
  ∧ (∀ q, _quiz s = Some q → q ∈ news (log s) ∧ q ∉ cancels (log s))
  ∧ (∀ ev, ∃ evs, log (dispatch E ev s).2 = log s ++ evs
                  ∧ ∀ q m a, EQuizCall q m a ∈ evs → q ∉ cancels (log s)).
Proof.
  intros Hx. apply exec_lmoves in Hx.
  apply lmoves_ok in Hx; [|apply HanziWriter_life_ok].
  destruct Hx as (Hnd & Hcs & Hcur). unfold life_view in *. cbn [fst snd] in *.
  split_and!; [done| | |].
  - intros q Hq. by apply Hcs.
  - intros q Hq. by destruct (Hcur q Hq) as (_ & ? & ?).
  - intros ev. destruct (dispatch_calls_held E ev s) as (evs & Hl & Hev).
    exists evs. split; [done|]. intros q m a Hin. apply Hev in Hin.
    by destruct (Hcur q Hin) as (_ & ? & _).
Qed.

Lemma quiz_cancelled_at_most_once_witness :
  let ls := [ LSettle 0 (Some ["M 0 0 L 10 10"]); LTick; LTick;
              LHost [StartQuiz ∅]; LTick; LEvent (mousedown (15, 25)%Q);
              LHost [StartQuiz ∅]; LTick; LEvent mouseup; LHost [CancelQuiz];
              LHost [StartQuiz ∅]; LTick ] in
  (s ← exec demo_env ls (HanziWriter demo_env "A" ∅);
   Some (news (log s), cancels (log s), _quiz s)) = Some ([0; 1; 2], [0; 1], Some 2)
  ∧ ∃ s, exec demo_env ls (HanziWriter demo_env "A" ∅) = Some s
      ∧ NoDup (cancels (log s))
      ∧ (∀ q, q ∈ cancels (log s) → q ∈ news (log s))
      ∧ (∀ q, _quiz s = Some q → q ∈ news (log s) ∧ (q ∉ cancels (log s))).
Proof.
  intros ls. split; [vm_compute; reflexivity|].
  destruct (runs_Some (exec demo_env ls (HanziWriter demo_env "A" ∅))) as [s Hx];
    [vm_compute; reflexivity|].
  exists s. split; [exact Hx|].
  destruct (quiz_cancelled_at_most_once demo_env "A" ∅ ls s Hx) as (H1 & H2 & H3 & _).
  split_and!; [exact H1 | exact H2 | exact H3].
Defined.

(** ** A quiz has a positioner *)

Ltac ready_prep := unfold ready_ok, host_ready in *; fresh_prep.

Lemma tick_ready E m rest s :
  micro s = m :: rest → ready_ok s → ready_ok (run_micro E m (set_micro rest s)).
Proof.
  intros Hm. ready_prep. intros (Hq & Hp & Hr). pop_micro Hm.
  destruct m; crush_ops; guard_finish.
  eapply Hr; [by left | by apply negb_true_iff].
Qed.

Lemma do_call_host_ready E c s :
  ids_fresh_all s → host_ready s → host_ready (do_call E c s).
Proof.
  ready_prep. intros ((Hful & Hout & Hw & Haw) & HRe & HRu & HL & HT) (Hq & Hp & Hr).
  destruct c; crush_ops; guard_finish.
Qed.

Lemma foldl_host_ready E cs s :
  ids_fresh_all s → host_ready s →
  host_ready (foldl (λ s c, do_call E c s) s cs).
Proof.
  revert s. induction cs as [|c cs IH]; intros s Hf Hs; simpl; [done|].
  apply IH; [by apply do_call_ids_fresh | by apply do_call_host_ready].
Qed.

Lemma step_ready E l s s' :
  task_step E l s = Some s' → ids_fresh_all s → ready_ok s → ready_ok s'.
Proof.
  intros Hs Hf Hok. apply task_step_inv in Hs
    as [(m & rest & -> & Hm & ->)|[(cs & -> & Hm & ->)|[(ev & -> & ->)|[(k & r & -> & Hs)|(i & -> & Hs)]]]].
  - by apply tick_ready.
  - assert (Hh : host_ready s).
    { destruct Hok as (Hq & Hp & _). split_and!; [done..|].
      intros id a Hin. rewrite Hm in Hin. by apply elem_of_nil in Hin. }
    destruct (foldl_host_ready E cs s Hf Hh) as (Hq & Hp & Hr).
    split_and!; [done..|]. intros id a Hin _. by eapply Hr.
  - revert Hok. ready_prep. intros (Hq & Hp & Hr).
    destruct ev; crush_ops; guard_finish.
    all: match goal with
         | Hn : _quiz ?s = None, Hs : is_Some (_quiz ?s) |- _ =>
             rewrite Hn in Hs; by destruct Hs
         end.
  - unfold settle in Hs.
    destruct (list_find _ _) as [[i [k' c]]|] eqn:Hfind; [|done]. simplify_eq.
    revert Hok. ready_prep. unfold enqueue. fields.
    intros (Hq & Hp & Hr). guard_finish.
  - unfold complete in Hs.
    destruct (awaiting s !! i) as [m|] eqn:Hi; [|done]. simplify_eq.
    apply list_elem_of_lookup_2 in Hi.
    destruct Hf as ((_ & _ & _ & Haw) & _). specialize (Haw _ Hi) as Hloop.
    revert Hok. ready_prep. unfold enqueue. fields.
    intros (Hq & Hp & Hr). guard_finish.
Qed.

Lemma exec_ready E ls s s' :
  task_exec E ls s = Some s' → ids_fresh_all s → ready_ok s → ready_ok s'.
Proof.
  revert s. induction ls as [|l ls IH]; intros s; simpl; [by intros [= ->]|].
  destruct (task_step E l s) as [s1|] eqn:Hl; [|done].
  intros Hx Hf Hok. eapply IH; [done| | by eapply step_ready].
  eapply step_ids_fresh; [by apply task_step_step | done].
Qed.

Lemma HanziWriter_ready E c o : ready_ok (HanziWriter E c o).
Proof. unfold HanziWriter. ready_prep. crush_ops; guard_finish. Qed.

Lemma dispatch_returns E ev s :
  (is_Some (_quiz s) → is_Some (_positioner s)) → has_point ev →
  (dispatch E ev s).1 = Returned.
Proof.
  intros Hq Hev. destruct ev as [p|[|t ts]|p|[|t ts]| |]; try done;
    unfold dispatch, canvas_listener, _getMousePoint, _getTouchPoint, _forwardToQuiz;
    destruct (isLoadingCharData s); cbn [orb]; try done;
    destruct (_quiz s) as [q|] eqn:Hq'; try done;
    (rewrite ?bool_decide_eq_true_2 by eauto; cbn [negb];
     destruct Hq as [r Hr]; [by eauto|];
     change (_positioner (emit EPreventDefault s)) with (_positioner s);
     change (_quiz (emit EPreventDefault s)) with (_quiz s);
     by rewrite Hr, Hq').
Qed.

(** X13.  In every state reached from the constructor by an execution in which
    the host calls only when no reaction is pending, a quiz is held only when
    a positioner has been built, so the canvas handlers, which convert the
    pointer position through the positioner, do not throw: every pointer event
    that carries a point is handled and the handler returns. *)
Theorem pointer_handlers_return E c o ls s :
  task_exec E ls (HanziWriter E c o) = Some s →
  (is_Some (_quiz s) → is_Some (_positioner s))
  ∧ (∀ ev, has_point ev → (dispatch E ev s).1 = Returned).
Proof.
  intros Hx.
  assert (Hok : ready_ok s).
  { eapply exec_ready; [done | apply HanziWriter_ids_fresh | apply HanziWriter_ready]. }
  destruct Hok as (Hq & _). split; [done|].
  intros ev Hev. by apply dispatch_returns.
Qed.

Lemma pointer_handlers_return_witness :
  let ls := [ LSettle 0 (Some ["M 0 0 L 10 10"]); LTick; LTick;
              LHost [StartQuiz ∅]; LTick ] in
  (s ← task_exec demo_env ls (HanziWriter demo_env "A" ∅);
   Some (_quiz s, _positioner s, log (dispatch demo_env (mousedown (15, 25)%Q) s).2))
  = Some (Some 0, Some 0,
          [ ELoadCharData "A" 0; EGenerateCharacter "A" (Some ["M 0 0 L 10 10"]);
            ENewPositioner 0; ENewRenderer 0; ENewStateManager 0; EMount 0; ERender 0;
            EInvoke 0; EQuizNew 0 (prepared_options demo_env ∅);
            EPreventDefault; EQuizCall 0 startUserStroke (Some (15 - 10, 25 - 20)%Q) ])
  ∧ ∃ s, task_exec demo_env ls (HanziWriter demo_env "A" ∅) = Some s
      ∧ has_point (mousedown (15, 25)%Q)
      ∧ (dispatch demo_env (mousedown (15, 25)%Q) s).1 = Returned.
Proof.
  intros ls. split; [vm_compute; reflexivity|].
  destruct (runs_Some (task_exec demo_env ls (HanziWriter demo_env "A" ∅))) as [s Hx];
    [vm_compute; reflexivity|].
  exists s. split; [exact Hx|]. split; [exact I|].
  exact (proj2 (pointer_handlers_return demo_env "A" ∅ ls s Hx) (mousedown (15, 25)%Q) I).
Defined.

(** ** When the data arrives *)

Lemma invoked_app l1 l2 : invoked (l1 ++ l2) = invoked l1 ++ invoked l2.
Proof.
  induction l1 as [|e l1 IH]; [done|]. destruct e; simpl; by rewrite ?IH.
Qed.

Lemma loads_app l1 l2 : loads (l1 ++ l2) = loads l1 ++ loads l2.
Proof.
  induction l1 as [|e l1 IH]; [done|]. destruct e; simpl; by rewrite ?IH.
Qed.

Lemma tagged_ids n acts : (tagged n acts).*1 = seq n (length acts).
Proof.
  revert n. induction acts as [|a acts IH]; intros n; simpl; [done|]. by rewrite IH.
Qed.

Lemma tagged_length n acts : length (tagged n acts) = length acts.
Proof. revert n. induction acts as [|a acts IH]; intros n; simpl; [done|]. by rewrite IH. Qed.

(** *** The provider answers with data *)

Lemma settle_found k r s i c :
  list_find (λ x, x.1 = k) (outstanding (_loadingManager s)) = Some (i, (k, c)) →
  settle k r s
  = Some (enqueue (MLoaded k c r)
            (set__loadingManager
               {| loadingFailed := loadingFailed (_loadingManager s);
                  loadCounter := loadCounter (_loadingManager s);
                  outstanding := delete i (outstanding (_loadingManager s)) |} s)).
Proof. intros Hf. unfold settle. by rewrite Hf. Qed.

Lemma step_tick E m rest s :
  micro s = m :: rest → step E LTick s = Some (run_micro E m (set_micro rest s)).
Proof. intros Hm. unfold step. by rewrite Hm. Qed.

(** The state once the data of request [k] has arrived and [setCharacter]'s
    callback has run. *)
Lemma data_arrives E k c i d s :
  micro s = [] → failed s = false →
  list_find (λ x, x.1 = k) (outstanding (_loadingManager s)) = Some (i, (k, c)) →
  ∃ s2, exec E [LSettle k (Some d); LTick; LTick] s = Some s2
    ∧ micro s2 = (λ w, MRun w.2.1 w.2.2) <$> filter (λ w, w.1 = k) (waiters s)
    ∧ waiters s2 = filter (λ w, w.1 ≠ k) (waiters s)
    ∧ fulfilled s2 = k :: fulfilled s
    ∧ failed s2 = false
    ∧ log s2 = log s ++ built k c d
    ∧ _hanziWriterRenderer s2 = Some k ∧ _positioner s2 = Some k
    ∧ _quiz s2 = _quiz s ∧ nextCall s2 = nextCall s
    ∧ _withDataPromise s2 = _withDataPromise s
    ∧ requests s2 = requests s.
Proof.
  intros Hm Hf Hfind. unfold failed, requests in *.
  eexists. split.
  - cbn [exec]. unfold step at 1. rewrite (settle_found k _ s i c Hfind).
    erewrite step_tick; [|by unfold enqueue; fields; rewrite Hm].
    erewrite step_tick; [|by unfold run_micro, loaded, enqueue; fields].
    reflexivity.
  - unfold run_micro, fulfil, setCharacter_then, loaded, enqueue, emit. fields. rewrite Hf.
    fields. unfold built. rewrite <- !app_assoc. split_and!; done.
Qed.

(** What running an action leaves alone. *)
Lemma run_action_frame E a s :
  micro (run_action E a s) = micro s
  ∧ failed (run_action E a s) = failed s
  ∧ invoked (log (run_action E a s)) = invoked (log s)
  ∧ loads (log (run_action E a s)) = loads (log s)
  ∧ waiters (run_action E a s) = waiters s
  ∧ (∃ evs, log (run_action E a s) = log s ++ evs).
Proof.
  unfold failed.
  destruct a as [o|[f m|o'] o]; crush_ops;
    rewrite <- ?app_assoc, ?invoked_app, ?loads_app; cbn [invoked loads app];
    rewrite ?app_nil_r;
    split_and!; try done; first [by eexists | by (exists []; rewrite app_nil_r)].
Qed.

(** The queued actions run one by one, in the order of the queue. *)
Lemma run_queue E (rs : list (nat * action)) s :
  micro s = (λ x, MRun x.1 x.2) <$> rs → failed s = false →
  ∃ s', exec E (replicate (length rs) LTick) s = Some s'
    ∧ micro s' = [] ∧ failed s' = false
    ∧ invoked (log s') = invoked (log s) ++ rs.*1
    ∧ loads (log s') = loads (log s)
    ∧ waiters s' = waiters s
    ∧ (∃ evs, log s' = log s ++ evs).
Proof.
  revert s. induction rs as [|[id a] rs IH]; intros s Hm Hf.
  - exists s. rewrite app_nil_r. split_and!; try done. exists []. by rewrite app_nil_r.
  - cbn [length replicate exec]. rewrite fmap_cons in Hm. cbn [fst snd] in Hm.
    rewrite (step_tick E _ _ s Hm).
    set (s0 := emit (EInvoke id) (set_micro ((λ x, MRun x.1 x.2) <$> rs) s)).
    assert (Hrun : run_micro E (MRun id a) (set_micro ((λ x, MRun x.1 x.2) <$> rs) s)
                   = run_action E a s0).
    { unfold run_micro. unfold failed in Hf. fields. by rewrite Hf. }
    rewrite Hrun.
    destruct (run_action_frame E a s0) as (Fm & Ff & Fi & Fld & Fw & evs & Fl).
    destruct (IH (run_action E a s0)) as (s' & Hx & Hm' & Hf' & Hi & Hld & Hw & evs' & Hl).
    { by rewrite Fm. }
    { by rewrite Ff. }
    exists s'. split_and!; [done..| | | |].
    + rewrite Hi, Fi. unfold s0, emit. fields. rewrite invoked_app. cbn [invoked fst fmap list_fmap].
      by rewrite <- app_assoc.
    + rewrite Hld, Fld. unfold s0, emit. fields. rewrite loads_app. cbn [loads].
      by rewrite app_nil_r.
    + by rewrite Hw, Fw.
    + exists ([EInvoke id] ++ evs ++ evs'). rewrite Hl, Fl. unfold s0, emit. fields.
      by rewrite <- !app_assoc.
Qed.

Lemma exec_app E ls1 ls2 s s1 :
  exec E ls1 s = Some s1 → exec E (ls1 ++ ls2) s = exec E ls2 s1.
Proof.
  revert s. induction ls1 as [|l ls1 IH]; intros s; cbn [exec app].
  - by intros [= ->].
  - destruct (step E l s) as [s0|]; [apply IH | done].
Qed.

(** *** Calls made before the data is there *)

(** A call that goes through [_withData] while the data is awaited leaves
    one more reaction on the data promise, and nothing else of note. *)
Lemma defer_call E c a s :
  action_of c = Some a → failed s = false → _withDataPromise s ∉ fulfilled s →
  micro (do_call E c s) = micro s
  ∧ _loadingManager (do_call E c s) = _loadingManager s
  ∧ _withDataPromise (do_call E c s) = _withDataPromise s
  ∧ fulfilled (do_call E c s) = fulfilled s
  ∧ nextCall (do_call E c s) = S (nextCall s)
  ∧ invoked (log (do_call E c s)) = invoked (log s)
  ∧ waiters (do_call E c s) = waiters s ++ [(_withDataPromise s, (nextCall s, a))].
Proof.
  unfold failed. intros Ha Hf Hp.
  destruct c; simplify_eq/=; crush_ops;
    repeat match goal with
           | H : bool_decide _ = true |- _ => apply bool_decide_eq_true in H
           end;
    rewrite ?invoked_app; cbn [invoked app]; rewrite ?app_nil_r;
    try done; try congruence.
Qed.

Lemma defer_calls E cs s :
  Forall with_data_call cs → failed s = false → _withDataPromise s ∉ fulfilled s →
  let s1 := foldl (λ s c, do_call E c s) s cs in
  ∃ acts, length acts = length cs
    ∧ micro s1 = micro s
    ∧ _loadingManager s1 = _loadingManager s
    ∧ fulfilled s1 = fulfilled s
    ∧ nextCall s1 = nextCall s + length cs
    ∧ invoked (log s1) = invoked (log s)
    ∧ waiters s1
      = waiters s ++ ((λ x, (_withDataPromise s, x)) <$> tagged (nextCall s) acts).
Proof.
  intros Hcs. revert s. induction Hcs as [|c cs Hc Hcs IH]; intros s Hf Hp; cbn [foldl].
  - exists []. rewrite app_nil_r, Nat.add_0_r. done.
  - assert (∃ a, action_of c = Some a) as [a Ha] by (destruct c; simpl in *; eauto; done).
    destruct (defer_call E c a s Ha Hf Hp) as (Dm & Dl & Dp & Dfu & Dn & Di & Dw).
    destruct (IH (do_call E c s)) as (acts & Hlen & Hm & Hl & Hfu & Hn & Hi & Hw).
    { unfold failed. by rewrite Dl. }
    { by rewrite Dp, Dfu. }
    exists (a :: acts). cbn [length tagged fmap list_fmap].
    split_and!; [by rewrite Hlen | congruence | congruence | congruence | lia | congruence |].
    rewrite Hw, Dw, Dp, Dn, <- app_assoc. done.
Qed.

Lemma filter_own_waiters (k : nat) (old : list (nat * (nat * action))) tg :
  (∀ w, w ∈ old → w.1 ≠ k) →
  filter (λ w, w.1 = k) (old ++ ((λ x, (k, x)) <$> tg)) = (λ x, (k, x)) <$> tg
  ∧ filter (λ w, w.1 ≠ k) (old ++ ((λ x, (k, x)) <$> tg)) = old.
Proof.
  intros Hold. rewrite !filter_app.
  assert (H1 : filter (λ w : nat * (nat * action), w.1 = k) old = []
               ∧ filter (λ w : nat * (nat * action), w.1 ≠ k) old = old).
  { induction old as [|w old IH]; [done|].
    assert (w.1 ≠ k) by (apply Hold, elem_of_cons; by left).
    destruct IH as [IH1 IH2]; [intros w' Hw'; apply Hold, elem_of_cons; by right|].
    rewrite filter_cons_False, filter_cons_True by done. by rewrite IH1, IH2. }
  assert (H2 : filter (λ w : nat * (nat * action), w.1 = k) ((λ x, (k, x)) <$> tg)
               = (λ x, (k, x)) <$> tg
               ∧ filter (λ w : nat * (nat * action), w.1 ≠ k) ((λ x, (k, x)) <$> tg) = []).
  { induction tg as [|x tg [IH1 IH2]]; [done|]. rewrite !fmap_cons.
    rewrite filter_cons_True by done.
    rewrite filter_cons_False by (intros Hne; by apply Hne).
    by rewrite IH1, IH2. }
  destruct H1 as [-> ->], H2 as [-> ->]. by rewrite app_nil_r.
Qed.

Lemma invoked_tail (l evs : list event) (ids : list nat) :
  invoked (l ++ evs) = invoked l ++ ids → invoked evs = ids.
Proof. rewrite invoked_app. apply app_inv_head. Qed.

Lemma host_log_grows E cs s :
  ∃ evs, log (foldl (λ s c, do_call E c s) s cs) = log s ++ evs.
Proof.
  destruct (foldl_not_invoke E 0 cs s) as (evs & Hl & _). by exists evs.
Qed.

(** X14.  Calls made while the data is awaited are deferred: nothing is invoked
    before the data is there.  When it arrives, [setCharacter]'s callback
    builds and renders first, and then the actions are invoked one by one, in
    the order of the calls and each exactly once. *)
Theorem deferred_actions_run_in_order E s cs k c i d :
  micro s = [] → failed s = false →
  _withDataPromise s = k → k ∉ fulfilled s →
  (∀ w, w ∈ waiters s → w.1 ≠ k) →
  list_find (λ x, x.1 = k) (outstanding (_loadingManager s)) = Some (i, (k, c)) →
  Forall with_data_call cs →
  ∃ s' before after,
    exec E (LHost cs :: LSettle k (Some d) :: LTick :: LTick
              :: replicate (length cs) LTick) s = Some s'
    ∧ log s' = log s ++ before ++ built k c d ++ after
    ∧ invoked before = []
    ∧ invoked after = seq (nextCall s) (length cs)
    ∧ micro s' = [] ∧ waiters s' = waiters s.
Proof.
  intros Hm Hf Hk Hnf Hold Hfind Hcs. subst k.
  destruct (defer_calls E cs s Hcs Hf Hnf) as (acts & Hlen & Dm & Dl & Dfu & Dn & Di & Dw).
  destruct (host_log_grows E cs s) as (before & Hbefore).
  set (s1 := foldl (λ s c, do_call E c s) s cs) in *.
  destruct (data_arrives E (_withDataPromise s) c i d s1)
    as (s2 & Hx2 & Am & Aw & Afu & Af & Al & _).
  { congruence. }
  { unfold failed. by rewrite Dl. }
  { by rewrite Dl. }
  destruct (filter_own_waiters (_withDataPromise s) (waiters s)
              (tagged (nextCall s) acts) Hold) as [Fown Frest].
  rewrite Dw in Am, Aw. rewrite Fown in Am. rewrite Frest in Aw.
  rewrite <- list_fmap_compose in Am.
  destruct (run_queue E (tagged (nextCall s) acts) s2)
    as (s' & Hx & Hm' & _ & Hi & _ & Hw & after & Hafter).
  { rewrite Am. by apply list_fmap_ext. }
  { done. }
  exists s', before, after. split_and!.
  - change (LHost cs :: LSettle (_withDataPromise s) (Some d) :: LTick :: LTick
              :: replicate (length cs) LTick)
      with ([LHost cs] ++ [LSettle (_withDataPromise s) (Some d); LTick; LTick]
              ++ replicate (length cs) LTick).
    rewrite (exec_app E [LHost cs] _ s s1) by (cbn [exec]; by unfold step).
    rewrite (exec_app E _ _ s1 s2 Hx2). by rewrite <- Hlen, <- (tagged_length (nextCall s)).
  - by rewrite Hafter, Al, Hbefore, <- !app_assoc.
  - apply (invoked_tail (log s)). by rewrite <- Hbefore, Di, app_nil_r.
  - apply (invoked_tail (log s2)). by rewrite <- Hafter, Hi, tagged_ids, Hlen.
  - done.
  - congruence.
Qed.

Lemma deferred_actions_run_in_order_witness :
  let cs := [StartQuiz ∅; ShowOutline ∅] in
  micro demo_view = [] ∧ failed demo_view = false
  ∧ _withDataPromise demo_view = 0 ∧ (0 ∉ fulfilled demo_view)
  ∧ (∀ w, w ∈ waiters demo_view → w.1 ≠ 0)
  ∧ list_find (λ x, x.1 = 0) (outstanding (_loadingManager demo_view)) = Some (0, (0, "A"))
  ∧ Forall with_data_call cs
  ∧ ∃ s' before after,
      exec demo_env (LHost cs :: LSettle 0 (Some ["M 0 0 L 10 10"]) :: LTick :: LTick
                       :: replicate (length cs) LTick) demo_view = Some s'
      ∧ log s' = log demo_view ++ before ++ built 0 "A" ["M 0 0 L 10 10"] ++ after
      ∧ invoked before = []
      ∧ invoked after = seq (nextCall demo_view) (length cs)
      ∧ micro s' = [] ∧ waiters s' = waiters demo_view.
Proof.
  intros cs.
  assert (H1 : 0 ∉ fulfilled demo_view) by apply not_elem_of_nil.
  assert (H2 : ∀ w, w ∈ waiters demo_view → w.1 ≠ 0) by (by intros w ?%elem_of_nil).
  assert (H3 : Forall with_data_call cs) by (repeat constructor).
  split_and!; [reflexivity | reflexivity | reflexivity | exact H1 | exact H2
              | reflexivity | exact H3 |].
  exact (deferred_actions_run_in_order demo_env demo_view cs 0 "A" 0 ["M 0 0 L 10 10"]
           eq_refl eq_refl eq_refl H1 H2 eq_refl H3).
Defined.

(** *** From the constructor to the first rendering *)

Lemma HanziWriter_awaits E c o :
  sync_fail E 0 = false →
  micro (HanziWriter E c o) = [] ∧ failed (HanziWriter E c o) = false
  ∧ outstanding (_loadingManager (HanziWriter E c o)) = [(0, c)]
  ∧ waiters (HanziWriter E c o) = []
  ∧ log (HanziWriter E c o) = [ELoadCharData c 0]
  ∧ _quiz (HanziWriter E c o) = None ∧ _char (HanziWriter E c o) = c.
Proof. intros Hs. unfold HanziWriter, failed. crush_ops; done. Qed.

(** X15.  The constructor asks for the data of its character once and shows
    nothing.  When the provider answers with data, [setCharacter]'s callback
    generates the character from it, makes a positioner, a renderer and a
    state manager, mounts the renderer and renders, in this order, and the
    data promise is fulfilled; no quiz is held. *)
Theorem constructor_then_data E c o d :
  sync_fail E 0 = false →
  log (HanziWriter E c o) = [ELoadCharData c 0]
  ∧ ∃ s', exec E [LSettle 0 (Some d); LTick; LTick] (HanziWriter E c o) = Some s'
      ∧ log s' = [ELoadCharData c 0; EGenerateCharacter c (Some d); ENewPositioner 0;
                  ENewRenderer 0; ENewStateManager 0; EMount 0; ERender 0]
      ∧ _hanziWriterRenderer s' = Some 0 ∧ _positioner s' = Some 0
      ∧ fulfilled s' = [0] ∧ micro s' = [] ∧ _quiz s' = None ∧ failed s' = false.
Proof.
  intros Hs. destruct (HanziWriter_awaits E c o Hs) as (Hm & Hf & Ho & Hw & Hl & Hq & Hc).
  split; [done|].
  destruct (data_arrives E 0 c 0 d (HanziWriter E c o) Hm Hf)
    as (s2 & Hx & Am & Aw & Afu & Af & Al & Ar & Ap & Aq & _).
  { by rewrite Ho. }
  exists s2. rewrite Hw in Am. rewrite Al, Hl, Aq, Hq, Afu.
  split_and!; try done.
  unfold HanziWriter. crush_ops; done.
Qed.

Lemma constructor_then_data_witness :
  sync_fail demo_env 0 = false
  ∧ ∃ s', exec demo_env [LSettle 0 (Some ["M 0 0 L 10 10"]); LTick; LTick]
            (HanziWriter demo_env "A" ∅) = Some s'
      ∧ _hanziWriterRenderer s' = Some 0 ∧ fulfilled s' = [0].
Proof.
  split; [reflexivity|].
  destruct (constructor_then_data demo_env "A" ∅ ["M 0 0 L 10 10"] eq_refl)
    as (_ & s' & Hx & _ & Hr & _ & Hf & _).
  exists s'. split_and!; [exact Hx | exact Hr | exact Hf].
Defined.

(** ** Trying again after a failed load *)

(** A call that goes through [_withData] after a failed load asks for the
    data of the current character again and leaves the retry in the queue. *)
Lemma retry_call E c a s :
  action_of c = Some a → failed s = true → sync_fail E (requests s) = false →
  micro (do_call E c s) = micro s ++ [MRetry (nextCall s) a]
  ∧ failed (do_call E c s) = false
  ∧ _withDataPromise (do_call E c s) = requests s
  ∧ outstanding (_loadingManager (do_call E c s)) = [(requests s, _char s)]
  ∧ fulfilled (do_call E c s) = fulfilled s
  ∧ waiters (do_call E c s) = waiters s
  ∧ invoked (log (do_call E c s)) = invoked (log s)
  ∧ loads (log (do_call E c s)) = loads (log s) ++ [(_char s, requests s)].
Proof.
  unfold failed, requests. intros Ha Hf Hs.
  destruct c; simplify_eq/=; crush_ops;
    rewrite <- ?app_assoc, ?invoked_app, ?loads_app; cbn [invoked loads app];
    rewrite ?app_nil_r; try done; try congruence.
Qed.

Lemma find_new_request k (ch : string) :
  list_find (λ x : nat * string, x.1 = k) [(k, ch)] = Some (0, (k, ch)).
Proof. cbn [list_find]. by rewrite decide_True. Qed.

(** The retry finds loading no longer failed and waits for the new data. *)
Lemma retry_tick E id a s :
  micro s = [MRetry id a] → failed s = false → _withDataPromise s ∉ fulfilled s →
  step E LTick s
  = Some (set_waiters (waiters s ++ [(_withDataPromise s, (id, a))]) (set_micro [] s)).
Proof.
  unfold failed. intros Hm Hf Hp. rewrite (step_tick E _ _ s Hm).
  unfold run_micro, _withData, then_withData. fields. rewrite Hf. cbn [negb].
  by rewrite bool_decide_eq_false_2.
Qed.

(** X16.  After a failed load, a call that goes through [_withData] asks once more
    for the data of the current character.  When that request is answered
    with data, the view is built and the action of the call is invoked,
    once. *)
Theorem retry_after_failure E s c a d :
  micro s = [] → failed s = true → action_of c = Some a →
  sync_fail E (requests s) = false →
  (∀ x, x ∈ outstanding (_loadingManager s) → x.1 < requests s) →
  (∀ p, p ∈ fulfilled s → p < requests s) →
  (∀ w, w ∈ waiters s → w.1 < requests s) →
  ∃ s', exec E [LHost [c]; LTick; LSettle (requests s) (Some d); LTick; LTick; LTick] s
        = Some s'
    ∧ loads (log s') = loads (log s) ++ [(_char s, requests s)]
    ∧ invoked (log s') = invoked (log s) ++ [nextCall s]
    ∧ failed s' = false ∧ micro s' = []
    ∧ ∃ evs after, log s' = log s ++ evs ++ built (requests s) (_char s) d
                             ++ EInvoke (nextCall s) :: after.
Proof.
  intros Hm Hf Ha Hs Hout Hful Hw.
  destruct (retry_call E c a s Ha Hf Hs) as (Rm & Rf & Rp & Ro & Rfu & Rw & Ri & Rl).
  destruct (foldl_not_invoke E 0 [c] s) as (evs & Hevs & _). cbn [foldl] in Hevs.
  set (s1 := do_call E c s) in *. rewrite Hm in Rm. cbn [app] in Rm.
  assert (Hfresh : _withDataPromise s1 ∉ fulfilled s1).
  { rewrite Rp, Rfu. intros Hin. apply Hful in Hin. lia. }
  pose proof (retry_tick E _ _ s1 Rm Rf Hfresh) as Ht.
  set (s2 := set_waiters _ _) in Ht.
  destruct (data_arrives E (requests s) (_char s) 0 d s2)
    as (s3 & Hx3 & Am & Aw & Afu & Af & Al & _).
  { done. }
  { exact Rf. }
  { change (_loadingManager s2) with (_loadingManager s1). rewrite Ro.
    apply find_new_request. }
  change (waiters s2) with (waiters s1 ++ [(_withDataPromise s1, (nextCall s, a))]) in Am.
  rewrite Rw, Rp in Am.
  destruct (filter_own_waiters (requests s) (waiters s) [(nextCall s, a)]) as [Fown _].
  { intros w Hin. apply Hw in Hin. lia. }
  cbn [fmap list_fmap] in Fown. rewrite Fown in Am. cbn [fmap list_fmap fst snd] in Am.
  destruct (run_queue E [(nextCall s, a)] s3 Am Af)
    as (s' & Hx & Hm' & Hf' & Hi & Hld & _ & after & Hafter).
  change (log s2) with (log s1) in Al.
  assert (Hhead : ∃ after', after = EInvoke (nextCall s) :: after').
  { revert Hx Hafter. cbn [length replicate exec]. rewrite (step_tick E _ _ s3 Am).
    intros [= <-]. unfold run_micro. fields. unfold failed in Af. rewrite Af. cbn [negb].
    destruct (run_action_frame E a (emit (EInvoke (nextCall s)) (set_micro [] s3)))
      as (_ & _ & _ & _ & _ & evs' & Hl').
    rewrite Hl'. unfold emit. fields. rewrite <- app_assoc. intros Heq.
    apply app_inv_head in Heq. exists evs'. by rewrite <- Heq. }
  destruct Hhead as (after' & ->).
  exists s'. split_and!.
  - change [LHost [c]; LTick; LSettle (requests s) (Some d); LTick; LTick; LTick]
      with ([LHost [c]] ++ [LTick] ++ [LSettle (requests s) (Some d); LTick; LTick]
              ++ [LTick]).
    rewrite (exec_app E [LHost [c]] _ s s1) by (cbn [exec]; by unfold step).
    rewrite (exec_app E [LTick] _ s1 s2) by (cbn [exec]; by rewrite Ht).
    by rewrite (exec_app E _ _ s2 s3 Hx3).
  - rewrite Hld, Al, loads_app, Rl. unfold built. cbn [loads]. by rewrite app_nil_r.
  - rewrite Hi, Al, invoked_app, Ri. unfold built. cbn [invoked fmap list_fmap fst].
    by rewrite app_nil_r.
  - done.
  - done.
  - exists evs, after'. by rewrite Hafter, Al, Hevs, <- !app_assoc.
Qed.

Lemma retry_after_failure_witness :
  micro failed_view = [] ∧ failed failed_view = true
  ∧ action_of (StartQuiz ∅) = Some (AQuiz ∅)
  ∧ sync_fail demo_env (requests failed_view) = false
  ∧ (∀ x, x ∈ outstanding (_loadingManager failed_view) → x.1 < requests failed_view)
  ∧ (∀ p, p ∈ fulfilled failed_view → p < requests failed_view)
  ∧ (∀ w, w ∈ waiters failed_view → w.1 < requests failed_view)
  ∧ ∃ s', exec demo_env
            [LHost [StartQuiz ∅]; LTick; LSettle 1 (Some ["M 0 0 L 10 10"]);
             LTick; LTick; LTick] failed_view = Some s'
      ∧ loads (log s') = [("A", 0); ("A", 1)]
      ∧ invoked (log s') = [0].
Proof.
  assert (H1 : ∀ x, x ∈ outstanding (_loadingManager failed_view)
                    → x.1 < requests failed_view) by (by intros x ?%elem_of_nil).
  assert (H2 : ∀ p, p ∈ fulfilled failed_view → p < requests failed_view).
  { intros p ->%list_elem_of_singleton. unfold requests. simpl. lia. }
  assert (H3 : ∀ w, w ∈ waiters failed_view → w.1 < requests failed_view)
    by (by intros w ?%elem_of_nil).
  split_and!; [reflexivity | reflexivity | reflexivity | reflexivity
              | exact H1 | exact H2 | exact H3 |].
  destruct (retry_after_failure demo_env failed_view (StartQuiz ∅) (AQuiz ∅)
              ["M 0 0 L 10 10"] eq_refl eq_refl eq_refl eq_refl H1 H2 H3)
    as (s' & Hx & Hl & Hi & _).
  exists s'. split_and!; [exact Hx | exact Hl | exact Hi].
Defined.

(** ** The loop goes on *)

Lemma complete_only E m s :
  micro s = [] → awaiting s = [m] →
  step E (LDone 0) s = Some (set_micro [m] (set_awaiting [] s)).
Proof.
  intros Hm Ha. unfold step, complete. rewrite Ha. cbn [lookup list_lookup delete list_delete].
  unfold enqueue. fields. by rewrite Hm.
Qed.

(** One round of the loop. *)
Lemma loop_one_round E o g s d :
  micro s = [] → awaiting s = [MLoopDelay g o d] →
  Animation_isActive g (_animator s) = true → is_Some (_characterRenderer s) →
  (∀ n, render_promise E n = true) →
  d = prop (Options.assign_obj ∅ [_options s; o]) "delayBetweenLoops" →
  ∃ s', exec E loop_round s = Some s'
    ∧ log s' = log s ++ [ETimeout g d; EEffect CharacterRenderer RAnimate g]
    ∧ micro s' = [] ∧ awaiting s' = [MLoopDelay g o d]
    ∧ _animator s' = _animator s ∧ _options s' = _options s
    ∧ _characterRenderer s' = _characterRenderer s ∧ _quiz s' = _quiz s.
Proof.
  intros Hm Ha Hact [r Hr] Hp Hd.
  eexists. split.
  - unfold loop_round. cbn [exec]. rewrite (complete_only E _ s Hm Ha).
    erewrite step_tick; [|reflexivity].
    erewrite complete_only; [|reflexivity|
      by unfold run_micro, await, emit; fields].
    erewrite step_tick; [|reflexivity]. reflexivity.
  - unfold run_micro, animateForever, await, emit. fields. rewrite Hact, Hr, Hp. cbn [negb snd].
    unfold await, emit. fields. rewrite <- Hd, <- app_assoc. done.
Qed.

(** Any number of rounds. *)
Lemma loop_rounds E o g s d n :
  micro s = [] → awaiting s = [MLoopDelay g o d] →
  Animation_isActive g (_animator s) = true → is_Some (_characterRenderer s) →
  (∀ n, render_promise E n = true) →
  d = prop (Options.assign_obj ∅ [_options s; o]) "delayBetweenLoops" →
  ∃ s', exec E (mjoin (replicate n loop_round)) s = Some s'
    ∧ log s' = log s
               ++ mjoin (replicate n [ETimeout g d; EEffect CharacterRenderer RAnimate g])
    ∧ micro s' = [] ∧ awaiting s' = [MLoopDelay g o d]
    ∧ Animation_isActive g (_animator s') = true ∧ _quiz s' = _quiz s.
Proof.
  intros Hm Ha Hact Hr Hp. revert s Hm Ha Hact Hr.
  induction n as [|n IH]; intros s Hm Ha Hact Hr Hd.
  - exists s. cbn [replicate mjoin list_join]. rewrite app_nil_r. done.
  - destruct (loop_one_round E o g s d Hm Ha Hact Hr Hp Hd)
      as (s1 & Hx1 & Hl1 & Hm1 & Ha1 & HA1 & Ho1 & Hr1 & Hq1).
    destruct (IH s1) as (s' & Hx & Hl & Hm' & Ha' & Hact' & Hq'); try done.
    { by rewrite HA1. }
    { by rewrite Hr1. }
    { by rewrite Ho1. }
    exists s'. cbn [replicate mjoin list_join].
    rewrite (exec_app E loop_round _ s s1 Hx1).
    split_and!; try done; [by rewrite Hl, Hl1, <- app_assoc | congruence].
Qed.

(** What [cancelQuiz] leaves alone. *)
Lemma cancelQuiz_frame s :
  micro (cancelQuiz s) = micro s ∧ awaiting (cancelQuiz s) = awaiting s
  ∧ _loadingManager (cancelQuiz s) = _loadingManager s
  ∧ _withDataPromise (cancelQuiz s) = _withDataPromise s
  ∧ fulfilled (cancelQuiz s) = fulfilled s
  ∧ _characterRenderer (cancelQuiz s) = _characterRenderer s
  ∧ _options (cancelQuiz s) = _options s
  ∧ nextCall (cancelQuiz s) = nextCall s
  ∧ length (anims (_animator (cancelQuiz s))) = length (anims (_animator s))
  ∧ _quiz (cancelQuiz s) = None.
Proof.
  unfold cancelQuiz, Quiz_cancel, emit. destruct (_quiz s); fields;
    rewrite ?cancel_length; done.
Qed.

Lemma animate_loop E o s :
  _animate E (FLoop o) o s
  = (animateForever E o (Animator_setup (_animator s)).1
       (set__animator (Animator_setup (_animator s)).2 s)).2.
Proof. unfold _animate, Animator_animate. by destruct (Animator_setup (_animator s)). Qed.

(** [loopCharacterAnimation] with the data there: the quiz is cancelled at
    once, and the next reaction starts a generation and renders. *)
Lemma loop_starts E o s :
  micro s = [] → awaiting s = [] → failed s = false →
  _withDataPromise s ∈ fulfilled s → is_Some (_characterRenderer s) →
  (∀ n, render_promise E n = true) →
  ∃ s', exec E [LHost [LoopCharacterAnimation o]; LTick] s = Some s'
    ∧ log s' = log s
               ++ match _quiz s with Some q => [EQuizCancel q] | None => [] end
               ++ [EInvoke (nextCall s);
                   EEffect CharacterRenderer RAnimate (length (anims (_animator s)))]
    ∧ micro s' = []
    ∧ awaiting s'
      = [MLoopDelay (length (anims (_animator s))) o
           (prop (Options.assign_obj ∅ [_options s; o]) "delayBetweenLoops")]
    ∧ Animation_isActive (length (anims (_animator s))) (_animator s') = true
    ∧ _options s' = _options s
    ∧ _characterRenderer s' = _characterRenderer s
    ∧ _quiz s' = None.
Proof.
  unfold failed. intros Hm Ha Hf Hp Hr Hrp.
  destruct (cancelQuiz_frame s) as (Cm & Ca & Cl & Cp & Cfu & Cr & Co & Cn & CA & Cq).
  pose proof (cancelQuiz_log s) as Clog.
  set (s0 := cancelQuiz s) in *.
  set (s1 := emit (EInvoke (nextCall s)) (set_micro [] (set_nextCall (S (nextCall s)) s0))).
  set (A := Animator_setup (_animator s1)).
  assert (Hg : A.1 = length (anims (_animator s))).
  { unfold A. rewrite setup_fresh. exact CA. }
  assert (Hcall : do_call E (LoopCharacterAnimation o) s
                  = enqueue (MRun (nextCall s) (AAnimate (FLoop o) o))
                      (set_nextCall (S (nextCall s)) s0)).
  { unfold do_call, loopCharacterAnimation, _animateWithData, call_withData, _withData,
      then_withData. fold s0. fields. rewrite Cl, Hf, Cp, Cfu, Cn.
    by rewrite bool_decide_eq_true_2. }
  assert (Hrun : run_micro E (MRun (nextCall s) (AAnimate (FLoop o) o))
                   (set_micro [] (set_nextCall (S (nextCall s)) s0))
                 = await (MLoopDelay A.1 o
                            (prop (Options.assign_obj ∅ [_options s; o]) "delayBetweenLoops"))
                     (emit (EEffect CharacterRenderer RAnimate A.1)
                        (set__animator A.2 s1))).
  { unfold run_micro. fields. rewrite Cl, Hf. cbn [negb run_action]. fold s1.
    rewrite animate_loop. fold A. rewrite animateForever_active.
    - rewrite Hrp. cbn [snd]. change (_options (set__animator A.2 s1)) with (_options s0).
      by rewrite Co.
    - apply setup_fresh_active.
    - change (_characterRenderer (set__animator A.2 s1)) with (_characterRenderer s0).
      by rewrite Cr. }
  eexists. split.
  - cbn [exec]. unfold step at 1. cbn [foldl]. rewrite Hcall.
    erewrite step_tick; [|by unfold enqueue; fields; rewrite Cm, Hm].
    reflexivity.
  - change (set_micro [] (enqueue ?m ?x)) with (set_micro [] x).
    rewrite Hrun. unfold await, emit, s1. fields. unfold emit. fields. rewrite <- Hg.
    split_and!; try done.
    + by rewrite Clog, <- !app_assoc.
    + by rewrite Ca, Ha.
    + apply setup_fresh_active.
Qed.

(** X17.  [loopCharacterAnimation], called with the data there, cancels the quiz,
    starts a generation and renders the character; from then on, as long as
    the generation stays valid and the renderer answers with a promise, the
    loop does not stop: round after round the timer is set to
    [delayBetweenLoops] when the rendering has ended, and the character is
    rendered again when the timer has fired.  The delay is the one of the
    call's options if they have the property, the instance's otherwise, and
    each round leaves one reaction waiting, so nothing piles up. *)
Theorem loopCharacterAnimation_goes_on E o s n :
  micro s = [] → awaiting s = [] → failed s = false →
  _withDataPromise s ∈ fulfilled s → is_Some (_characterRenderer s) →
  (∀ n, render_promise E n = true) →
  let g := length (anims (_animator s)) in
  let d := match o !! "delayBetweenLoops" with
           | Some v => v
           | None => prop (_options s) "delayBetweenLoops"
           end in
  ∃ s', exec E ([LHost [LoopCharacterAnimation o]; LTick] ++ mjoin (replicate n loop_round)) s
        = Some s'
    ∧ log s' = log s
               ++ match _quiz s with Some q => [EQuizCancel q] | None => [] end
               ++ [EInvoke (nextCall s); EEffect CharacterRenderer RAnimate g]
               ++ mjoin (replicate n [ETimeout g d; EEffect CharacterRenderer RAnimate g])
    ∧ micro s' = [] ∧ awaiting s' = [MLoopDelay g o d]
    ∧ Animation_isActive g (_animator s') = true
    ∧ _quiz s' = None.
Proof.
  intros Hm Ha Hf Hp Hr Hrp g d.
  assert (Hd : d = prop (Options.assign_obj ∅ [_options s; o]) "delayBetweenLoops")
    by (by rewrite assign_obj_two, prop_union).
  destruct (loop_starts E o s Hm Ha Hf Hp Hr Hrp)
    as (s1 & Hx1 & Hl1 & Hm1 & Ha1 & Hact1 & Ho1 & Hr1 & Hq1).
  fold g in Hl1, Ha1, Hact1. rewrite <- Hd in Ha1.
  destruct (loop_rounds E o g s1 d n Hm1 Ha1 Hact1) as (s' & Hx & Hl & Hm' & Ha' & Hact' & Hq').
  { by rewrite Hr1. }
  { done. }
  { by rewrite Ho1. }
  exists s'. rewrite (exec_app E _ _ s s1 Hx1).
  split_and!; try done; [by rewrite Hl, Hl1, <- !app_assoc | congruence].
Qed.

Lemma loopCharacterAnimation_goes_on_witness :
  let o : obj := {[ "delayBetweenLoops" := VNum (Fin 500) ]} in
  micro quiz_view_demo = [] ∧ awaiting quiz_view_demo = [] ∧ failed quiz_view_demo = false
  ∧ _withDataPromise quiz_view_demo ∈ fulfilled quiz_view_demo
  ∧ is_Some (_characterRenderer quiz_view_demo)
  ∧ (∀ n, render_promise demo_env n = true)
  ∧ ∃ s', exec demo_env ([LHost [LoopCharacterAnimation o]; LTick]
                           ++ mjoin (replicate 2 loop_round)) quiz_view_demo = Some s'
      ∧ log s' = [EQuizCancel 0; EInvoke 1; EEffect CharacterRenderer RAnimate 0;
                  ETimeout 0 (VNum (Fin 500)); EEffect CharacterRenderer RAnimate 0;
                  ETimeout 0 (VNum (Fin 500)); EEffect CharacterRenderer RAnimate 0].
Proof.
  intros o.
  assert (H1 : _withDataPromise quiz_view_demo ∈ fulfilled quiz_view_demo)
    by (by apply list_elem_of_singleton).
  split_and!; [reflexivity | reflexivity | reflexivity | exact H1 | by eexists
              | reflexivity |].
  destruct (loopCharacterAnimation_goes_on demo_env o quiz_view_demo 2
              eq_refl eq_refl eq_refl H1 (ex_intro _ 0 eq_refl) (λ _, eq_refl))
    as (s' & Hx & Hl & _).
  exists s'. split; [exact Hx | exact Hl].
Defined.

(** ** Setting up the module *)

(** X18.  Loading the file in a browser puts the constructor in
    [window.HanziWriter]; [noConflict] then returns the constructor and puts
    back what was there, so that every property of the window reads as it did
    before the file was loaded, while [module.exports], if there is a module,
    stays the constructor.  Without a window the file stores nothing there
    and defines no [noConflict]. *)
Theorem noConflict_restores (g : Global) :
  (∀ w, window g = Some w →
     ∃ w1 g2 w2,
       window (load_module g).1 = Some w1
       ∧ prop w1 "HanziWriter" = HanziWriter_fun
       ∧ (∀ k, k ≠ "HanziWriter" → prop w1 k = prop w k)
       ∧ (load_module g).2 = Some (prop w "HanziWriter")
       ∧ noConflict (prop w "HanziWriter") (load_module g).1 = Some (g2, HanziWriter_fun)
       ∧ window g2 = Some w2
       ∧ (∀ k, prop w2 k = prop w k)
       ∧ module g2 = module (load_module g).1)
  ∧ (window g = None →
       window (load_module g).1 = None ∧ (load_module g).2 = None)
  ∧ (∀ m, module g = Some m →
       ∃ m1, module (load_module g).1 = Some m1
             ∧ prop m1 "exports" = HanziWriter_fun
             ∧ ∀ k, k ≠ "exports" → prop m1 k = prop m k).
Proof.
  split_and!.
  - intros w Hw. unfold load_module, noConflict. rewrite Hw. cbn [window module fst snd].
    do 3 eexists. split_and!; try reflexivity.
    + unfold prop. by rewrite lookup_insert_eq.
    + intros k Hk. unfold prop. by rewrite lookup_insert_ne.
    + intros k. unfold prop. destruct (decide (k = "HanziWriter")) as [->|Hne].
      * by rewrite lookup_insert_eq.
      * by rewrite !lookup_insert_ne.
  - intros Hw. unfold load_module. by rewrite Hw.
  - intros m Hmod. unfold load_module. rewrite Hmod. cbn [window module fst snd].
    eexists. split_and!; [reflexivity| |].
    + unfold prop. by rewrite lookup_insert_eq.
    + intros k Hk. unfold prop. by rewrite lookup_insert_ne.
Qed.

Lemma noConflict_restores_witness :
  let w : obj := {[ "HanziWriter" := VStr "another library" ]} in
  let g := {| window := Some w; module := None |} in
  window g = Some w
  ∧ (load_module g).2 = Some (VStr "another library")
  ∧ ∃ g2 w2, noConflict (VStr "another library") (load_module g).1 = Some (g2, HanziWriter_fun)
             ∧ window g2 = Some w2
             ∧ ∀ k, prop w2 k = prop w k.
Proof.
  intros w g. split; [reflexivity|].
  destruct (proj1 (noConflict_restores g) w eq_refl)
    as (w1 & g2 & w2 & _ & _ & _ & Hp & Hn & Hw2 & Hk & _).
  split; [exact Hp|]. exists g2, w2. split_and!; [exact Hn | exact Hw2 | exact Hk].
Defined.

(** ** What pointer input can do *)

(** X19.  A listener changes nothing of the controller: whatever the event and
    whatever the state, all it does is prevent the default action and call
    the quiz, at most once each, and every field is as it was. *)
Theorem pointer_input_changes_nothing E ev s :
  ∃ evs, (dispatch E ev s).2 = set_log (log s ++ evs) s
         ∧ Forall listener_event evs ∧ length evs ≤ 2.
Proof.
  assert (Hs : s = set_log (log s ++ []) s) by (rewrite app_nil_r; by destruct s).
  destruct ev; unfold dispatch, canvas_listener, _forwardToQuiz, _getMousePoint,
    _getTouchPoint, emit;
    repeat (fields; case_match); simplify_eq; fields;
    first [ by (exists []; split_and!; [done | constructor | simpl; lia])
          | (eexists [_]; split_and!; [reflexivity | by repeat constructor | simpl; lia])
          | (eexists [_; _]; split_and!;
             [by rewrite <- app_assoc | by repeat constructor | simpl; lia]) ].
Qed.

(** ** Calls made with the data there *)

(** A call that goes through [_withData] with the data there queues its
    action, and nothing else of note. *)
Lemma ready_call E c a s :
  action_of c = Some a → failed s = false → _withDataPromise s ∈ fulfilled s →
  micro (do_call E c s) = micro s ++ [MRun (nextCall s) a]
  ∧ _loadingManager (do_call E c s) = _loadingManager s
  ∧ _withDataPromise (do_call E c s) = _withDataPromise s
  ∧ fulfilled (do_call E c s) = fulfilled s
  ∧ nextCall (do_call E c s) = S (nextCall s)
  ∧ invoked (log (do_call E c s)) = invoked (log s).
Proof.
  unfold failed. intros Ha Hf Hp.
  destruct c; simplify_eq/=; crush_ops;
    repeat match goal with
           | H : bool_decide _ = false |- _ => apply bool_decide_eq_false in H
           end;
    rewrite ?invoked_app; cbn [invoked app]; rewrite ?app_nil_r;
    try done; try congruence.
Qed.

Lemma ready_calls E cs s :
  Forall with_data_call cs → failed s = false → _withDataPromise s ∈ fulfilled s →
  let s1 := foldl (λ s c, do_call E c s) s cs in
  ∃ acts, length acts = length cs
    ∧ micro s1 = micro s ++ ((λ x, MRun x.1 x.2) <$> tagged (nextCall s) acts)
    ∧ failed s1 = false
    ∧ invoked (log s1) = invoked (log s).
Proof.
  intros Hcs. revert s. induction Hcs as [|c cs Hc Hcs IH]; intros s Hf Hp; cbn [foldl].
  - exists []. by rewrite app_nil_r.
  - assert (∃ a, action_of c = Some a) as [a Ha] by (destruct c; simpl in *; eauto; done).
    destruct (ready_call E c a s Ha Hf Hp) as (Dm & Dl & Dp & Dfu & Dn & Di).
    destruct (IH (do_call E c s)) as (acts & Hlen & Hm & Hf' & Hi).
    { unfold failed. by rewrite Dl. }
    { by rewrite Dp, Dfu. }
    exists (a :: acts). cbn [length tagged fmap list_fmap fst snd].
    split_and!; [by rewrite Hlen | | done | congruence].
    by rewrite Hm, Dm, Dn, <- app_assoc.
Qed.

(** X20.  With the data there a call still does not run its action before it
    returns: the action is queued, and the queued actions are invoked one by
    one in later reactions, in the order of the calls and each exactly
    once. *)
Theorem ready_actions_run_in_order E s cs :
  micro s = [] → failed s = false → _withDataPromise s ∈ fulfilled s →
  Forall with_data_call cs →
  ∃ s' before after,
    exec E (LHost cs :: replicate (length cs) LTick) s = Some s'
    ∧ log s' = log s ++ before ++ after
    ∧ invoked before = []
    ∧ invoked after = seq (nextCall s) (length cs)
    ∧ micro s' = [].
Proof.
  intros Hm Hf Hp Hcs.
  destruct (ready_calls E cs s Hcs Hf Hp) as (acts & Hlen & Rm & Rf & Ri).
  destruct (host_log_grows E cs s) as (before & Hbefore).
  set (s1 := foldl (λ s c, do_call E c s) s cs) in *.
  rewrite Hm in Rm. cbn [app] in Rm.
  destruct (run_queue E (tagged (nextCall s) acts) s1 Rm Rf)
    as (s' & Hx & Hm' & _ & Hi & _ & _ & after & Hafter).
  exists s', before, after. split_and!.
  - change (LHost cs :: replicate (length cs) LTick)
      with ([LHost cs] ++ replicate (length cs) LTick).
    rewrite (exec_app E [LHost cs] _ s s1) by (cbn [exec]; by unfold step).
    by rewrite <- Hlen, <- (tagged_length (nextCall s)).
  - by rewrite Hafter, Hbefore, <- app_assoc.
  - apply (invoked_tail (log s)). by rewrite <- Hbefore, Ri, app_nil_r.
  - apply (invoked_tail (log s1)). by rewrite <- Hafter, Hi, tagged_ids, Hlen.
  - done.
Qed.

Lemma ready_actions_run_in_order_witness :
  let cs := [ShowCharacter ∅; HideCharacter ∅; StartQuiz ∅] in
  micro quiz_view_demo = [] ∧ failed quiz_view_demo = false
  ∧ _withDataPromise quiz_view_demo ∈ fulfilled quiz_view_demo
  ∧ Forall with_data_call cs
  ∧ ∃ s' before after,
      exec demo_env (LHost cs :: replicate (length cs) LTick) quiz_view_demo = Some s'
      ∧ log s' = log quiz_view_demo ++ before ++ after
      ∧ invoked before = []
      ∧ invoked after = [1; 2; 3]
      ∧ micro s' = [].
Proof.
  intros cs.
  assert (H1 : _withDataPromise quiz_view_demo ∈ fulfilled quiz_view_demo)
    by (by apply list_elem_of_singleton).
  assert (H2 : Forall with_data_call cs) by (repeat constructor).
  split_and!; [reflexivity | reflexivity | exact H1 | exact H2 |].
  exact (ready_actions_run_in_order demo_env quiz_view_demo cs eq_refl eq_refl H1 H2).
Defined.

(** ** Setting a character while the loop runs *)

Lemma setCharacter_queues_nothing E c s :
  sync_fail E (requests s) = false →
  micro (setCharacter E c s) = micro s ∧ awaiting (setCharacter E c s) = awaiting s.
Proof. unfold requests. intros Hs. crush_ops; (done || congruence). Qed.

(** X21.  [setCharacter] ends a running loop.  The reaction that waits for the
    rendering still sets its timer when the rendering ends, for it does not
    look at the generation; the continuation the timer leads to does, finds
    the generation cancelled and returns without rendering.  After that no
    reaction of the loop is left. *)
Theorem setCharacter_ends_loop E c o g d s :
  micro s = [] → awaiting s = [MLoopDelay g o d] →
  animator_ok (_animator s) → sync_fail E (requests s) = false →
  ∃ s', exec E [LHost [SetCharacter c]; LDone 0; LTick; LDone 0; LTick] s = Some s'
    ∧ log s' = log (setCharacter E c s) ++ [ETimeout g d]
    ∧ micro s' = [] ∧ awaiting s' = []
    ∧ (∀ g', Animation_isActive g' (_animator s') = false).
Proof.
  intros Hm Ha Hok Hs.
  destruct (setCharacter_queues_nothing E c s Hs) as [Sm Sa].
  pose proof (λ g', setCharacter_all_inactive E c s g' Hok) as Sg.
  set (s1 := setCharacter E c s) in *. rewrite Hm in Sm. rewrite Ha in Sa.
  set (s2 := await (MLoopNext g o) (emit (ETimeout g d) (set_micro [] (set_awaiting [] s1)))).
  exists (set_micro [] (set_awaiting [] s2)). split.
  - cbn [exec]. unfold step at 1. cbn [foldl do_call]. fold s1.
    rewrite (complete_only E _ s1 Sm Sa).
    erewrite step_tick; [|reflexivity]. cbn [run_micro].
    change (set_micro [] (set_micro [MLoopDelay g o d] (set_awaiting [] s1)))
      with (set_micro [] (set_awaiting [] s1)). fold s2.
    rewrite (complete_only E (MLoopNext g o) s2) by done.
    erewrite step_tick; [|reflexivity]. cbn [run_micro].
    rewrite animateForever_inactive; [done|]. apply Sg.
  - by split_and!.
Qed.

Lemma setCharacter_ends_loop_witness :
  let s := set_awaiting [MLoopDelay 0 ∅ VUndef]
             (set__animator {| anims := [true]; lastAnimation := Some 0 |} quiz_view_demo) in
  micro s = [] ∧ awaiting s = [MLoopDelay 0 ∅ VUndef]
  ∧ animator_ok (_animator s) ∧ sync_fail demo_env (requests s) = false
  ∧ ∃ s', exec demo_env [LHost [SetCharacter "B"]; LDone 0; LTick; LDone 0; LTick] s = Some s'
      ∧ log s' = log (setCharacter demo_env "B" s) ++ [ETimeout 0 VUndef]
      ∧ micro s' = [] ∧ awaiting s' = [].
Proof.
  intros s.
  assert (Hok : animator_ok (_animator s)).
  { intros [|g]; [done|]. unfold Animation_isActive. simpl. by destruct g. }
  split_and!; [reflexivity | reflexivity | exact Hok | reflexivity |].
  destruct (setCharacter_ends_loop demo_env "B" ∅ 0 VUndef s eq_refl eq_refl Hok eq_refl)
    as (s' & Hx & Hl & Hm & Ha & _).
  exists s'. split_and!; [exact Hx | exact Hl | exact Hm | exact Ha].
Defined.

(** ** A reload that is refused at once *)

(** The call asks for the data again, the provider refuses at once: the
    rejection is queued before the retry. *)
Lemma refused_call E c a s :
  action_of c = Some a → failed s = true → sync_fail E (requests s) = true →
  micro (do_call E c s)
  = micro s ++ [MLoaded (requests s) (_char s) None; MRetry (nextCall s) a]
  ∧ waiters (do_call E c s) = waiters s
  ∧ invoked (log (do_call E c s)) = invoked (log s)
  ∧ loads (log (do_call E c s)) = loads (log s) ++ [(_char s, requests s)]
  ∧ _hanziWriterRenderer (do_call E c s) = None
  ∧ _quiz (do_call E c s) = None.
Proof.
  unfold failed, requests. intros Ha Hf Hs.
  destruct c; simplify_eq/=; crush_ops;
    rewrite <- ?app_assoc, ?invoked_app, ?loads_app; cbn [invoked loads app];
    rewrite ?app_nil_r; try done; try congruence.
Qed.

Lemma no_waiter_on (k : nat) (ws : list (nat * (nat * action))) :
  (∀ w, w ∈ ws → w.1 < k) →
  filter (λ w, w.1 = k) ws = [] ∧ filter (λ w, w.1 ≠ k) ws = ws.
Proof.
  intros Hw. destruct (filter_own_waiters k ws []) as [H1 H2].
  - intros w Hin. apply Hw in Hin. lia.
  - cbn [fmap list_fmap] in *. by rewrite app_nil_r in *.
Qed.

(** X22.  After a failed load, a call that goes through [_withData] asks for the
    data again; when the provider refuses at once, the retry finds loading
    failed again and gives up: the failure is reported, the action is not
    invoked, nothing is built, and no reaction is left waiting. *)
Theorem retry_gives_up_when_refused E s c a :
  micro s = [] → failed s = true → action_of c = Some a →
  sync_fail E (requests s) = true →
  (∀ w, w ∈ waiters s → w.1 < requests s) →
  ∃ s', exec E [LHost [c]; LTick; LTick; LTick] s = Some s'
    ∧ log s' = log (do_call E c s) ++ [ELoadError (requests s)]
    ∧ loads (log s') = loads (log s) ++ [(_char s, requests s)]
    ∧ invoked (log s') = invoked (log s)
    ∧ failed s' = true ∧ micro s' = [] ∧ waiters s' = waiters s
    ∧ _hanziWriterRenderer s' = None ∧ _quiz s' = None.
Proof.
  intros Hm Hf Ha Hs Hw.
  destruct (refused_call E c a s Ha Hf Hs) as (Rm & Rw & Ri & Rl & Rr & Rq).
  destruct (no_waiter_on (requests s) (waiters s) Hw) as [W1 W2].
  set (s1 := do_call E c s) in *. rewrite Hm in Rm. cbn [app] in Rm.
  eexists. split.
  - cbn [exec]. unfold step at 1. cbn [foldl]. fold s1.
    erewrite step_tick; [|exact Rm].
    erewrite step_tick; [|by unfold run_micro, loaded, enqueue, emit; fields].
    erewrite step_tick; [|by unfold run_micro, loaded, enqueue, emit; fields].
    reflexivity.
  - unfold failed. unfold run_micro, fulfil, setCharacter_then, loaded, enqueue, emit. fields.
    rewrite Rw, W1, W2, loads_app, invoked_app, Ri, Rl. cbn [loads invoked fmap list_fmap].
    rewrite !app_nil_r. split_and!; done.
Qed.

Lemma retry_gives_up_when_refused_witness :
  let E := {| rect_width := 300; rect_height := 200; rect_left := 10; rect_top := 20;
              isMSBrowser := false; str_to_num := λ _, NaN;
              quotient := λ x y, Some (x / y)%Q;
              sync_fail := λ _, true; render_promise := λ _, true |} in
  micro failed_view = [] ∧ failed failed_view = true
  ∧ action_of (ShowCharacter ∅) = Some (AAnimate (FRender CharacterRenderer RShow) ∅)
  ∧ sync_fail E (requests failed_view) = true
  ∧ (∀ w, w ∈ waiters failed_view → w.1 < requests failed_view)
  ∧ ∃ s', exec E [LHost [ShowCharacter ∅]; LTick; LTick; LTick] failed_view = Some s'
      ∧ invoked (log s') = invoked (log failed_view)
      ∧ failed s' = true ∧ micro s' = [].
Proof.
  intros E.
  assert (H1 : ∀ w, w ∈ waiters failed_view → w.1 < requests failed_view)
    by (by intros w ?%elem_of_nil).
  split_and!; [reflexivity | reflexivity | reflexivity | reflexivity | exact H1 |].
  destruct (retry_gives_up_when_refused E failed_view (ShowCharacter ∅) _
              eq_refl eq_refl eq_refl eq_refl H1)
    as (s' & Hx & _ & _ & Hi & Hf & Hm & _).
  exists s'. split_and!; [exact Hx | exact Hi | exact Hf | exact Hm].
Defined.

(** ** The data the controller waits for *)

Global Hint Constructors Request_moves : hw.

Lemma rmoves_trans x y z : Request_moves x y → Request_moves y z → Request_moves x z.
Proof. intros Hxy Hyz. induction Hyz; eauto with hw. Qed.

Lemma rmoves_ok x y : Request_moves x y → request_ok x → request_ok y.
Proof.
  induction 1 as [|x l ch p n c _ IH]; [done|]. intros Hx. specialize (IH Hx).
  unfold request_ok in *. cbn [fst snd] in *. destruct IH as [Hseq _]. split.
  - rewrite fmap_app, Hseq. cbn [fmap list_fmap snd].
    by rewrite seq_S.
  - by exists l.
Qed.

Ltac request_moves_tac :=
  unfold request_view, requests; crush_ops;
  rewrite ?loads_app; cbn [loads app]; rewrite ?app_nil_r;
  eauto 6 with hw.

Lemma do_call_rmoves E c s : Request_moves (request_view s) (request_view (do_call E c s)).
Proof. destruct c; request_moves_tac. Qed.

Lemma run_micro_rmoves E m s :
  Request_moves (request_view s) (request_view (run_micro E m s)).
Proof. destruct m; request_moves_tac. Qed.

Lemma step_rmoves E l s s' :
  step E l s = Some s' → Request_moves (request_view s) (request_view s').
Proof.
  intros Hs. apply step_inv in Hs
    as [(m & rest & -> & Hm & ->)|[(cs & -> & ->)|[(ev & -> & ->)|[(k & r & -> & Hs)|(i & -> & Hs)]]]].
  - apply (run_micro_rmoves E m (set_micro rest s)).
  - apply (foldl_rel E (λ s s', Request_moves (request_view s) (request_view s')));
      eauto using do_call_rmoves, rmoves_trans with hw.
  - destruct ev; request_moves_tac.
  - request_moves_tac.
  - request_moves_tac.
Qed.

Lemma exec_rmoves E ls s s' :
  exec E ls s = Some s' → Request_moves (request_view s) (request_view s').
Proof.
  apply (exec_rel E (λ s s', Request_moves (request_view s) (request_view s')));
    eauto using step_rmoves, rmoves_trans with hw.
Qed.

Lemma HanziWriter_request_ok E c o : request_ok (request_view (HanziWriter E c o)).
Proof.
  unfold HanziWriter, request_view, request_ok, requests.
  crush_ops; cbn [loads app fmap list_fmap fst snd seq]; (split; [done|]); by exists [].
Qed.

(** X23.  In every state reached from the constructor the requests for data
    are numbered in the order they were made, and the data promise the
    controller holds, on which [_withData] makes its callers wait, is the one
    of the latest request, made for the current character. *)
Theorem waits_for_latest_request E c o ls s :
  exec E ls (HanziWriter E c o) = Some s →
  (loads (log s)).*2 = seq 0 (requests s)
  ∧ requests s = S (_withDataPromise s)
  ∧ ∃ earlier, loads (log s) = earlier ++ [(_char s, _withDataPromise s)].
Proof.
  intros Hx. apply exec_rmoves in Hx.
  apply rmoves_ok in Hx; [|apply HanziWriter_request_ok].
  destruct Hx as (Hseq & l & Hl & Hn). unfold request_view in *. cbn [fst snd] in *.
  split_and!; [done..|]. by exists l.
Qed.

Lemma waits_for_latest_request_witness :
  let ls := [ LHost [SetCharacter "B"]; LSettle 1 None; LTick; LTick;
              LHost [ShowCharacter ∅]; LTick ] in
  (s ← exec demo_env ls (HanziWriter demo_env "A" ∅);
   Some (loads (log s), _char s, _withDataPromise s, requests s))
  = Some ([("A", 0); ("B", 1); ("B", 2)], "B", 2, 3)
  ∧ ∃ s, exec demo_env ls (HanziWriter demo_env "A" ∅) = Some s
      ∧ (loads (log s)).*2 = seq 0 (requests s)
      ∧ requests s = S (_withDataPromise s)
      ∧ ∃ earlier, loads (log s) = earlier ++ [(_char s, _withDataPromise s)].
Proof.
  intros ls. split; [vm_compute; reflexivity|].
  destruct (runs_Some (exec demo_env ls (HanziWriter demo_env "A" ∅))) as [s Hx];
    [vm_compute; reflexivity|].
  exists s. split; [exact Hx|].
  exact (waits_for_latest_request demo_env "A" ∅ ls s Hx).
Defined.
